(** * Signing and proving over messages given as JavaScript objects

    A shallow embedding of [src/sign-verify-js-objs.ts], of the credential
    serialisation of the [anonymous-credentials] module and of the scenarios
    exercised by the test-suite, together with the properties the
    specification states about them.

    Conventions.
    - A JavaScript object is the ordered list of its own enumerable
      string-keyed properties, in the order [Object.keys] lists them
      (array-index names first, in increasing numeric order, then the other
      names in insertion order).  The prototype link is not part of the
      model.
    - A [Map] or a [Set] is the list of its entries in insertion order.
    - Code that can [throw] returns a [Result].
    - Strings are sequences of 8-bit code units; JavaScript's default [sort]
      compares code units, which [String.le] does on this representation. *)

From Stdlib.Strings Require Import Byte Ascii.
From stdpp Require Import base list strings sorting pretty gmap.

Local Open Scope Z_scope.
#[local] Set Warnings "-clear-no-such-hyp".

(** ** Results of code that may throw *)

Inductive Result (A : Type) : Type :=
  | Ok (a : A)
  | Throw (message : string).
Arguments Ok {A} a.
Arguments Throw {A} message.

Global Instance Result_ret : MRet Result := λ _ a, Ok a.
Global Instance Result_bind : MBind Result := λ _ _ k r,
  match r with
  | Ok a => k a
  | Throw m => Throw m
  end.

Definition isThrow {A} (r : Result A) : Prop :=
  match r with Ok _ => False | Throw _ => True end.

(** [array.map(f)] for an [f] that may throw: the first failure wins. *)
Fixpoint traverse {A B} (f : A → Result B) (l : list A) : Result (list B) :=
  match l with
  | [] => Ok []
  | x :: l' => y ← f x; ys ← traverse f l'; Ok (y :: ys)
  end.

(** [forEach] with an accumulator and a body that may throw. *)
Fixpoint foldM {A S} (f : S → A → Result S) (l : list A) (s : S) : Result S :=
  match l with
  | [] => Ok s
  | x :: l' => s' ← f s x; foldM f l' s'
  end.

(** ** JavaScript values and objects *)

Abbreviation bytes := (list byte).

Global Instance byte_eq_decision : EqDecision byte := Byte.byte_eq_dec.

#[warnings="-register-all"] Inductive JsVal : Type :=
  | JUndefined
  | JNull
  | JBool (b : bool)
  | JNum (n : Z)
  | JStr (s : string)
  | JBytes (b : bytes)
  | JObj (isArray : bool) (props : list (string * JsVal)).

Abbreviation Obj := (list (string * JsVal)).

Definition Object_keys (o : Obj) : list string := o.*1.

Fixpoint obj_get (k : string) (o : Obj) : option JsVal :=
  match o with
  | [] => None
  | (k', v) :: o' => if decide (k' = k) then Some v else obj_get k o'
  end.

(** [o[k]] as an expression: [undefined] for a missing property. *)
Definition js_get (k : string) (o : Obj) : JsVal := default JUndefined (obj_get k o).

(** *** Property order

    A property name that is the canonical decimal form of an integer below
    [2^32 - 1] is an array index; [Object.keys] lists those first. *)

Definition digit_of (c : ascii) : option N :=
  let n := N_of_ascii c in
  if decide (48 ≤ n ≤ 57)%N then Some (n - 48)%N else None.

Fixpoint digits_value (s : string) (acc : N) : option N :=
  match s with
  | EmptyString => Some acc
  | String c s' =>
      match digit_of c with
      | Some d => digits_value s' (10 * acc + d)%N
      | None => None
      end
  end.

Definition decimal_value (s : string) : option N :=
  match s with
  | EmptyString => None
  | _ => digits_value s 0
  end.

Definition array_index (s : string) : option N :=
  match decimal_value s with
  | Some n =>
      if decide (pretty n = s ∧ (n < 4294967295)%N) then Some n else None
  | None => None
  end.

Fixpoint obj_replace (k : string) (v : JsVal) (o : Obj) : option Obj :=
  match o with
  | [] => None
  | (k', v') :: o' =>
      if decide (k' = k) then Some ((k, v) :: o')
      else cons (k', v') <$> obj_replace k v o'
  end.

Fixpoint insert_index (n : N) (k : string) (v : JsVal) (o : Obj) : Obj :=
  match o with
  | [] => [(k, v)]
  | (k', v') :: o' =>
      match array_index k' with
      | Some n' =>
          if decide (n' < n)%N then (k', v') :: insert_index n k v o'
          else (k, v) :: o
      | None => (k, v) :: o
      end
  end.

(** Defining or updating an own property. *)
Definition obj_set (k : string) (v : JsVal) (o : Obj) : Obj :=
  match obj_replace k v o with
  | Some o' => o'
  | None =>
      match array_index k with
      | Some n => insert_index n k v o
      | None => o ++ [(k, v)]
      end
  end.

(** [o[k] = v] on an ordinary object.  Assigning to ["__proto__"] runs the
    inherited setter and creates no own property. *)
Definition js_assign (k : string) (v : JsVal) (o : Obj) : Obj :=
  if decide (k = "__proto__") then o else obj_set k v o.

Definition obj_delete (k : string) (o : Obj) : Obj :=
  filter (λ kv, kv.1 ≠ k) o.

(** ** The [flat] package (version 5): [flatten]

    [[
    function step (object, prev, currentDepth) {
      Object.keys(object).forEach(function (key) {
        const value = object[key]
        const type = Object.prototype.toString.call(value)
        const isobject = (type === '[object Object]' || type === '[object Array]')
        const newKey = prev ? prev + delimiter + transformKey(key) : transformKey(key)
        if (!isarray && !isbuffer && isobject && Object.keys(value).length && ...)
          return step(value, newKey, currentDepth + 1)
        output[newKey] = value
      })
    }
    ]]
    called with the default options: delimiter ["."], no [safe], no
    [maxDepth].  An empty string as [prev] is falsy, like the [undefined] of
    the first call. *)

Definition join_key (prev key : string) : string :=
  if decide (prev = "") then key else prev +:+ "." +:+ key.

Fixpoint step_value (newKey : string) (value : JsVal) (output : Obj) {struct value} : Obj :=
  match value with
  | JObj _ ((_ :: _) as props) =>
      (fix step_props (ps : list (string * JsVal)) (out : Obj) {struct ps} : Obj :=
         match ps with
         | [] => out
         | (key, v) :: ps' => step_props ps' (step_value (join_key newKey key) v out)
         end) props output
  | _ => js_assign newKey value output
  end.

Fixpoint step (object : Obj) (prev : string) (output : Obj) : Obj :=
  match object with
  | [] => output
  | (key, value) :: object' => step object' prev (step_value (join_key prev key) value output)
  end.

Definition flatten (target : Obj) : Obj := step target "" [].

(** ** Sorting names: [Array.prototype.sort] without a comparator *)

Definition sort_names (names : list string) : list string :=
  merge_sort String.le names.

(** [array.indexOf(x)]; [None] stands for [-1]. *)
Fixpoint indexOf (x : string) (l : list string) : option nat :=
  match l with
  | [] => None
  | y :: l' => if decide (y = x) then Some 0%nat else S <$> indexOf x l'
  end.

(** ** [sign-verify-js-objs.ts]: message structures *)

(** [MessageStructure = Record<string, null | MessageStructure>] is an object
    whose leaves are [null]. *)
Abbreviation MessageStructure := Obj (only parsing).

Definition flattenMessageStructure (msgStructure : MessageStructure) : Obj :=
  flatten msgStructure.

Definition structNames (msgStructure : MessageStructure) : list string :=
  sort_names (Object_keys (flattenMessageStructure msgStructure)).

(** The loop of [isValidMsgStructure]: [i] runs from its start value while
    [i <= namesInMsgs.length]; [remaining] counts the iterations left.  A
    read past the end of an array is [undefined], here [None]. *)
Fixpoint names_loop (namesInStruct namesInMsgs : list string) (i remaining : nat) : bool :=
  match remaining with
  | O => true
  | S r =>
      if decide (namesInStruct !! i = namesInMsgs !! i)
      then names_loop namesInStruct namesInMsgs (S i) r
      else false
  end.

Definition isValidMsgStructure (messages : Obj) (msgStructure : MessageStructure) : bool :=
  let namesInStruct := sort_names (Object_keys (flattenMessageStructure msgStructure)) in
  let namesInMsgs := sort_names (Object_keys (flatten messages)) in
  bool_decide (length namesInMsgs = length namesInStruct)
  && names_loop namesInStruct namesInMsgs 0 (S (length namesInMsgs)).

Definition name_not_found (n : string) : string :=
  "Message name " +:+ n +:+ " was not found".

Definition getIndicesForMsgNames (msgNames : list string) (msgStructure : MessageStructure)
  : Result (list nat) :=
  let allNames := sort_names (Object_keys (flattenMessageStructure msgStructure)) in
  traverse (λ n, match indexOf n allNames with
             | None => Throw (name_not_found n)
             | Some i => Ok i
             end) msgNames.

(** ** [Map] objects: entries in insertion order *)

Section JsMap.
Context {K V : Type} `{EqDecision K}.

Fixpoint map_get (k : K) (m : list (K * V)) : option V :=
  match m with
  | [] => None
  | (k', v) :: m' => if decide (k' = k) then Some v else map_get k m'
  end.

(** [m.set(k, v)]: a present key keeps its place, a new key goes last. *)
Fixpoint map_set (k : K) (v : V) (m : list (K * V)) : list (K * V) :=
  match m with
  | [] => [(k, v)]
  | (k', v') :: m' =>
      if decide (k' = k) then (k, v) :: m' else (k', v') :: map_set k v m'
  end.
End JsMap.

Abbreviation JsMap K V := (list (K * V)).

(** ** Equality meta-statements *)

(** Modelled from the spec: [WitnessEqualityMetaStatement] of
    [composite-proof/statement.ts], which is not among the sources.  The spec
    describes it as the collection of (statementIndex, messageIndex) pairs
    asserted equal; [addWitnessRef] adds one pair, and the pairs are kept in
    the order they were added. *)
Record WitnessEqualityMetaStatement := { witnessRefs : list (Z * nat) }.

Definition new_WitnessEqualityMetaStatement : WitnessEqualityMetaStatement :=
  {| witnessRefs := [] |}.

Definition addWitnessRef (statementIndex : Z) (witnessIndex : nat)
    (ms : WitnessEqualityMetaStatement) : WitnessEqualityMetaStatement :=
  {| witnessRefs := witnessRefs ms ++ [(statementIndex, witnessIndex)] |}.

Definition createWitnessEqualityMetaStatement
    (equality : JsMap Z (list string * MessageStructure))
  : Result WitnessEqualityMetaStatement :=
  foldM (λ ms '(sIdx, (names, struct)),
           indices ← getIndicesForMsgNames names struct;
           Ok (foldl (λ ms i, addWitnessRef sIdx i ms) ms indices))
        equality new_WitnessEqualityMetaStatement.

(** ** The [flat] package (version 5): [unflatten]

    [[
    function getkey (key) {
      const parsedKey = Number(key)
      return (isNaN(parsedKey) || key.indexOf('.') !== -1 || opts.object) ? key : parsedKey
    }
    ]]
    [number_name key] is [Some s] when [Number(key)] is a number, [s] being
    the property name that number denotes.  The model covers the empty
    string (the number 0) and strings of decimal digits (their value, whose
    name is its canonical decimal form; exact below [2^53]).  Every other
    string is taken to be [NaN]: signs, fractions, exponents, radix prefixes,
    surrounding white space and ["Infinity"] are outside the model. *)

Definition number_name (key : string) : option string :=
  match key with
  | EmptyString => Some "0"
  | _ => pretty <$> decimal_value key
  end.

(** The property name [getkey(key)] denotes, and whether it is a number. *)
Definition key_name (key : string) : string := default key (number_name key).
Definition key_is_number (key : string) : bool := bool_decide (is_Some (number_name key)).

(** [key.split('.')]: never empty. *)
Fixpoint split_dot (s : string) : list string :=
  match s with
  | EmptyString => [""]
  | String c s' =>
      if decide (c = "."%char) then "" :: split_dot s'
      else match split_dot s' with
           | x :: xs => String c x :: xs
           | [] => [String c ""]
           end
  end.

(** [isEmpty(val)] on an object or an array; an array's [length] is one more
    than its largest index. *)
Definition isEmpty (isArray : bool) (props : Obj) : bool :=
  if isArray then negb (existsb (λ kv, bool_decide (is_Some (array_index kv.1))) props)
  else bool_decide (props = []).

Definition addKeys (keyPrefix : string) (recipient target : Obj) : Obj :=
  foldl (λ result kv, js_assign (keyPrefix +:+ "." +:+ kv.1) kv.2 result) recipient target.

(** The first pass of [unflatten]: values that are non-empty objects are
    flattened in place, so that afterwards no value has properties to
    descend into. *)
Definition unflatten_prepare (target : Obj) : Obj :=
  foldl (λ result kv,
           match kv.2 with
           | JObj isArray props =>
               if isEmpty isArray props then js_assign kv.1 kv.2 result
               else addKeys kv.1 result (flatten props)
           | _ => js_assign kv.1 kv.2 result
           end) [] target.

(** The body of the second pass for one key, split into [key1 :: rest]:
    [[
    while (key2 !== undefined) {
      if (key1 === '__proto__') return
      const type = Object.prototype.toString.call(recipient[key1])
      const isobject = (type === '[object Object]' || type === '[object Array]')
      if (!overwrite && !isobject && typeof recipient[key1] !== 'undefined') return
      if ((overwrite && !isobject) || (!overwrite && recipient[key1] == null))
        recipient[key1] = (typeof key2 === 'number' && !opts.object ? [] : {})
      recipient = recipient[key1]
      if (split.length > 0) { key1 = getkey(split.shift()); key2 = getkey(split[0]) }
    }
    recipient[key1] = unflatten(target[key], opts)
    ]]
    [recipient] is mutated in place, so the enclosing objects see the update.
    The values left by the first pass are returned unchanged by the inner
    call of [unflatten].  Reads of [recipient[key1]] consult own properties. *)
Fixpoint insert_path (key1 : string) (rest : list string) (value : JsVal)
    (recipient : Obj) : Obj :=
  match rest with
  | [] => js_assign (key_name key1) value recipient
  | key2 :: rest' =>
      if decide (key1 = "__proto__") then recipient
      else
        match obj_get (key_name key1) recipient with
        | Some (JObj isArray props) =>
            obj_set (key_name key1)
                    (JObj isArray (insert_path key2 rest' value props)) recipient
        | Some JUndefined | None =>
            obj_set (key_name key1)
                    (JObj (key_is_number key2) (insert_path key2 rest' value [])) recipient
        | Some _ => recipient
        end
  end.

Definition unflatten (target : Obj) : Obj :=
  foldl (λ result kv,
           match split_dot kv.1 with
           | key1 :: rest => insert_path key1 rest kv.2 result
           | [] => result
           end) [] (unflatten_prepare target).

(** [revealedMsgNames.forEach((n) => (revealedMsgsRaw[n] = flattened[n]))],
    starting from the empty object. *)
Definition collect_raw (flattened : Obj) (revealedMsgNames : list string) : Obj :=
  foldl (λ revealedMsgsRaw n, js_assign n (js_get n flattened) revealedMsgsRaw)
        [] revealedMsgNames.

(** ** The encoder *)

Section Encoder.

(** Modelled from the spec: the [Encoder] class of [encoder.ts], which is
    not among the sources.  [encodeMessage name value] turns one leaf into a
    field element and may fail (the spec's [SchemaMismatch] and
    [EncodingRangeError]); [encodeMessageObject] returns the
    lexicographically sorted flattened names of the object and, in the same
    order, the encoding of each leaf. *)
Variable encodeMessage : string → JsVal → Result bytes.

Definition encodeMessageObject (messages : Obj) : Result (list string * list bytes) :=
  let flattened := flatten messages in
  let names := sort_names (Object_keys flattened) in
  encodedValues ← traverse (λ n, encodeMessage n (js_get n flattened)) names;
  Ok (names, encodedValues).

(** *** [getRevealedAndUnrevealed] *)

(** The loop over [names]; [encodedValues] has one entry per name. *)
Fixpoint partition_loop (revealedMsgNames : list string) (i : nat)
    (names : list string) (encodedValues : list bytes)
    (st : JsMap nat bytes * JsMap nat bytes * nat)
  : JsMap nat bytes * JsMap nat bytes * nat :=
  match names, encodedValues with
  | n :: names', v :: encodedValues' =>
      let '(revealedMsgs, unrevealedMsgs, found) := st in
      partition_loop revealedMsgNames (S i) names' encodedValues'
        (if bool_decide (n ∈ revealedMsgNames)
         then (map_set i v revealedMsgs, unrevealedMsgs, S found)
         else (revealedMsgs, map_set i v unrevealedMsgs, found))
  | _, _ => st
  end.

Definition extra_names_found (extra : Z) : string :=
  "Some of the revealed message names were not found in the given messages object, "
  +:+ pretty extra +:+ " extra names found".

(** [revealedMsgNames] is a [Set<string>]: its elements in insertion
    order. *)
Definition getRevealedAndUnrevealed (messages : Obj) (revealedMsgNames : list string)
  : Result (JsMap nat bytes * JsMap nat bytes * Obj) :=
  '(names, encodedValues) ← encodeMessageObject messages;
  let '(revealedMsgs, unrevealedMsgs, found) :=
    partition_loop revealedMsgNames 0 names encodedValues ([], [], 0%nat) in
  if decide (length revealedMsgNames ≠ found) then
    Throw (extra_names_found (Z.of_nat (length revealedMsgNames) - Z.of_nat found))
  else
    let flattened := flatten messages in
    let revealedMsgsRaw := collect_raw flattened revealedMsgNames in
    Ok (revealedMsgs, unrevealedMsgs, unflatten revealedMsgsRaw).

(** *** [encodeRevealedMsgs] *)

Definition encodeRevealedMsgs (revealedMsgsRaw : Obj) (msgStructure : MessageStructure)
  : Result (JsMap nat bytes) :=
  let names := sort_names (Object_keys (flattenMessageStructure msgStructure)) in
  let flattenedRevealed := flatten revealedMsgsRaw in
  foldM (λ revealed '(n, v),
           match indexOf n names with
           | None => Throw (name_not_found n)
           | Some i => e ← encodeMessage n v; Ok (map_set i e revealed)
           end) flattenedRevealed [].

End Encoder.

(** ** Witnesses for blind signature requests *)

(** The comparator [([a], [b]) => a - b] orders entries by their key. *)
Definition key_le {V} : relation (Z * V) := λ a b, a.1 ≤ b.1.

Global Instance key_le_dec {V} : RelDecision (@key_le V).
Proof. intros a b. unfold key_le. apply _. Defined.

Definition sort_entries {V} (entries : list (Z * V)) : list (Z * V) :=
  merge_sort key_le entries.

Section BlindSigWitness.

(** [Witness.pedersenCommitment] of the proof engine. *)
Variable pedersenCommitment : list bytes → bytes.

Definition getBBSWitnessForBlindSigRequest (messages : JsMap Z bytes) : bytes :=
  let sortedMessages := sort_entries messages in
  pedersenCommitment (sortedMessages.*2).

Definition getBBSPlusWitnessForBlindSigRequest (messages : JsMap Z bytes)
    (blinding : bytes) : bytes :=
  let sortedMessages := sort_entries messages in
  pedersenCommitment (blinding :: sortedMessages.*2).

Definition missing_blinding (idx : Z) : string := "Missing blinding for " +:+ pretty idx.

Definition getPSWitnessesForBlindSigRequest (messages : JsMap Z bytes)
    (blinding : bytes) (blindings : JsMap Z bytes) : Result (list bytes) :=
  let sortedMessages := sort_entries messages in
  let first := pedersenCommitment (blinding :: sortedMessages.*2) in
  rest ← traverse (λ '(idx, msg),
                     match map_get idx blindings with
                     | None => Throw (missing_blinding idx)
                     | Some blinding => Ok (pedersenCommitment [blinding; msg])
                     end) sortedMessages;
  Ok (first :: rest).

End BlindSigWitness.

(** ** Credentials *)

Definition falsy (v : JsVal) : bool :=
  match v with
  | JUndefined | JNull | JBool false | JNum 0 | JStr EmptyString => true
  | _ => false
  end.

Definition is_undefined (v : JsVal) : bool :=
  match v with JUndefined => true | _ => false end.

(** [delete v[k]]: fails on [undefined] and [null], removes an own property
    of an object or an array, and leaves any other value as it is. *)
Definition delete_property (k : string) (v : JsVal) : Result JsVal :=
  match v with
  | JUndefined | JNull => Throw "TypeError: Cannot convert undefined or null to object"
  | JObj isArray props => Ok (JObj isArray (obj_delete k props))
  | _ => Ok v
  end.

(** The field names of [types-and-consts.ts], which is not among the
    sources: the code is embedded over any choice of them. *)
Record FieldNames := {
  CRYPTO_VERSION_STR : string;
  SCHEMA_STR : string;
  SUBJECT_STR : string;
  STATUS_STR : string;
  PROOF_STR : string
}.

Inductive SignatureType := Bbs | BbsPlus | Ps | Bddt16.

(** A schema, as far as the code below observes it: [toJsonString()],
    [JSON.stringify(toJSON())], [flatten()[0]] and [encoder]. *)
Record CredentialSchema := {
  toJsonString : string;
  toJSON_stringified : string;
  schema_flatten_names : list string;
  encoder : string → JsVal → Result bytes
}.

Record Credential {Signature : Type} := {
  sigType : SignatureType;
  version : string;
  schema : CredentialSchema;
  subject : JsVal;
  topLevelFields : JsMap string JsVal;
  signature : Signature;
  credentialStatus : JsVal
}.
Arguments Credential : clear implicits.

Section Credentials.
Context {SecretKey SignatureParams Signature : Type}.
Variable F : FieldNames.
(** [BBS_CRED_PROOF_TYPE], [BBS_PLUS_CRED_PROOF_TYPE], [PS_CRED_PROOF_TYPE]
    and [BDDT16_CRED_PROOF_TYPE]. *)
Variable CRED_PROOF_TYPE : SignatureType → string.

(** [applyDefaultProofMetadataIfNeeded] of the credential's class. *)
Definition applyDefaultProofMetadataIfNeeded (t : SignatureType) (s : Obj) : Obj :=
  if falsy (js_get (PROOF_STR F) s)
  then js_assign (PROOF_STR F) (JObj false [("type", JStr (CRED_PROOF_TYPE t))]) s
  else s.

(** [Credential.serializeForSigning].  The object literal defines its
    three properties in order; the top-level fields and the status are
    assigned afterwards. *)
Definition serializeForSigning (c : Credential Signature) : Result Obj :=
  let s := obj_set (SUBJECT_STR F) (subject c)
             (obj_set (SCHEMA_STR F) (JStr (toJsonString (schema c)))
                (obj_set (CRYPTO_VERSION_STR F) (JStr (version c)) [])) in
  let s := foldl (λ s kv, js_assign kv.1 kv.2 s) s (topLevelFields c) in
  let s := if is_undefined (credentialStatus c) then s
           else js_assign (STATUS_STR F) (credentialStatus c) s in
  let s := applyDefaultProofMetadataIfNeeded (sigType c) s in
  stripped ← delete_property "proofValue" (js_get (PROOF_STR F) s);
  Ok (match obj_get (PROOF_STR F) s with
      | Some _ => obj_set (PROOF_STR F) stripped s
      | None => s
      end).

(** *** [CredentialBuilder] *)

Record SignedMessages := {
  encodedMessages : list (string * bytes);
  signed_signature : Signature
}.

Record CredentialBuilder := {
  _version : string;
  _schema : option CredentialSchema;
  _subject : JsVal;
  _credStatus : JsVal;
  _encodedAttributes : option (list (string * bytes));
  _topLevelFields : JsMap string JsVal;
  _sig : option Signature
}.

(** [JSON.stringify(this._schema?.toJSON())] is [undefined] without a
    schema. *)
Definition builder_serializeForSigning (b : CredentialBuilder) : Obj :=
  let s := obj_set (SUBJECT_STR F) (_subject b)
             (obj_set (SCHEMA_STR F)
                (match _schema b with
                 | Some schema => JStr (toJSON_stringified schema)
                 | None => JUndefined
                 end)
                (obj_set (CRYPTO_VERSION_STR F) (JStr (_version b)) [])) in
  let s := foldl (λ s kv, js_assign kv.1 kv.2 s) s (_topLevelFields b) in
  if is_undefined (_credStatus b) then s
  else js_assign (STATUS_STR F) (_credStatus b) s.

(** Modelled from the spec: [areArraysEqual] of [tests/utils.ts], which is
    not among the sources.  The spec requires the serialized field names to
    equal exactly the schema's flattened leaves. *)
Definition areArraysEqual (arr1 arr2 : list string) : bool := bool_decide (arr1 = arr2).

Definition hasAllFieldsFromSchema (serializedCred : Obj) (schema : CredentialSchema) : bool :=
  areArraysEqual (schema_flatten_names schema)
                 (sort_names (Object_keys (flatten serializedCred))).

(** [signMessageObject], the entry to the signing primitive, and
    [SIGNATURE_PARAMS_LABEL_BYTES]. *)
Variable signMessageObject :
  Obj → SecretKey → SignatureParams + bytes → (string → JsVal → Result bytes)
  → Result SignedMessages.
Variable SIGNATURE_PARAMS_LABEL_BYTES : bytes.

(** A call of the signing primitive, with its arguments. *)
Inductive CryptoCall :=
  SignMessageObject (cred : Obj) (secretKey : SecretKey)
                    (params : SignatureParams + bytes).

(** [CredentialBuilder.sign]: the builder after the call, the calls of the
    signing primitive it made, and its outcome. *)
Definition sign (b : CredentialBuilder) (secretKey : SecretKey)
    (signatureParams : option SignatureParams)
  : CredentialBuilder * list CryptoCall * Result (Credential Signature) :=
  let cred := builder_serializeForSigning b in
  match _schema b with
  | None => (b, [], Throw "TypeError: Cannot read properties of undefined (reading 'flatten')")
  | Some schema =>
      if negb (hasAllFieldsFromSchema cred schema) then
        (b, [], Throw "Credential does not have all the fields from schema")
      else
        let params := match signatureParams with
                      | Some p => inl p
                      | None => inr SIGNATURE_PARAMS_LABEL_BYTES
                      end in
        let calls := [SignMessageObject cred secretKey params] in
        match signMessageObject cred secretKey params (encoder schema) with
        | Throw m => (b, calls, Throw m)
        | Ok signed =>
            let b' := {| _version := _version b; _schema := _schema b;
                         _subject := _subject b; _credStatus := _credStatus b;
                         _encodedAttributes := Some (encodedMessages signed);
                         _topLevelFields := _topLevelFields b;
                         _sig := Some (signed_signature signed) |} in
            (b', calls,
             Ok {| sigType := BbsPlus; version := _version b; schema := schema;
                   subject := _subject b; topLevelFields := _topLevelFields b;
                   signature := signed_signature signed;
                   credentialStatus := _credStatus b |})
        end
  end.

End Credentials.

(** ** The accumulator and its state store *)

Section Accumulator.
Context {Member : Type} `{Countable Member} {Accumulated : Type}.

(** The accumulator arithmetic of the engine; it may fail. *)
Variable engine_add : Member → Accumulated → Result Accumulated.
Variable engine_remove : Member → Accumulated → Result Accumulated.
Variable engine_addBatch : list Member → Accumulated → Result Accumulated.
Variable engine_removeBatch : list Member → Accumulated → Result Accumulated.

(** Modelled from the spec: the accumulator of [accumulator/accumulator.ts]
    with the state store of [accumulator/in-memory-persistence.ts], neither
    of which is among the sources.  The store is the set of members; every
    operation first checks the store (a duplicate add and the removal of a
    non-member are rejected, each element of a batch counting once), then
    runs the engine, and commits to the store only when the engine
    succeeded. *)
Record AccumulatorState := {
  accumulated : Accumulated;
  state : gset Member
}.

Definition store_add (s : gset Member) (e : Member) : Result (gset Member) :=
  if decide (e ∈ s) then Throw "element already present" else Ok ({[e]} ∪ s).

Definition store_remove (s : gset Member) (e : Member) : Result (gset Member) :=
  if decide (e ∈ s) then Ok (s ∖ {[e]}) else Throw "element not present".

Definition commit (st : AccumulatorState) (r : Result (Accumulated * gset Member))
  : AccumulatorState * Result unit :=
  match r with
  | Ok (a, s) => ({| accumulated := a; state := s |}, Ok ())
  | Throw m => (st, Throw m)
  end.

Definition add (e : Member) (st : AccumulatorState) : AccumulatorState * Result unit :=
  commit st (s ← store_add (state st) e;
             a ← engine_add e (accumulated st); Ok (a, s)).

Definition remove (e : Member) (st : AccumulatorState) : AccumulatorState * Result unit :=
  commit st (s ← store_remove (state st) e;
             a ← engine_remove e (accumulated st); Ok (a, s)).

Definition addBatch (es : list Member) (st : AccumulatorState)
  : AccumulatorState * Result unit :=
  commit st (s ← foldM store_add es (state st);
             a ← engine_addBatch es (accumulated st); Ok (a, s)).

Definition removeBatch (es : list Member) (st : AccumulatorState)
  : AccumulatorState * Result unit :=
  commit st (s ← foldM store_remove es (state st);
             a ← engine_removeBatch es (accumulated st); Ok (a, s)).

(** The operations of a scenario, run in sequence on the shared state. *)
Inductive Operation :=
  | Add (e : Member)
  | Remove (e : Member)
  | AddBatch (es : list Member)
  | RemoveBatch (es : list Member).

Definition perform (op : Operation) (st : AccumulatorState) : AccumulatorState * Result unit :=
  match op with
  | Add e => add e st
  | Remove e => remove e st
  | AddBatch es => addBatch es st
  | RemoveBatch es => removeBatch es st
  end.

Fixpoint run (ops : list Operation) (st : AccumulatorState)
  : AccumulatorState * list (Result unit) :=
  match ops with
  | [] => (st, [])
  | op :: ops' =>
      let '(st', r) := perform op st in
      let '(st'', rs) := run ops' st' in
      (st'', r :: rs)
  end.

End Accumulator.

(** ** Vocabulary of the statements *)

(** The names an equality map asks for, each with its statement index and its
    own structure, in the order the loops visit them. *)
Definition requested_refs (equality : JsMap Z (list string * MessageStructure))
  : list (Z * string * MessageStructure) :=
  equality ≫= (λ '(sIdx, (names, struct)), (λ n, (sIdx, n, struct)) <$> names).

Definition resolves (ref : Z * nat) (req : Z * string * MessageStructure) : Prop :=
  ref.1 = req.1.1 ∧ structNames req.2 !! ref.2 = Some req.1.2.

(** A property name that is neither an array index nor ["__proto__"]: an
    assignment to a new such name appends it to the object. *)
Definition plain_name (k : string) : Prop := array_index k = None ∧ k ≠ "__proto__".

Global Instance plain_name_dec k : Decision (plain_name k).
Proof. unfold plain_name. apply _. Defined.

Definition reserved_names (F : FieldNames) : list string :=
  [CRYPTO_VERSION_STR F; SCHEMA_STR F; SUBJECT_STR F; STATUS_STR F; PROOF_STR F].

(** What the spec says [serializeForSigning] returns, written out: the
    version tag, the schema as a JSON string, the subject, the top-level
    fields in insertion order, the status when there is one, and the proof
    metadata (the top-level field of that name, or the default) without its
    [proofValue]. *)
Definition strip_proofValue (v : JsVal) : JsVal :=
  match v with
  | JObj isArray props => JObj isArray (obj_delete "proofValue" props)
  | _ => v
  end.

Definition default_proof (CRED_PROOF_TYPE : SignatureType → string) (t : SignatureType)
  : JsVal := JObj false [("type", JStr (CRED_PROOF_TYPE t))].

Definition proof_metadata (CRED_PROOF_TYPE : SignatureType → string) (t : SignatureType)
    (v : JsVal) : JsVal :=
  strip_proofValue (if falsy v then default_proof CRED_PROOF_TYPE t else v).

Definition expected_serialization {Signature} (F : FieldNames)
    (CRED_PROOF_TYPE : SignatureType → string) (c : Credential Signature) : Obj :=
  [(CRYPTO_VERSION_STR F, JStr (version c));
   (SCHEMA_STR F, JStr (toJsonString (schema c)));
   (SUBJECT_STR F, subject c)]
  ++ ((λ kv, if decide (kv.1 = PROOF_STR F)
             then (kv.1, proof_metadata CRED_PROOF_TYPE (sigType c) kv.2) else kv)
        <$> topLevelFields c)
  ++ (if is_undefined (credentialStatus c) then [] else [(STATUS_STR F, credentialStatus c)])
  ++ (if decide (PROOF_STR F ∈ (topLevelFields c).*1) then []
      else [(PROOF_STR F, default_proof CRED_PROOF_TYPE (sigType c))]).

(** *** Objects the round trip through [unflatten] and [flatten] preserves

    A leaf of [flatten]: anything but an object or array with properties. *)
Definition is_leaf (v : JsVal) : Prop :=
  match v with
  | JObj _ (_ :: _) => False
  | _ => True
  end.

(** The leaves of an object with their paths, in the order [flatten] visits
    them. *)
Fixpoint leaves_value (v : JsVal) : list (list string * JsVal) :=
  match v with
  | JObj _ ((_ :: _) as props) =>
      (fix leaves_props (ps : list (string * JsVal)) : list (list string * JsVal) :=
         match ps with
         | [] => []
         | (k, w) :: ps' => (prod_map (cons k) id <$> leaves_value w) ++ leaves_props ps'
         end) props
  | _ => [([], v)]
  end.

Fixpoint leaves (o : Obj) : list (list string * JsVal) :=
  match o with
  | [] => []
  | (k, w) :: o' => (prod_map (cons k) id <$> leaves_value w) ++ leaves o'
  end.

(** The key [flatten] gives to a path below [prev]. *)
Definition join_from (prev : string) (path : list string) : string :=
  foldl join_key prev path.

Fixpoint dot_free (s : string) : bool :=
  match s with
  | EmptyString => true
  | String c s' => if decide (c = "."%char) then false else dot_free s'
  end.

Fixpoint starts_with (p s : string) : bool :=
  match p, s with
  | EmptyString, _ => true
  | String a p', String b s' => bool_decide (a = b) && starts_with p' s'
  | _, _ => false
  end.

(** The names of the members of [Object.prototype] and [Array.prototype].
    The model reads own properties only, so the statements about [unflatten]
    leave these names out. *)
Definition prototype_member_names : list string :=
  ["__proto__"; "constructor"; "hasOwnProperty"; "isPrototypeOf";
   "propertyIsEnumerable"; "toLocaleString"; "toString"; "valueOf";
   "__defineGetter__"; "__defineSetter__"; "__lookupGetter__"; "__lookupSetter__";
   "length"; "at"; "concat"; "copyWithin"; "entries"; "every"; "fill"; "filter";
   "find"; "findIndex"; "findLast"; "findLastIndex"; "flat"; "flatMap"; "forEach";
   "includes"; "indexOf"; "join"; "keys"; "lastIndexOf"; "map"; "pop"; "push";
   "reduce"; "reduceRight"; "reverse"; "shift"; "slice"; "some"; "sort"; "splice";
   "toReversed"; "toSorted"; "toSpliced"; "unshift"; "values"; "with"].

Definition is_name_start (c : ascii) : bool :=
  let n := N_of_ascii c in
  bool_decide ((65 ≤ n ≤ 90)%N ∨ (97 ≤ n ≤ 122)%N ∨ n = 95%N ∨ n = 36%N).

(** A name that starts with a letter, [_] or [$] and does not start with
    ["Infinity"]: [Number] makes [NaN] of it. *)
Definition is_identifier_like (s : string) : bool :=
  match s with
  | EmptyString => false
  | String c _ => is_name_start c && negb (starts_with "Infinity" s)
  end.

(** The canonical decimal form of an integer below [2^53]: [Number] reads it
    exactly and prints it back as it was. *)
Definition is_canonical_integer (s : string) : bool :=
  match decimal_value s with
  | Some n => bool_decide (pretty n = s ∧ (n < 9007199254740992)%N)
  | None => false
  end.

(** A property name that [unflatten] puts back as it was: free of dots, not
    the name of a prototype member, and either identifier-like or a canonical
    integer. *)
Definition simple_segment (s : string) : bool :=
  dot_free s && bool_decide (s ∉ prototype_member_names)
  && (is_identifier_like s || is_canonical_integer s).

(** An object whose property names, at every level, are distinct and simple. *)
Fixpoint simple_value (v : JsVal) : bool :=
  match v with
  | JObj _ props =>
      bool_decide (NoDup props.*1)
      && (fix simple_props (ps : list (string * JsVal)) : bool :=
            match ps with
            | [] => true
            | (k, w) :: ps' => simple_segment k && simple_value w && simple_props ps'
            end) props
  | _ => true
  end.

Definition simple_object (o : Obj) : bool := simple_value (JObj false o).

Definition independent (p q : list string) : Prop :=
  ¬ p `prefix_of` q ∧ ¬ q `prefix_of` p.

(** A path [unflatten] puts back: not empty, of simple segments. *)
Definition simple_path (p : list string) : Prop :=
  p ≠ [] ∧ Forall (λ k, simple_segment k = true) p.

(** Paths none of which is a prefix of another. *)
Definition antichain (paths : list (list string)) : Prop :=
  ∀ p q, p ∈ paths → q ∈ paths → p = q ∨ independent p q.

(** What [flatten] does with the leaves below the key [prev]: it assigns
    each to the key of its path, in order. *)
Definition assign_leaves (prev : string) (l : list (list string * JsVal)) (out : Obj) : Obj :=
  foldl (λ out pw, js_assign (join_from prev pw.1) pw.2 out) out l.

(** The second pass of [unflatten], over entries whose paths are independent. *)
Definition insert_entry (result : Obj) (kv : string * JsVal) : Obj :=
  match split_dot kv.1 with
  | key1 :: rest => insert_path key1 rest kv.2 result
  | [] => result
  end.

(** The keys of an object that [unflatten] puts back: each is the key of a
    simple path, and the paths are pairwise independent. *)
Definition restorable (target : Obj) : Prop :=
  NoDup (Object_keys target)
  ∧ Forall (λ kv, is_leaf kv.2 ∧ simple_path (split_dot kv.1)
                  ∧ join_from "" (split_dot kv.1) = kv.1) target
  ∧ antichain (split_dot <$> Object_keys target).

(** ** Sample data

    An encoder in the manner the spec describes: a string is encoded as its
    bytes, a number within range (here: not negative) as the bytes of its
    decimal form, bytes as they are; anything else is refused. *)

Definition sample_encodeMessage (name : string) (value : JsVal) : Result bytes :=
  match value with
  | JStr s => Ok (String.list_byte_of_string s)
  | JNum n =>
      if decide (0 ≤ n) then Ok (String.list_byte_of_string (pretty n))
      else Throw ("EncodingRangeError: " +:+ name)
  | JBytes b => Ok b
  | _ => Throw ("SchemaMismatch: " +:+ name)
  end.

(** The attributes of the proof-of-knowledge test, in the order the test
    lists them. *)
Definition attributes : Obj :=
  [("ssn", JStr "123-456789-0"); ("fname", JStr "John"); ("lname", JStr "Smith");
   ("email", JStr "john.smith@emample.com"); ("city", JStr "New York")].

Definition attributesStruct : MessageStructure :=
  [("ssn", JNull); ("fname", JNull); ("lname", JNull); ("email", JNull); ("city", JNull)].

Definition attributes_names : list string := ["city"; "email"; "fname"; "lname"; "ssn"].

Definition attributes_values : list bytes :=
  String.list_byte_of_string
    <$> ["New York"; "john.smith@emample.com"; "John"; "Smith"; "123-456789-0"].

Definition sample_commitment (elements : list bytes) : bytes := concat elements.

(** The selection loop of the proof-of-knowledge test: [messages] is the
    array in the order the attributes were pushed, and the indices to reveal
    are given as such. *)
Fixpoint reveal_by_index (revealedMsgIndices : list nat) (i : nat) (messages : list bytes)
    (st : JsMap nat bytes * JsMap nat bytes) : JsMap nat bytes * JsMap nat bytes :=
  match messages with
  | [] => st
  | m :: messages' =>
      let '(revealedMsgs, unrevealedMsgs) := st in
      reveal_by_index revealedMsgIndices (S i) messages'
        (if bool_decide (i ∈ revealedMsgIndices)
         then (map_set i m revealedMsgs, unrevealedMsgs)
         else (revealedMsgs, map_set i m unrevealedMsgs))
  end.

(** The field names and proof types the upstream project uses. *)
Definition upstream_names : FieldNames :=
  {| CRYPTO_VERSION_STR := "cryptoVersion"; SCHEMA_STR := "credentialSchema";
     SUBJECT_STR := "credentialSubject"; STATUS_STR := "credentialStatus";
     PROOF_STR := "proof" |}.

Definition upstream_proof_type (t : SignatureType) : string :=
  match t with
  | Bbs => "Bls12381BBSSignatureDock2023"
  | BbsPlus => "Bls12381BBS+SignatureDock2022"
  | Ps => "Bls12381PSSignatureDock2023"
  | Bddt16 => "Bls12381BDDT16MACDock2024"
  end.

Definition sample_schema : CredentialSchema :=
  {| toJsonString := "{}"; toJSON_stringified := "{}";
     schema_flatten_names :=
       ["credentialSchema"; "credentialSubject.fname"; "cryptoVersion"; "issuer"];
     encoder := sample_encodeMessage |}.

Definition sample_credential (fields : JsMap string JsVal) (status : JsVal)
  : Credential bytes :=
  {| sigType := Bbs; version := "0.0.1"; schema := sample_schema;
     subject := JObj false [("fname", JStr "John")];
     topLevelFields := fields; signature := []; credentialStatus := status |}.

Definition sample_builder (fields : JsMap string JsVal) : @CredentialBuilder bytes :=
  {| _version := "0.0.1"; _schema := Some sample_schema;
     _subject := JObj false [("fname", JStr "John")]; _credStatus := JUndefined;
     _encodedAttributes := None; _topLevelFields := fields; _sig := None |}.

(** A stand-in for the signing primitive: it encodes nothing and returns the
    key as the signature. *)
Definition sample_signMessageObject (cred : Obj) (secretKey : bytes)
    (params : bytes + bytes) (enc : string → JsVal → Result bytes)
  : Result (@SignedMessages bytes) :=
  Ok {| encodedMessages := []; signed_signature := secretKey |}.

Definition set_value (k : string) (w : JsVal) (kv : string * JsVal) : string * JsVal :=
  if decide (kv.1 = k) then (k, w) else kv.

(** Attributes in the manner of the second object of the blind signature
    test, with nested objects, and the names revealed from it. *)
Definition nested_attributes : Obj :=
  [("fname", JStr "John"); ("lname", JStr "Smith");
   ("sensitive", JObj false [("email", JStr "john.smith@example.com");
                             ("SSN", JStr "123-456789-0");
                             ("user-id", JStr "user:123-xyz-#")]);
   ("location", JObj false [("country", JStr "USA"); ("city", JStr "New York")]);
   ("timeOfBirth", JNum 1662010849619)].

Definition nested_attributesStruct : MessageStructure :=
  [("fname", JNull); ("lname", JNull);
   ("sensitive", JObj false [("email", JNull); ("SSN", JNull); ("user-id", JNull)]);
   ("location", JObj false [("country", JNull); ("city", JNull)]);
   ("timeOfBirth", JNull)].

Definition nested_revealed_names : list string :=
  ["sensitive.email"; "location.city"; "fname"].

(** An object with a property whose name contains the delimiter and starts
    with the name of another property. *)
Definition dotted_attributes : Obj :=
  [("address", JStr "Main Street 1"); ("address.city", JStr "Paris")].

Definition dotted_attributesStruct : MessageStructure :=
  [("address", JNull); ("address.city", JNull)].

(** ** [sign-verify-js-objs.ts]: adapting signature parameters *)

Section SignatureParams.
(** [IParams.adapt], a method of the parameters' class. *)
Context {Params : Type}.
Variable adapt : Params → nat → Params.

Definition getAdaptedSignatureParamsForMessages (params : Params)
    (msgStructure : MessageStructure) : Params :=
  let flattened := flattenMessageStructure msgStructure in
  adapt params (length (Object_keys flattened)).

End SignatureParams.

(** ** Statements for blind signature requests *)

(** A [PSBlindSignatureRequest] and the [PSSignatureParams], as far as
    [getPSStatementsForBlindSigRequest] reads them: [request.commitments],
    [request.commitment], [sigParams.value.g] and
    [sigParams.getParamsForIndices], which may fail. *)
Record PSBlindSignatureRequest := {
  commitments : JsMap Z bytes;
  commitment : bytes
}.

Record PSSignatureParams := {
  value_g : bytes;
  getParamsForIndices : list Z → Result (list bytes)
}.

Section BlindSigStatement.

(** [Statement.pedersenCommitmentG1] of the proof engine. *)
Variable pedersenCommitmentG1 : list bytes → bytes → bytes.

Definition getPSStatementsForBlindSigRequest (request : PSBlindSignatureRequest)
    (sigParams : PSSignatureParams) (h : bytes) : Result (list bytes) :=
  let sortedCommitments := sort_entries (commitments request) in
  hArr ← getParamsForIndices sigParams (sortedCommitments.*1);
  Ok (pedersenCommitmentG1 (value_g sigParams :: hArr) (commitment request)
      :: ((λ '(_, commitment), pedersenCommitmentG1 [value_g sigParams; h] commitment)
            <$> sortedCommitments)).

End BlindSigStatement.

(** ** The blind signature test: collecting the hidden messages

    [[
    hiddenAttrNames.forEach((n) => {
      const i = names.indexOf(n);
      if (i !== -1) {
        hiddenMsgs.set(i, encodedValues[i]);
        found++;
      }
    });
    ]]
    A read past the end of [encodedValues] is [undefined], here [None]. *)
Definition hidden_loop (names : list string) (encodedValues : list bytes)
    (hiddenAttrNames : list string) : JsMap nat (option bytes) * nat :=
  foldl (λ '(hiddenMsgs, found) n,
           match indexOf n names with
           | Some i => (map_set i (encodedValues !! i) hiddenMsgs, S found)
           | None => (hiddenMsgs, found)
           end) ([], 0%nat) hiddenAttrNames.

Definition missing_names_found (missing : Z) : string :=
  "Some of the hidden message names were not found in the given messages object, "
  +:+ pretty missing +:+ " missing names".

Definition collect_hidden (encodeMessage : string → JsVal → Result bytes)
    (attributes : Obj) (hiddenAttrNames : list string) : Result (JsMap nat (option bytes)) :=
  '(names, encodedValues) ← encodeMessageObject encodeMessage attributes;
  let '(hiddenMsgs, found) := hidden_loop names encodedValues hiddenAttrNames in
  if decide (length hiddenAttrNames ≠ found) then
    Throw (missing_names_found (Z.of_nat (length hiddenAttrNames) - Z.of_nat found))
  else Ok hiddenMsgs.

(** ** [CredentialBuilder]: top-level fields and the credential status *)

(** More names of [types-and-consts.ts]. *)
Record StatusNames := {
  MEM_CHECK_STR : string;
  NON_MEM_CHECK_STR : string;
  TYPE_STR : string;
  STATUS_TYPE_STR : string;
  ID_STR : string;
  REV_CHECK_STR : string;
  REV_ID_STR : string
}.

Section CredentialBuilderFields.
Context {Signature : Type}.
Variable N : StatusNames.

(** [new CredentialBuilder()]: the version is [CredentialBuilder.VERSION],
    the map of top-level fields is empty, nothing else is set. *)
Definition new_CredentialBuilder : @CredentialBuilder Signature :=
  {| _version := "0.0.1"; _schema := None; _subject := JUndefined;
     _credStatus := JUndefined; _encodedAttributes := None;
     _topLevelFields := []; _sig := None |}.

Definition setTopLevelField (name : string) (value : JsVal)
    (b : @CredentialBuilder Signature) : @CredentialBuilder Signature :=
  {| _version := _version b; _schema := _schema b; _subject := _subject b;
     _credStatus := _credStatus b; _encodedAttributes := _encodedAttributes b;
     _topLevelFields := map_set name value (_topLevelFields b); _sig := _sig b |}.

Definition field_absent (name : string) : string :=
  "Top level field " +:+ name +:+ " is absent".

Definition getTopLevelField (name : string) (b : @CredentialBuilder Signature)
  : Result JsVal :=
  let v := default JUndefined (map_get name (_topLevelFields b)) in
  if is_undefined v then Throw (field_absent name) else Ok v.

Definition bad_revocation_check (revCheck : string) : string :=
  "Revocation check should be either " +:+ MEM_CHECK_STR N +:+ " or "
  +:+ NON_MEM_CHECK_STR N +:+ " but was " +:+ revCheck.

Definition setCredentialStatus (registryId revCheck : string) (memberValue : JsVal)
    (b : @CredentialBuilder Signature) : @CredentialBuilder Signature * Result unit :=
  if bool_decide (revCheck ≠ MEM_CHECK_STR N) && bool_decide (revCheck ≠ NON_MEM_CHECK_STR N)
  then (b, Throw (bad_revocation_check revCheck))
  else
    ({| _version := _version b; _schema := _schema b; _subject := _subject b;
        _credStatus :=
          JObj false
            (obj_set (REV_ID_STR N) memberValue
               (obj_set (REV_CHECK_STR N) (JStr revCheck)
                  (obj_set (ID_STR N) (JStr registryId)
                     (obj_set (TYPE_STR N) (JStr (STATUS_TYPE_STR N)) []))));
        _encodedAttributes := _encodedAttributes b;
        _topLevelFields := _topLevelFields b; _sig := _sig b |}, Ok ()).

End CredentialBuilderFields.

(** ** [CompositeProof.getKeyedProofs] *)

Inductive KeyedProof :=
  | BDDT16KeyedProof (value : bytes)
  | VBAccumMembershipKeyedProof (value : bytes)
  | KBUniAccumMembershipKeyedProof (value : bytes)
  | KBUniAccumNonMembershipKeyedProof (value : bytes).

Definition unknown_keyed_proof (t i : Z) : string :=
  "Unknown type " +:+ pretty t +:+ " of keyed proof for credential index " +:+ pretty i.

(** The class chosen for the type tag [t] of the entry at index [i]. *)
Definition keyed_proof_class (t i : Z) : Result (bytes → KeyedProof) :=
  if decide (t = 0) then Ok BDDT16KeyedProof
  else if decide (t = 1) then Ok VBAccumMembershipKeyedProof
  else if decide (t = 2) then Ok KBUniAccumMembershipKeyedProof
  else if decide (t = 3) then Ok KBUniAccumNonMembershipKeyedProof
  else Throw (unknown_keyed_proof t i).

(** [delgProofs] is what [getAllKeyedSubproofsFromProof] returned: a map from
    the statement index to a type tag and a value. *)
Definition getKeyedProofs (delgProofs : JsMap Z (Z * bytes)) : Result (JsMap Z KeyedProof) :=
  foldM (λ r '(i, (t, v)), cls ← keyed_proof_class t i; Ok (map_set i (cls v) r))
        delgProofs [].

(** The keyed proof that a tag between 0 and 3 stands for. *)
Definition tagged_proof (t : Z) (v : bytes) : KeyedProof :=
  match t with
  | 0 => BDDT16KeyedProof v
  | 1 => VBAccumMembershipKeyedProof v
  | 2 => KBUniAccumMembershipKeyedProof v
  | _ => KBUniAccumNonMembershipKeyedProof v
  end.

(** ** More sample data *)

Definition sample_commitmentG1 (bases : list bytes) (commitment : bytes) : bytes :=
  concat bases ++ commitment.

Definition sample_sigParams : PSSignatureParams :=
  {| value_g := [x01]; getParamsForIndices := λ indices, Ok ((λ _, [x02]) <$> indices) |}.

Definition sample_request : PSBlindSignatureRequest :=
  {| commitments := [(7, [xc7]); (3, [xc3])]; commitment := [xcc] |}.

Definition sample_messages : JsMap Z bytes := [(3, [x03]); (7, [x07])].

Definition sample_blindings : JsMap Z bytes := [(7, [xa7]); (3, [xa3])].

Definition upstream_status_names : StatusNames :=
  {| MEM_CHECK_STR := "membership"; NON_MEM_CHECK_STR := "non-membership";
     TYPE_STR := "type"; STATUS_TYPE_STR := "DockVBAccumulator2022"; ID_STR := "id";
     REV_CHECK_STR := "revocationCheck"; REV_ID_STR := "revocationId" |}.

(** * Properties *)

(** A closed decidable goal, settled by evaluation. *)
Ltac decide_goal :=
  lazymatch goal with
  | |- ?P => let H := constr:(bool_decide_unpack P) in apply H; vm_compute; exact I
  end.

(** ** Results *)

Lemma traverse_Ok {A B} (f : A → Result B) l k :
  traverse f l = Ok k ↔ Forall2 (λ x y, f x = Ok y) l k.
Proof.
  revert k. induction l as [|x l IH]; intros k; csimpl.
  - split; [intros [= <-]; constructor | by inversion 1].
  - destruct (f x) as [y|m] eqn:Hx; csimpl.
    + destruct (traverse f l) as [ys|m] eqn:Hl; csimpl.
      * split.
        -- intros [= <-]. constructor; [done | by apply IH].
        -- inversion 1 as [|? y' ? ys' Hy Hys]; subst.
           apply IH in Hys. congruence.
      * split; [done|]. inversion 1 as [|? y' ? ys' Hy Hys]; subst.
        by apply IH in Hys.
    + split; [done|]. inversion 1; congruence.
Qed.

Lemma traverse_Throw {A B} (f : A → Result B) l :
  isThrow (traverse f l) ↔ Exists (λ x, isThrow (f x)) l.
Proof.
  induction l as [|x l IH]; csimpl.
  - split; [done | by inversion 1].
  - rewrite Exists_cons. destruct (f x) as [y|m]; csimpl.
    + destruct (traverse f l) as [ys|m]; csimpl in *; tauto.
    + tauto.
Qed.

Lemma traverse_length {A B} (f : A → Result B) l k :
  traverse f l = Ok k → length k = length l.
Proof. intros Hk%traverse_Ok. symmetry. by eapply Forall2_length. Qed.

(** ** Objects: own properties and their order *)

Lemma JsVal_nested_ind (P : JsVal → Prop) :
  P JUndefined → P JNull → (∀ b, P (JBool b)) → (∀ n, P (JNum n)) →
  (∀ s, P (JStr s)) → (∀ b, P (JBytes b)) →
  (∀ isArray props, Forall (λ kv, P kv.2) props → P (JObj isArray props)) →
  ∀ v, P v.
Proof.
  intros Hu Hn Hb Hz Hs Hy Ho.
  fix IH 1. intros [| |b|n|s|b|isArray props].
  - exact Hu.
  - exact Hn.
  - apply Hb.
  - apply Hz.
  - apply Hs.
  - apply Hy.
  - apply Ho. induction props as [|[k v] props IHprops].
    + constructor.
    + constructor; [apply IH | exact IHprops].
Qed.

Lemma obj_get_Some_elem k v (o : Obj) : obj_get k o = Some v → (k, v) ∈ o.
Proof.
  induction o as [|[k' v'] o IH]; csimpl; [done|].
  case_decide; [intros [= <-]; subst; left | right; auto].
Qed.

Lemma obj_get_None k (o : Obj) : obj_get k o = None ↔ k ∉ Object_keys o.
Proof.
  unfold Object_keys. induction o as [|[k' v'] o IH]; csimpl.
  - split; [intros _; apply not_elem_of_nil | done].
  - rewrite not_elem_of_cons. case_decide; naive_solver.
Qed.

Lemma obj_get_NoDup k v (o : Obj) :
  NoDup (Object_keys o) → (k, v) ∈ o → obj_get k o = Some v.
Proof.
  unfold Object_keys. induction o as [|[k' v'] o IH]; csimpl; [by inversion 2|].
  intros [Hk' Hnd]%NoDup_cons [[= -> ->]|Hin]%elem_of_cons.
  - by rewrite decide_True.
  - rewrite decide_False; [auto|]. intros ->. apply Hk'.
    apply list_elem_of_fmap. by exists (k, v).
Qed.

Lemma obj_replace_None k v (o : Obj) : obj_replace k v o = None ↔ k ∉ Object_keys o.
Proof.
  unfold Object_keys. induction o as [|[k' v'] o IH]; csimpl.
  - split; [intros _; apply not_elem_of_nil | done].
  - rewrite not_elem_of_cons. case_decide; [naive_solver|].
    rewrite fmap_None. naive_solver.
Qed.

Lemma obj_replace_Some k v (o o' : Obj) :
  obj_replace k v o = Some o' →
  Object_keys o' = Object_keys o ∧ k ∈ Object_keys o ∧
  obj_get k o' = Some v ∧ ∀ k', k' ≠ k → obj_get k' o' = obj_get k' o.
Proof.
  unfold Object_keys. revert o'. induction o as [|[k1 v1] o IH]; intros o'; csimpl; [done|].
  case_decide as Hk.
  - intros [= <-]. subst. csimpl. rewrite decide_True by done.
    split_and!; [done | left | done |]. intros k' Hk'. by rewrite !decide_False.
  - intros (o1 & Ho1 & ->)%fmap_Some. destruct (IH _ Ho1) as (Hkeys & Hin & Hget & Hother).
    csimpl. rewrite Hkeys, decide_False by done.
    split_and!; [done | by right | done |].
    intros k' Hk'. case_decide; auto.
Qed.

Lemma insert_index_Permutation n k v (o : Obj) : insert_index n k v o ≡ₚ (k, v) :: o.
Proof.
  induction o as [|[k' v'] o IH]; csimpl; [done|].
  destruct (array_index k'); [|done]. case_decide; [|done].
  rewrite IH. apply Permutation_swap.
Qed.

Lemma obj_set_keys_present k v (o : Obj) :
  k ∈ Object_keys o → Object_keys (obj_set k v o) = Object_keys o.
Proof.
  intros Hin. unfold obj_set. destruct (obj_replace k v o) as [o'|] eqn:Hr.
  - by apply obj_replace_Some in Hr as [? _].
  - by apply obj_replace_None in Hr.
Qed.

Lemma obj_set_keys_fresh k v (o : Obj) :
  k ∉ Object_keys o → obj_set k v o ≡ₚ (k, v) :: o.
Proof.
  intros Hin. apply (obj_replace_None k v) in Hin. unfold obj_set. rewrite Hin.
  destruct (array_index k).
  - apply insert_index_Permutation.
  - symmetry. apply Permutation_cons_append.
Qed.

Lemma obj_set_NoDup k v (o : Obj) :
  NoDup (Object_keys o) → NoDup (Object_keys (obj_set k v o)).
Proof.
  intros Hnd. destruct (decide (k ∈ Object_keys o)) as [Hin|Hin].
  - by rewrite obj_set_keys_present.
  - unfold Object_keys. rewrite (obj_set_keys_fresh k v o Hin). csimpl.
    by apply NoDup_cons.
Qed.

Lemma obj_set_elem_of_keys k v k' (o : Obj) :
  k' ∈ Object_keys (obj_set k v o) ↔ k' = k ∨ k' ∈ Object_keys o.
Proof.
  destruct (decide (k ∈ Object_keys o)) as [Hin|Hin].
  - rewrite obj_set_keys_present by done. naive_solver.
  - unfold Object_keys. rewrite (obj_set_keys_fresh k v o Hin). csimpl.
    by rewrite elem_of_cons.
Qed.

Lemma obj_get_set k v (o : Obj) : obj_get k (obj_set k v o) = Some v.
Proof.
  unfold obj_set. destruct (obj_replace k v o) as [o'|] eqn:Hr.
  - by apply obj_replace_Some in Hr as (_ & _ & ? & _).
  - apply obj_replace_None in Hr.
    assert (∀ o', o' ≡ₚ (k, v) :: o → obj_get k o' = Some v) as Hperm.
    { intros o' Ho'. destruct (obj_get k o') as [v'|] eqn:Hg.
      - apply obj_get_Some_elem in Hg. rewrite Ho' in Hg.
        apply elem_of_cons in Hg as [[= ->]|Hg]; [done|].
        exfalso. apply Hr. apply list_elem_of_fmap. by exists (k, v').
      - apply obj_get_None in Hg. exfalso. apply Hg. unfold Object_keys.
        rewrite Ho'. csimpl. left. }
    destruct (array_index k).
    + apply Hperm, insert_index_Permutation.
    + apply Hperm. symmetry. apply Permutation_cons_append.
Qed.

Lemma obj_get_Permutation_cons k k' v (o o' : Obj) :
  k' ≠ k → o' ≡ₚ (k, v) :: o → k ∉ Object_keys o →
  NoDup (Object_keys o) → obj_get k' o' = obj_get k' o.
Proof.
  intros Hne Hperm Hfresh Hnd.
  assert (NoDup (Object_keys o')) as Hnd'.
  { unfold Object_keys. rewrite Hperm. csimpl. by apply NoDup_cons. }
  destruct (obj_get k' o) as [w|] eqn:Hg.
  - apply obj_get_NoDup; [done|]. rewrite Hperm. right. by apply obj_get_Some_elem.
  - apply obj_get_None. apply obj_get_None in Hg. unfold Object_keys in *.
    rewrite Hperm. csimpl. rewrite not_elem_of_cons. done.
Qed.

Lemma obj_get_set_ne k k' v (o : Obj) :
  NoDup (Object_keys o) → k' ≠ k → obj_get k' (obj_set k v o) = obj_get k' o.
Proof.
  intros Hnd Hne. unfold obj_set. destruct (obj_replace k v o) as [o'|] eqn:Hr.
  - apply obj_replace_Some in Hr as (_ & _ & _ & Hother). by apply Hother.
  - apply obj_replace_None in Hr. destruct (array_index k).
    + eapply obj_get_Permutation_cons; eauto using insert_index_Permutation.
    + eapply obj_get_Permutation_cons; eauto. symmetry. apply Permutation_cons_append.
Qed.

Lemma js_assign_NoDup k v (o : Obj) :
  NoDup (Object_keys o) → NoDup (Object_keys (js_assign k v o)).
Proof. unfold js_assign. case_decide; [done | apply obj_set_NoDup]. Qed.

(** ** [flatten] *)

Lemma step_props_step newKey (ps : Obj) output :
  (fix step_props (ps : Obj) (out : Obj) {struct ps} : Obj :=
     match ps with
     | [] => out
     | (key, v) :: ps' => step_props ps' (step_value (join_key newKey key) v out)
     end) ps output = step ps newKey output.
Proof.
  revert output. induction ps as [|[k v] ps IH]; intros output; [done|]. apply IH.
Qed.

Lemma step_value_object newKey isArray kv props output :
  step_value newKey (JObj isArray (kv :: props)) output = step (kv :: props) newKey output.
Proof. exact (step_props_step newKey (kv :: props) output). Qed.

Lemma step_value_leaf newKey value output :
  (∀ isArray kv props, value ≠ JObj isArray (kv :: props)) →
  step_value newKey value output = js_assign newKey value output.
Proof. destruct value as [| | | | | |isArray [|kv props]]; try done. naive_solver. Qed.

Lemma step_value_NoDup value : ∀ newKey output,
  NoDup (Object_keys output) → NoDup (Object_keys (step_value newKey value output)).
Proof.
  induction value as [| | | | | |isArray props IH] using JsVal_nested_ind;
    intros newKey output Hnd; try by apply js_assign_NoDup.
  destruct props as [|kv props]; [by apply js_assign_NoDup|].
  rewrite step_value_object. revert IH output Hnd. generalize (kv :: props).
  clear kv props. intros ps IH. induction IH as [|[k v] ps Hv _ IHps]; intros output Hnd.
  - done.
  - csimpl. apply IHps. by apply Hv.
Qed.

Lemma step_NoDup object prev output :
  NoDup (Object_keys output) → NoDup (Object_keys (step object prev output)).
Proof.
  revert output. induction object as [|[k v] object IH]; intros output Hnd; csimpl; [done|].
  apply IH. by apply step_value_NoDup.
Qed.

Lemma flatten_NoDup target : NoDup (Object_keys (flatten target)).
Proof. apply step_NoDup. constructor. Qed.

(** ** Sorted names *)

Lemma sort_names_Permutation names : sort_names names ≡ₚ names.
Proof. apply merge_sort_Permutation. Qed.

Lemma sort_names_Sorted names : Sorted String.le (sort_names names).
Proof. apply (Sorted_merge_sort String.le). Qed.

Lemma sort_names_elem_of n names : n ∈ sort_names names ↔ n ∈ names.
Proof. by rewrite sort_names_Permutation. Qed.

Lemma sort_names_NoDup names : NoDup names → NoDup (sort_names names).
Proof. by rewrite sort_names_Permutation. Qed.

Lemma sort_names_unique names sorted :
  Sorted String.le sorted → sorted ≡ₚ names → sort_names names = sorted.
Proof.
  intros Hs Hp. apply (Sorted_unique String.le); [apply sort_names_Sorted | done |].
  by rewrite sort_names_Permutation.
Qed.

Lemma structNames_NoDup msgStructure : NoDup (structNames msgStructure).
Proof. apply sort_names_NoDup, flatten_NoDup. Qed.

Lemma indexOf_Some x l i : indexOf x l = Some i → l !! i = Some x.
Proof.
  revert i. induction l as [|y l IH]; intros i; csimpl; [done|].
  case_decide; [by intros [= <-]; subst|].
  intros (j & Hj & ->)%fmap_Some. csimpl. auto.
Qed.

Lemma indexOf_None x l : indexOf x l = None ↔ x ∉ l.
Proof.
  induction l as [|y l IH]; csimpl.
  - split; [intros _; apply not_elem_of_nil | done].
  - rewrite not_elem_of_cons. case_decide; [naive_solver|].
    rewrite fmap_None. naive_solver.
Qed.

Lemma indexOf_lookup_NoDup x l i : NoDup l → l !! i = Some x → indexOf x l = Some i.
Proof.
  intros Hnd Hi. destruct (indexOf x l) as [j|] eqn:Hj.
  - apply indexOf_Some in Hj. f_equal. by eapply NoDup_lookup.
  - apply indexOf_None in Hj. exfalso. apply Hj. by eapply list_elem_of_lookup_2.
Qed.

(** ** [isValidMsgStructure] *)

Lemma names_loop_spec namesInStruct namesInMsgs i remaining :
  names_loop namesInStruct namesInMsgs i remaining = true ↔
  ∀ j, (i ≤ j < i + remaining)%nat → namesInStruct !! j = namesInMsgs !! j.
Proof.
  revert i. induction remaining as [|r IH]; intros i; csimpl.
  - split; [intros _ j ?; lia | done].
  - case_decide as Hi.
    + rewrite IH. split.
      * intros Hr j Hj. destruct (decide (j = i)) as [->|]; [done|]. apply Hr. lia.
      * intros Hr j Hj. apply Hr. lia.
    + split; [done|]. intros Hr. exfalso. apply Hi, Hr. lia.
Qed.

Lemma names_loop_equal_lengths namesInStruct namesInMsgs :
  length namesInMsgs = length namesInStruct →
  names_loop namesInStruct namesInMsgs 0 (S (length namesInMsgs)) = true
  ↔ namesInMsgs = namesInStruct.
Proof.
  intros Hlen. rewrite names_loop_spec. split.
  - intros Hall. apply list_eq. intros j.
    destruct (decide (j < S (length namesInMsgs))%nat); [symmetry; apply Hall; lia|].
    rewrite !lookup_ge_None_2; [done|lia..].
  - by intros -> j _.
Qed.

Lemma isValidMsgStructure_names messages msgStructure :
  isValidMsgStructure messages msgStructure = true →
  sort_names (Object_keys (flatten messages))
  = sort_names (Object_keys (flattenMessageStructure msgStructure)).
Proof.
  unfold isValidMsgStructure. rewrite andb_true_iff, bool_decide_eq_true.
  intros [Hlen Hloop]. by apply names_loop_equal_lengths.
Qed.

(** C10: [isValidMsgStructure] is a total function (it returns on every
    input) and answers [true] exactly when the sorted flattened names of the
    messages are the same list as the sorted flattened names of the structure.
    When the lengths agree, the last iteration of the loop, at the index equal
    to the length, reads past the end of both arrays ([undefined] twice), and
    running the loop with or without that iteration gives the same answer. *)
Theorem isValidMsgStructure_correct (messages : Obj) (msgStructure : MessageStructure) :
  let namesInStruct := sort_names (Object_keys (flattenMessageStructure msgStructure)) in
  let namesInMsgs := sort_names (Object_keys (flatten messages)) in
  (isValidMsgStructure messages msgStructure = true ↔ namesInMsgs = namesInStruct)
  ∧ (length namesInMsgs = length namesInStruct →
     namesInStruct !! length namesInMsgs = None
     ∧ namesInMsgs !! length namesInMsgs = None
     ∧ names_loop namesInStruct namesInMsgs 0 (S (length namesInMsgs))
       = names_loop namesInStruct namesInMsgs 0 (length namesInMsgs)).
Proof.
  intros namesInStruct namesInMsgs. split.
  - unfold isValidMsgStructure. fold namesInStruct namesInMsgs.
    rewrite andb_true_iff, bool_decide_eq_true. split.
    + intros [Hlen Hloop]. by apply names_loop_equal_lengths.
    + intros Heq. assert (length namesInMsgs = length namesInStruct) as Hlen by by rewrite Heq.
      split; [done|]. by apply names_loop_equal_lengths.
  - intros Hlen. split_and!.
    + apply lookup_ge_None_2. lia.
    + by apply lookup_ge_None_2.
    + apply eq_true_iff_eq. rewrite !names_loop_spec. split.
      * intros Hall j Hj. apply Hall. lia.
      * intros Hall j Hj. destruct (decide (j = length namesInMsgs)) as [->|].
        -- rewrite !lookup_ge_None_2; [done|lia..].
        -- apply Hall. lia.
Qed.

(** ** [getIndicesForMsgNames] and [createWitnessEqualityMetaStatement] *)

Lemma getIndicesForMsgNames_Ok msgNames msgStructure indices :
  getIndicesForMsgNames msgNames msgStructure = Ok indices ↔
  Forall2 (λ n i, structNames msgStructure !! i = Some n) msgNames indices.
Proof.
  unfold getIndicesForMsgNames. fold (structNames msgStructure).
  rewrite traverse_Ok.
  assert (∀ n i, match indexOf n (structNames msgStructure) with
                 | Some i0 => Ok i0
                 | None => Throw (name_not_found n)
                 end = Ok i ↔ structNames msgStructure !! i = Some n) as Hpoint.
  { intros n i. destruct (indexOf n (structNames msgStructure)) as [j|] eqn:Hj.
    - split.
      + intros [= <-]. by apply indexOf_Some.
      + intros Hi. f_equal. apply indexOf_Some in Hj.
        eapply NoDup_lookup; eauto using structNames_NoDup.
    - split; [done|]. intros Hi. apply indexOf_None in Hj.
      exfalso. apply Hj. by eapply list_elem_of_lookup_2. }
  split; intros Hall; (eapply Forall2_impl; [exact Hall|]); intros n i; apply Hpoint.
Qed.

Lemma getIndicesForMsgNames_Throw msgNames msgStructure :
  isThrow (getIndicesForMsgNames msgNames msgStructure) ↔
  ∃ n, n ∈ msgNames ∧ n ∉ Object_keys (flatten msgStructure).
Proof.
  unfold getIndicesForMsgNames. rewrite traverse_Throw, Exists_exists.
  apply exist_proper. intros n. apply and_iff_compat_l.
  fold (structNames msgStructure).
  rewrite <-(sort_names_elem_of n (Object_keys (flatten msgStructure))).
  fold (flattenMessageStructure msgStructure). fold (structNames msgStructure).
  rewrite <-indexOf_None. by destruct (indexOf n (structNames msgStructure)).
Qed.

Lemma addWitnessRefs_refs sIdx indices ms :
  witnessRefs (foldl (λ ms i, addWitnessRef sIdx i ms) ms indices)
  = witnessRefs ms ++ ((λ i, (sIdx, i)) <$> indices).
Proof.
  revert ms. induction indices as [|i indices IH]; intros ms; csimpl.
  - by rewrite app_nil_r.
  - rewrite IH. csimpl. by rewrite <-app_assoc.
Qed.

Lemma createWitnessEquality_fold equality ms0 :
  match foldM (λ ms '(sIdx, (names, struct)),
                 indices ← getIndicesForMsgNames names struct;
                 Ok (foldl (λ ms i, addWitnessRef sIdx i ms) ms indices))
              equality ms0 with
  | Ok ms => ∃ refs, witnessRefs ms = witnessRefs ms0 ++ refs
                     ∧ Forall2 resolves refs (requested_refs equality)
  | Throw _ => ∃ n struct, (∃ sIdx names, (sIdx, (names, struct)) ∈ equality ∧ n ∈ names)
                           ∧ n ∉ Object_keys (flatten struct)
  end.
Proof.
  revert ms0. induction equality as [|[sIdx [names struct]] equality IH]; intros ms0; csimpl.
  - exists []. by rewrite app_nil_r.
  - destruct (getIndicesForMsgNames names struct) as [indices|m] eqn:Hidx; csimpl.
    + specialize (IH (foldl (λ ms i, addWitnessRef sIdx i ms) ms0 indices)).
      destruct (foldM _ equality _) as [ms|m].
      * destruct IH as (refs & Hrefs & Hres).
        exists (((λ i, (sIdx, i)) <$> indices) ++ refs). split.
        -- by rewrite Hrefs, addWitnessRefs_refs, <-app_assoc.
        -- apply Forall2_app; [|done]. apply getIndicesForMsgNames_Ok in Hidx.
           apply Forall2_fmap. eapply Forall2_flip, Forall2_impl; [exact Hidx|].
           by intros n i Hi.
      * destruct IH as (n & struct' & (s & ns & Hin & Hn) & Hmissing).
        exists n, struct'. split; [|done]. exists s, ns. split; [by right | done].
    + assert (isThrow (getIndicesForMsgNames names struct)) as Hthrow by by rewrite Hidx.
      apply getIndicesForMsgNames_Throw in Hthrow as (n & Hn & Hmissing).
      exists n, struct. split; [|done]. exists sIdx, names. split; [by left | done].
Qed.

(** C7: when every requested name is a flattened leaf of its own structure,
    [createWitnessEqualityMetaStatement] returns a meta-statement whose
    witness references are, in the order of the entries and of the names
    given, the pairs (statement index, position of the name in the sorted
    flattened names of that entry's structure); it throws exactly when some
    requested name is not a flattened leaf of its structure. *)
Theorem createWitnessEqualityMetaStatement_correct
    (equality : JsMap Z (list string * MessageStructure)) :
  let missing := ∃ sIdx names struct n,
    (sIdx, (names, struct)) ∈ equality ∧ n ∈ names
    ∧ n ∉ Object_keys (flattenMessageStructure struct) in
  (isThrow (createWitnessEqualityMetaStatement equality) ↔ missing)
  ∧ (¬ missing → ∃ ms, createWitnessEqualityMetaStatement equality = Ok ms
       ∧ Forall2 resolves (witnessRefs ms) (requested_refs equality)).
Proof.
  intros missing.
  pose proof (createWitnessEquality_fold equality new_WitnessEqualityMetaStatement) as Hfold.
  fold (createWitnessEqualityMetaStatement equality) in Hfold.
  destruct (createWitnessEqualityMetaStatement equality) as [ms|m] eqn:Hcreate.
  - destruct Hfold as (refs & Hrefs & Hres). csimpl in Hrefs. subst refs.
    assert (¬ missing) as Hnone.
    { intros (sIdx & names & struct & n & Hin & Hn & Hmissing).
      apply list_elem_of_lookup in Hin as [j Hj].
      assert ((sIdx, n, struct) ∈ requested_refs equality) as Hreq.
      { unfold requested_refs. apply list_elem_of_bind.
        exists (sIdx, (names, struct)). split; [|by eapply list_elem_of_lookup_2].
        apply list_elem_of_fmap. by exists n. }
      apply list_elem_of_lookup in Hreq as [i Hi].
      destruct (Forall2_lookup_r _ _ _ _ _ Hres Hi) as (ref & _ & _ & Hpos).
      apply Hmissing. apply sort_names_elem_of. by eapply list_elem_of_lookup_2. }
    split; [by split|]. intros _. by exists ms.
  - destruct Hfold as (n & struct & (sIdx & names & Hin & Hn) & Hmissing).
    assert missing as Hm by (by exists sIdx, names, struct, n).
    split; [by split|]. done.
Qed.

(** ** Maps *)

Section JsMapFacts.
Context {K V : Type} `{EqDecision K}.
Implicit Types (m : JsMap K V) (k : K) (v : V).

Lemma map_get_set m k k' v :
  map_get k' (map_set k v m) = if decide (k' = k) then Some v else map_get k' m.
Proof.
  induction m as [|[k1 v1] m IH]; csimpl.
  - repeat case_decide; congruence.
  - destruct (decide (k1 = k)) as [->|Hk1]; csimpl.
    + repeat case_decide; congruence.
    + rewrite IH. repeat case_decide; congruence.
Qed.

Lemma map_set_keys m k v k' : k' ∈ (map_set k v m).*1 ↔ k' = k ∨ k' ∈ m.*1.
Proof.
  induction m as [|[k1 v1] m IH]; csimpl.
  - rewrite elem_of_cons. done.
  - case_decide; csimpl; subst; rewrite !elem_of_cons; [|rewrite IH]; tauto.
Qed.

Lemma map_set_NoDup m k v : NoDup m.*1 → NoDup (map_set k v m).*1.
Proof.
  induction m as [|[k1 v1] m IH]; csimpl.
  - intros _. apply NoDup_singleton.
  - intros [Hk1 Hnd]%NoDup_cons. case_decide; csimpl; subst.
    + by apply NoDup_cons.
    + apply NoDup_cons. split; [|auto]. rewrite map_set_keys. naive_solver.
Qed.

Lemma map_get_Some_elem m k v : map_get k m = Some v → (k, v) ∈ m.
Proof.
  induction m as [|[k1 v1] m IH]; csimpl; [done|].
  case_decide; [intros [= <-]; subst; left | right; auto].
Qed.

Lemma map_get_is_Some m k : is_Some (map_get k m) ↔ k ∈ m.*1.
Proof.
  induction m as [|[k1 v1] m IH]; csimpl.
  - split; [by intros [? ?] | by intros ?%elem_of_nil].
  - rewrite elem_of_cons. case_decide; subst.
    + split; [by left | by eexists].
    + rewrite IH. naive_solver.
Qed.

Lemma map_get_NoDup m k v : NoDup m.*1 → (k, v) ∈ m → map_get k m = Some v.
Proof.
  induction m as [|[k1 v1] m IH]; csimpl; [by inversion 2|].
  intros [Hk1 Hnd]%NoDup_cons [[= -> ->]|Hin]%elem_of_cons.
  - by rewrite decide_True.
  - rewrite decide_False; [auto|]. intros ->. apply Hk1.
    apply list_elem_of_fmap. by exists (k, v).
Qed.

End JsMapFacts.

(** ** Counting the names that matched *)

Lemma filter_elem_of_swap_length (l1 l2 : list string) :
  NoDup l1 → NoDup l2 →
  length (filter (λ x, x ∈ l2) l1) = length (filter (λ x, x ∈ l1) l2).
Proof.
  intros Hnd1 Hnd2. apply Permutation_length, NoDup_Permutation.
  - by apply NoDup_filter.
  - by apply NoDup_filter.
  - intros x. rewrite !list_elem_of_filter. tauto.
Qed.

Lemma filter_nil_iff (P : string → Prop) `{∀ x, Decision (P x)} (l : list string) :
  filter P l = [] ↔ ∀ x, x ∈ l → ¬ P x.
Proof.
  split.
  - intros Hnil x Hx HP. by eapply filter_nil_not_elem_of.
  - intros Hall. induction l as [|x l IH]; [done|].
    rewrite filter_cons_False; [|apply Hall; left].
    apply IH. intros y Hy. apply Hall. by right.
Qed.

Lemma filter_complement_length (P : string → Prop) `{∀ x, Decision (P x)} (l : list string) :
  length l = (length (filter P l) + length (filter (λ x, ¬ P x) l))%nat.
Proof.
  rewrite <-length_app. apply Permutation_length. symmetry. apply filter_app_complement.
Qed.

(** ** [getRevealedAndUnrevealed] *)

Section EncoderFacts.
Variable encodeMessage : string → JsVal → Result bytes.

Lemma encodeMessageObject_Ok messages names encodedValues :
  encodeMessageObject encodeMessage messages = Ok (names, encodedValues) →
  names = sort_names (Object_keys (flatten messages))
  ∧ length encodedValues = length names
  ∧ Forall2 (λ n v, encodeMessage n (js_get n (flatten messages)) = Ok v) names encodedValues.
Proof.
  unfold encodeMessageObject.
  destruct (traverse _ _) as [vs|m] eqn:Hvs; csimpl; [|done].
  intros [= <- <-]. split_and!; [done | by eapply traverse_length | by apply traverse_Ok].
Qed.

Lemma encodeMessageObject_names_NoDup messages names encodedValues :
  encodeMessageObject encodeMessage messages = Ok (names, encodedValues) → NoDup names.
Proof.
  intros (-> & _)%encodeMessageObject_Ok. apply sort_names_NoDup, flatten_NoDup.
Qed.

Lemma partition_loop_spec revealedMsgNames names : ∀ encodedValues i r0 u0 f0,
  length encodedValues = length names →
  ∃ r u,
    partition_loop revealedMsgNames i names encodedValues (r0, u0, f0)
    = (r, u, (f0 + length (filter (λ n, n ∈ revealedMsgNames) names))%nat)
    ∧ (NoDup r0.*1 → NoDup r.*1) ∧ (NoDup u0.*1 → NoDup u.*1)
    ∧ (∀ k, map_get k r =
         match names !! (k - i)%nat, encodedValues !! (k - i)%nat with
         | Some n, Some v =>
             if decide ((i ≤ k)%nat ∧ n ∈ revealedMsgNames) then Some v else map_get k r0
         | _, _ => map_get k r0
         end)
    ∧ (∀ k, map_get k u =
         match names !! (k - i)%nat, encodedValues !! (k - i)%nat with
         | Some n, Some v =>
             if decide ((i ≤ k)%nat ∧ n ∉ revealedMsgNames) then Some v else map_get k u0
         | _, _ => map_get k u0
         end).
Proof.
  induction names as [|n names IH]; intros [|v encodedValues] i r0 u0 f0 Hlen;
    simplify_eq/=.
  - exists r0, u0. split_and!; [f_equal; lia | done | done | done | done].
  - rewrite filter_cons. case_bool_decide as Hn.
    + destruct (IH encodedValues (S i) (map_set i v r0) u0 (S f0)) as
        (r & u & -> & Hr & Hu & Hgr & Hgu); [done|].
      rewrite decide_True by done.
      exists r, u. split_and!.
      * f_equal. csimpl. lia.
      * intros ?. by apply Hr, map_set_NoDup.
      * done.
      * intros k. rewrite Hgr, map_get_set. destruct (decide (k = i)) as [->|Hki].
        { replace (i - i)%nat with 0%nat by lia. replace (i - S i)%nat with 0%nat by lia.
          csimpl. rewrite (decide_True (P:=(i ≤ i)%nat ∧ _)) by done.
          destruct names, encodedValues; simplify_eq/=; [done|].
          rewrite decide_False by lia. done. }
        destruct (decide (k < i)%nat).
        { replace (k - i)%nat with 0%nat by lia. replace (k - S i)%nat with 0%nat by lia.
          csimpl. rewrite (decide_False (P:=(i ≤ k)%nat ∧ _)) by lia.
          destruct names, encodedValues; simplify_eq/=; [done|].
          rewrite decide_False by lia. done. }
        replace (k - i)%nat with (S (k - S i)) by lia. csimpl.
        destruct (names !! (k - S i)%nat), (encodedValues !! (k - S i)%nat); try done.
        repeat case_decide; try done; naive_solver lia.
      * intros k. rewrite Hgu. destruct (decide (k = i)) as [->|Hki].
        { replace (i - i)%nat with 0%nat by lia. replace (i - S i)%nat with 0%nat by lia.
          csimpl. rewrite (decide_False (P:=(i ≤ i)%nat ∧ _)) by tauto.
          destruct names, encodedValues; simplify_eq/=; [done|].
          rewrite decide_False by lia. done. }
        destruct (decide (k < i)%nat).
        { replace (k - i)%nat with 0%nat by lia. replace (k - S i)%nat with 0%nat by lia.
          csimpl. rewrite (decide_False (P:=(i ≤ k)%nat ∧ _)) by lia.
          destruct names, encodedValues; simplify_eq/=; [done|].
          rewrite decide_False by lia. done. }
        replace (k - i)%nat with (S (k - S i)) by lia. csimpl.
        destruct (names !! (k - S i)%nat), (encodedValues !! (k - S i)%nat); try done.
        repeat case_decide; try done; naive_solver lia.
    + destruct (IH encodedValues (S i) r0 (map_set i v u0) f0) as
        (r & u & -> & Hr & Hu & Hgr & Hgu); [done|].
      rewrite decide_False by done.
      exists r, u. split_and!.
      * done.
      * done.
      * intros ?. by apply Hu, map_set_NoDup.
      * intros k. rewrite Hgr. destruct (decide (k = i)) as [->|Hki].
        { replace (i - i)%nat with 0%nat by lia. replace (i - S i)%nat with 0%nat by lia.
          csimpl. rewrite (decide_False (P:=(i ≤ i)%nat ∧ _)) by tauto.
          destruct names, encodedValues; simplify_eq/=; [done|].
          rewrite decide_False by lia. done. }
        destruct (decide (k < i)%nat).
        { replace (k - i)%nat with 0%nat by lia. replace (k - S i)%nat with 0%nat by lia.
          csimpl. rewrite (decide_False (P:=(i ≤ k)%nat ∧ _)) by lia.
          destruct names, encodedValues; simplify_eq/=; [done|].
          rewrite decide_False by lia. done. }
        replace (k - i)%nat with (S (k - S i)) by lia. csimpl.
        destruct (names !! (k - S i)%nat), (encodedValues !! (k - S i)%nat); try done.
        repeat case_decide; try done; naive_solver lia.
      * intros k. rewrite Hgu, map_get_set. destruct (decide (k = i)) as [->|Hki].
        { replace (i - i)%nat with 0%nat by lia. replace (i - S i)%nat with 0%nat by lia.
          csimpl. rewrite (decide_True (P:=(i ≤ i)%nat ∧ _)) by done.
          destruct names, encodedValues; simplify_eq/=; [done|].
          rewrite decide_False by lia. done. }
        destruct (decide (k < i)%nat).
        { replace (k - i)%nat with 0%nat by lia. replace (k - S i)%nat with 0%nat by lia.
          csimpl. rewrite (decide_False (P:=(i ≤ k)%nat ∧ _)) by lia.
          destruct names, encodedValues; simplify_eq/=; [done|].
          rewrite decide_False by lia. done. }
        replace (k - i)%nat with (S (k - S i)) by lia. csimpl.
        destruct (names !! (k - S i)%nat), (encodedValues !! (k - S i)%nat); try done.
        repeat case_decide; try done; naive_solver lia.
Qed.

Lemma matched_count (revealedMsgNames names : list string) :
  NoDup revealedMsgNames → NoDup names →
  length revealedMsgNames =
  (length (filter (λ n, n ∈ revealedMsgNames) names)
   + length (filter (λ n, n ∉ names) revealedMsgNames))%nat.
Proof.
  intros HR Hnames.
  rewrite (filter_complement_length (λ n, n ∈ names) revealedMsgNames).
  f_equal. by apply filter_elem_of_swap_length.
Qed.

(** What [getRevealedAndUnrevealed] does once the encoder has returned. *)
Lemma getRevealedAndUnrevealed_outcome messages revealedMsgNames names encodedValues :
  NoDup revealedMsgNames →
  encodeMessageObject encodeMessage messages = Ok (names, encodedValues) →
  let unmatched := filter (λ n, n ∉ Object_keys (flatten messages)) revealedMsgNames in
  ∃ revealed unrevealed,
    getRevealedAndUnrevealed encodeMessage messages revealedMsgNames
    = (if decide (unmatched = [])
       then Ok (revealed, unrevealed,
                unflatten (collect_raw (flatten messages) revealedMsgNames))
       else Throw (extra_names_found (Z.of_nat (length unmatched))))
    ∧ NoDup revealed.*1 ∧ NoDup unrevealed.*1
    ∧ (∀ i, map_get i revealed =
         n ← names !! i; v ← encodedValues !! i;
         if decide (n ∈ revealedMsgNames) then Some v else None)
    ∧ (∀ i, map_get i unrevealed =
         n ← names !! i; v ← encodedValues !! i;
         if decide (n ∉ revealedMsgNames) then Some v else None).
Proof.
  intros HR Henc unmatched.
  pose proof (encodeMessageObject_names_NoDup _ _ _ Henc) as Hnames.
  destruct (encodeMessageObject_Ok _ _ _ Henc) as (Hsorted & Hlen & _).
  destruct (partition_loop_spec revealedMsgNames names encodedValues 0 [] [] 0 Hlen)
    as (r & u & Hloop & Hr & Hu & Hgr & Hgu).
  exists r, u. split_and!.
  - unfold getRevealedAndUnrevealed. rewrite Henc. csimpl. rewrite Hloop. csimpl.
    assert (unmatched = filter (λ n, n ∉ names) revealedMsgNames) as Hun.
    { apply list_filter_iff. intros n. by rewrite Hsorted, sort_names_elem_of. }
    pose proof (matched_count revealedMsgNames names HR Hnames) as Hcount.
    rewrite <-Hun in Hcount.
    destruct (decide (unmatched = [])) as [Hnil|Hcons].
    + rewrite decide_False; [done|]. rewrite Hnil in Hcount. csimpl in Hcount. lia.
    + rewrite decide_True.
      * do 2 f_equal. lia.
      * destruct unmatched; [done|]. csimpl in Hcount. lia.
  - apply Hr. constructor.
  - apply Hu. constructor.
  - intros i. rewrite Hgr. replace (i - 0)%nat with i by lia.
    destruct (names !! i), (encodedValues !! i); csimpl; try done.
    repeat case_decide; try done; naive_solver lia.
  - intros i. rewrite Hgu. replace (i - 0)%nat with i by lia.
    destruct (names !! i), (encodedValues !! i); csimpl; try done.
    repeat case_decide; try done; naive_solver lia.
Qed.



End EncoderFacts.

Lemma attributes_encoded :
  encodeMessageObject sample_encodeMessage attributes
  = Ok (attributes_names, attributes_values).
Proof. by vm_compute. Qed.




(** ** Witnesses for blind signature requests *)

Global Instance key_le_transitive {V} : Transitive (@key_le V).
Proof. intros a b c. unfold key_le. lia. Qed.

Global Instance key_le_total {V} : Total (@key_le V).
Proof. intros a b. unfold key_le. lia. Qed.

Lemma NoDup_keys_inj {K V} (m : JsMap K V) (x y : K * V) :
  NoDup m.*1 → x ∈ m → y ∈ m → x.1 = y.1 → x = y.
Proof.
  induction m as [|z m IH]; csimpl; [by intros _ ?%elem_of_nil|].
  intros [Hz Hnd]%NoDup_cons [->|Hx]%elem_of_cons [->|Hy]%elem_of_cons Hxy; auto.
  - exfalso. apply Hz. rewrite Hxy. apply list_elem_of_fmap. by exists y.
  - exfalso. apply Hz. rewrite <-Hxy. apply list_elem_of_fmap. by exists x.
Qed.

Lemma sort_entries_Sorted {V} (entries : JsMap Z V) : Sorted key_le (sort_entries entries).
Proof. apply (Sorted_merge_sort key_le). Qed.

Lemma sort_entries_Permutation {V} (entries : JsMap Z V) : sort_entries entries ≡ₚ entries.
Proof. apply merge_sort_Permutation. Qed.

(** Two insertion orders of the same entries sort to the same list. *)
Lemma sort_entries_insertion_order {V} (entries1 entries2 : JsMap Z V) :
  NoDup entries1.*1 → entries1 ≡ₚ entries2 →
  sort_entries entries1 = sort_entries entries2.
Proof.
  intros Hnd Hperm. apply (Sorted_unique_strong key_le).
  - intros x y Hx Hy Hxy Hyx.
    rewrite sort_entries_Permutation in Hx. rewrite sort_entries_Permutation, <-Hperm in Hy.
    apply (NoDup_keys_inj entries1); [done..|]. unfold key_le in *. lia.
  - apply sort_entries_Sorted.
  - apply sort_entries_Sorted.
  - by rewrite !sort_entries_Permutation.
Qed.

Lemma map_get_Permutation {K V} `{EqDecision K} (m1 m2 : JsMap K V) k :
  NoDup m1.*1 → m1 ≡ₚ m2 → map_get k m1 = map_get k m2.
Proof.
  intros Hnd Hperm.
  assert (NoDup m2.*1) as Hnd2 by by rewrite <-Hperm.
  destruct (map_get k m1) as [v|] eqn:H1.
  - symmetry. apply map_get_NoDup; [done|]. rewrite <-Hperm. by apply map_get_Some_elem.
  - destruct (map_get k m2) as [v|] eqn:H2; [|done].
    apply map_get_Some_elem in H2. rewrite <-Hperm in H2.
    apply (map_get_NoDup _ _ _ Hnd) in H2. congruence.
Qed.

Section BlindSigWitnessFacts.
Variable pedersenCommitment : list bytes → bytes.


End BlindSigWitnessFacts.


(** ** The attributes of the proof-of-knowledge test *)

Lemma getRevealedAndUnrevealed_Ok_encoded encodeMessage messages revealedMsgNames out :
  getRevealedAndUnrevealed encodeMessage messages revealedMsgNames = Ok out →
  ∃ encodedValues,
    encodeMessageObject encodeMessage messages
    = Ok (sort_names (Object_keys (flatten messages)), encodedValues).
Proof.
  unfold getRevealedAndUnrevealed.
  destruct (encodeMessageObject encodeMessage messages) as [[names vs]|m] eqn:Henc; [|done].
  intros _. apply encodeMessageObject_Ok in Henc as (-> & _). by eexists.
Qed.

(** C4, as stated, fails: the positions of [lname] and [city] in the sorted
    names are not 2 and 4. *)
Lemma canonical_indices_not_2_4 :
  ¬ ∃ indices, getIndicesForMsgNames ["lname"; "city"] attributesStruct = Ok indices
               ∧ ∀ i, i ∈ indices ↔ i ∈ [2; 4]%nat.
Proof.
  intros (indices & Hidx & Hset). vm_compute in Hidx. injection Hidx as <-.
  assert (3%nat ∈ [2; 4]%nat) as Hin by (apply Hset; left).
  revert Hin. apply (bool_decide_unpack (3%nat ∉ [2; 4]%nat)). by vm_compute.
Qed.

(** C4, as amended: for attributes whose flattened names are [ssn], [fname],
    [lname], [email] and [city], the sorted names are city, email, fname,
    lname, ssn, so that [lname] and [city] have the canonical indices 3 and 0,
    and revealing them reveals exactly the indices 0 and 3.  The indices 2 and
    4 are the positions of [lname] and [city] in the test's own array, which
    lists the messages in the order ssn, fname, lname, email, city. *)
Theorem canonical_indices_lname_city (msgStructure : MessageStructure) :
  Object_keys (flattenMessageStructure msgStructure)
    ≡ₚ ["ssn"; "fname"; "lname"; "email"; "city"] →
  structNames msgStructure = ["city"; "email"; "fname"; "lname"; "ssn"]
  ∧ getIndicesForMsgNames ["lname"; "city"] msgStructure = Ok [3; 0]%nat
  ∧ (∀ encodeMessage messages revealed unrevealed raw,
       isValidMsgStructure messages msgStructure = true →
       getRevealedAndUnrevealed encodeMessage messages ["lname"; "city"]
       = Ok (revealed, unrevealed, raw) →
       ∀ i, i ∈ revealed.*1 ↔ i = 0%nat ∨ i = 3%nat)
  ∧ (∀ ssn fname lname email city,
       reveal_by_index [2; 4]%nat 0 [ssn; fname; lname; email; city] ([], [])
       = ([(2%nat, lname); (4%nat, city)], [(0%nat, ssn); (1%nat, fname); (3%nat, email)])).
Proof.
  intros Hkeys.
  assert (structNames msgStructure = ["city"; "email"; "fname"; "lname"; "ssn"]) as Hnames.
  { apply sort_names_unique; [decide_goal|]. rewrite Hkeys. decide_goal. }
  split_and!.
  - done.
  - unfold getIndicesForMsgNames. fold (structNames msgStructure). by rewrite Hnames.
  - intros encodeMessage messages revealed unrevealed raw Hvalid Hcall i.
    destruct (getRevealedAndUnrevealed_Ok_encoded _ _ _ _ Hcall) as (vs & Henc).
    apply isValidMsgStructure_names in Hvalid. fold (structNames msgStructure) in Hvalid.
    rewrite Hvalid, Hnames in Henc.
    assert (NoDup ["lname"; "city"]) as HR by decide_goal.
    destruct (getRevealedAndUnrevealed_outcome _ _ _ _ _ HR Henc)
      as (r & u & Hout & _ & _ & Hgr & _).
    destruct (encodeMessageObject_Ok _ _ _ _ Henc) as (_ & Hlen & _).
    rewrite Hcall in Hout. case_decide; [|done]. injection Hout as -> -> _.
    rewrite <-map_get_is_Some, Hgr.
    destruct vs as [|v0 [|v1 [|v2 [|v3 [|v4 [|]]]]]]; try done.
    destruct i as [|[|[|[|[|i]]]]]; csimpl.
    + split; [by left | by eexists].
    + split; [by intros [? ?] | by intros [|]].
    + split; [by intros [? ?] | by intros [|]].
    + split; [by right | by eexists].
    + split; [by intros [? ?] | by intros [|]].
    + split; [by intros [? ?] | by intros [|]].
  - done.
Qed.

Lemma canonical_indices_lname_city_witness :
  structNames attributesStruct = ["city"; "email"; "fname"; "lname"; "ssn"]
  ∧ getIndicesForMsgNames ["lname"; "city"] attributesStruct = Ok [3; 0]%nat
  ∧ (∀ encodeMessage messages revealed unrevealed raw,
       isValidMsgStructure messages attributesStruct = true →
       getRevealedAndUnrevealed encodeMessage messages ["lname"; "city"]
       = Ok (revealed, unrevealed, raw) →
       ∀ i, i ∈ revealed.*1 ↔ i = 0%nat ∨ i = 3%nat)
  ∧ (∀ ssn fname lname email city,
       reveal_by_index [2; 4]%nat 0 [ssn; fname; lname; email; city] ([], [])
       = ([(2%nat, lname); (4%nat, city)], [(0%nat, ssn); (1%nat, fname); (3%nat, email)])).
Proof. apply (canonical_indices_lname_city attributesStruct). by vm_compute. Defined.

(** ** Signing a credential *)

Section CredentialBuilderFacts.
Context {SecretKey SignatureParams Signature : Type}.
Variable F : FieldNames.
Variable signMessageObject :
  Obj → SecretKey → SignatureParams + bytes → (string → JsVal → Result bytes)
  → Result (@SignedMessages Signature).
Variable SIGNATURE_PARAMS_LABEL_BYTES : bytes.

(** C5: [sign] checks, with [hasAllFieldsFromSchema], that the sorted
    flattened names of the serialized credential are exactly the schema's
    flattened leaves.  When they are not (or the builder has no schema) it
    throws without having called the signing primitive and leaves the builder
    as it was; when they are, it calls the signing primitive once, on the
    serialized credential, and its outcome is that of the primitive. *)
Theorem sign_enforces_schema (b : @CredentialBuilder Signature) (secretKey : SecretKey)
    (signatureParams : option SignatureParams) :
  let cred := builder_serializeForSigning F b in
  let fieldsMatch := ∃ schema, _schema b = Some schema
    ∧ sort_names (Object_keys (flatten cred)) = schema_flatten_names schema in
  let params := match signatureParams with
                | Some p => inl p
                | None => inr SIGNATURE_PARAMS_LABEL_BYTES
                end in
  let result := sign F signMessageObject SIGNATURE_PARAMS_LABEL_BYTES b secretKey
                     signatureParams in
  (∀ schema, hasAllFieldsFromSchema cred schema = true
             ↔ sort_names (Object_keys (flatten cred)) = schema_flatten_names schema)
  ∧ (¬ fieldsMatch → isThrow result.2 ∧ result.1.2 = [] ∧ result.1.1 = b)
  ∧ (fieldsMatch → ∃ schema, _schema b = Some schema
       ∧ result.1.2 = [SignMessageObject cred secretKey params]
       ∧ (isThrow result.2
          ↔ isThrow (signMessageObject cred secretKey params (encoder schema)))).
Proof.
  intros cred fieldsMatch params result.
  assert (∀ schema, hasAllFieldsFromSchema cred schema = true
             ↔ sort_names (Object_keys (flatten cred)) = schema_flatten_names schema) as Hcheck.
  { intros schema. unfold hasAllFieldsFromSchema, areArraysEqual.
    rewrite bool_decide_eq_true. split; congruence. }
  split_and!; [done | |].
  - intros Hno. unfold result, sign. fold cred.
    destruct (_schema b) as [schema|] eqn:Hschema; [|done].
    destruct (hasAllFieldsFromSchema cred schema) eqn:Hhas; [|done].
    exfalso. apply Hno. exists schema. split; [done|]. by apply Hcheck.
  - intros (schema & Hschema & Hmatch). exists schema. split; [done|].
    apply Hcheck in Hmatch. unfold result, sign. fold cred. rewrite Hschema, Hmatch. csimpl.
    fold params. by destruct (signMessageObject cred secretKey params (encoder schema)).
Qed.

End CredentialBuilderFacts.

(** ** The accumulator's state store *)

Section AccumulatorFacts.
Context {Member : Type} `{Countable Member} {Accumulated : Type}.
Variable engine_add : Member → Accumulated → Result Accumulated.
Variable engine_remove : Member → Accumulated → Result Accumulated.
Variable engine_addBatch : list Member → Accumulated → Result Accumulated.
Variable engine_removeBatch : list Member → Accumulated → Result Accumulated.

Abbreviation perform' := (perform engine_add engine_remove engine_addBatch engine_removeBatch).
Abbreviation run' := (run engine_add engine_remove engine_addBatch engine_removeBatch).

Lemma commit_Throw (st : @AccumulatorState Member _ _ Accumulated) r :
  isThrow (commit st r).2 → (commit st r).1 = st.
Proof. by destruct r as [[a s]|m]. Qed.

Lemma perform_Throw op st : isThrow (perform' op st).2 → (perform' op st).1 = st.
Proof. destruct op; apply commit_Throw. Qed.

Lemma run_cons op ops st :
  run' (op :: ops) st
  = ((run' ops (perform' op st).1).1, (perform' op st).2 :: (run' ops (perform' op st).1).2).
Proof.
  change (run' (op :: ops) st)
    with (let '(st', r) := perform' op st in
          let '(st'', rs) := run' ops st' in (st'', r :: rs)).
  destruct (perform' op st) as [st' r]. cbn [fst snd]. destruct (run' ops st'); reflexivity.
Qed.

Lemma add_present e st : e ∈ state st → ∃ m, perform' (Add e) st = (st, Throw m).
Proof.
  intros Hin. csimpl. unfold add, store_add. rewrite decide_True by done. by eexists.
Qed.

Lemma add_fresh e st :
  (∀ e a, ¬ isThrow (engine_add e a)) → e ∉ state st →
  ∃ a, perform' (Add e) st = ({| accumulated := a; state := {[e]} ∪ state st |}, Ok ()).
Proof.
  intros Hengine Hin. csimpl. unfold add, store_add. rewrite decide_False by done. csimpl.
  pose proof (Hengine e (accumulated st)) as He.
  destruct (engine_add e (accumulated st)) as [a|]; [|done]. by exists a.
Qed.

Lemma remove_absent e st : e ∉ state st → ∃ m, perform' (Remove e) st = (st, Throw m).
Proof.
  intros Hin. csimpl. unfold remove, store_remove. rewrite decide_False by done. by eexists.
Qed.

Lemma remove_present e st :
  (∀ e a, ¬ isThrow (engine_remove e a)) → e ∈ state st →
  ∃ a, perform' (Remove e) st = ({| accumulated := a; state := state st ∖ {[e]} |}, Ok ()).
Proof.
  intros Hengine Hin. csimpl. unfold remove, store_remove. rewrite decide_True by done. csimpl.
  pose proof (Hengine e (accumulated st)) as He.
  destruct (engine_remove e (accumulated st)) as [a|]; [|done]. by exists a.
Qed.

Lemma addBatch_present e es st :
  e ∈ state st → ∃ m, perform' (AddBatch (e :: es)) st = (st, Throw m).
Proof.
  intros Hin. csimpl. unfold addBatch. csimpl. unfold store_add at 2.
  rewrite decide_True by done. by eexists.
Qed.

Lemma addBatch_fresh_pair e e' st :
  (∀ es a, ¬ isThrow (engine_addBatch es a)) → e ∉ state st → e' ∉ state st → e ≠ e' →
  ∃ a, perform' (AddBatch [e; e']) st
       = ({| accumulated := a; state := {[e']} ∪ ({[e]} ∪ state st) |}, Ok ()).
Proof.
  intros Hengine Hin Hin' Hne. csimpl. unfold addBatch. csimpl.
  unfold store_add at 2. rewrite decide_False by done. csimpl.
  unfold store_add at 1. rewrite decide_False by set_solver. csimpl.
  pose proof (Hengine [e; e'] (accumulated st)) as He.
  destruct (engine_addBatch [e; e'] (accumulated st)) as [a|]; [|done]. by exists a.
Qed.

(** C8: with an engine that does not fail, the scenario of the test-suite
    runs as follows on the store: from the empty state, adding [e1] succeeds,
    adding it again fails, removing [e2] before it was added fails; after
    adding and removing [e2] and adding the batch [e3], [e4], adding the same
    batch again fails, and the state then has exactly the three members [e1],
    [e3] and [e4].  Whatever the engine does, an operation that fails leaves
    the state as it was. *)
Theorem accumulator_store_contract (e1 e2 e3 e4 : Member) (a0 : Accumulated) :
  NoDup [e1; e2; e3; e4] →
  (∀ e a, ¬ isThrow (engine_add e a)) →
  (∀ e a, ¬ isThrow (engine_remove e a)) →
  (∀ es a, ¬ isThrow (engine_addBatch es a)) →
  (∃ st m1 m2 m3,
     run' [Add e1; Add e1; Remove e2; Add e2; Remove e2;
           AddBatch [e3; e4]; AddBatch [e3; e4]]
          {| accumulated := a0; state := ∅ |}
     = (st, [Ok (); Throw m1; Throw m2; Ok (); Ok (); Ok (); Throw m3])
     ∧ state st = {[e1; e3; e4]} ∧ size (state st) = 3%nat)
  ∧ (∀ op st, isThrow (perform' op st).2 → (perform' op st).1 = st).
Proof.
  intros Hnd Hadd Hremove HaddBatch. split; [|apply perform_Throw].
  apply NoDup_cons in Hnd as [H1 Hnd]. apply NoDup_cons in Hnd as [H2 Hnd].
  apply NoDup_cons in Hnd as [H3 _].
  assert (e1 ≠ e2 ∧ e1 ≠ e3 ∧ e1 ≠ e4 ∧ e2 ≠ e3 ∧ e2 ≠ e4 ∧ e3 ≠ e4) as Hne by set_solver.
  destruct Hne as (H12 & H13 & H14 & H23 & H24 & H34).
  set (st0 := {| accumulated := a0; state := ∅ |}).
  destruct (add_fresh e1 st0 Hadd) as [a1 Hs1]; [set_solver|].
  set (st1 := {| accumulated := a1; state := {[e1]} ∪ state st0 |}) in *.
  destruct (add_present e1 st1) as [m1 Hs2]; [set_solver|].
  destruct (remove_absent e2 st1) as [m2 Hs3]; [set_solver|].
  destruct (add_fresh e2 st1 Hadd) as [a2 Hs4]; [set_solver|].
  set (st2 := {| accumulated := a2; state := {[e2]} ∪ state st1 |}) in *.
  destruct (remove_present e2 st2 Hremove) as [a3 Hs5]; [set_solver|].
  set (st3 := {| accumulated := a3; state := state st2 ∖ {[e2]} |}) in *.
  destruct (addBatch_fresh_pair e3 e4 st3 HaddBatch) as [a4 Hs6]; [set_solver..|].
  set (st4 := {| accumulated := a4; state := {[e4]} ∪ ({[e3]} ∪ state st3) |}) in *.
  destruct (addBatch_present e3 [e4] st4) as [m3 Hs7]; [set_solver|].
  exists st4, m1, m2, m3. split_and!.
  - rewrite !run_cons. rewrite Hs1. cbn [fst snd]. rewrite Hs2. cbn [fst snd].
    rewrite Hs3. cbn [fst snd]. rewrite Hs4. cbn [fst snd]. rewrite Hs5. cbn [fst snd].
    rewrite Hs6. cbn [fst snd]. rewrite Hs7. reflexivity.
  - csimpl. set_solver.
  - assert (state st4 = {[e1]} ∪ ({[e3]} ∪ {[e4]})) as -> by (csimpl; set_solver).
    rewrite !size_union by set_solver. by rewrite !size_singleton.
Qed.

End AccumulatorFacts.

Lemma accumulator_store_contract_witness :
  let engine := λ (_ : N) (a : unit), @Ok unit a in
  let engine_batch := λ (_ : list N) (a : unit), @Ok unit a in
  (∃ st m1 m2 m3,
     run engine engine engine_batch engine_batch
         [Add 101%N; Add 101%N; Remove 102%N; Add 102%N; Remove 102%N;
          AddBatch [103%N; 104%N]; AddBatch [103%N; 104%N]]
         {| accumulated := (); state := ∅ |}
     = (st, [Ok (); Throw m1; Throw m2; Ok (); Ok (); Ok (); Throw m3])
     ∧ state st = {[101%N; 103%N; 104%N]} ∧ size (state st) = 3%nat)
  ∧ (∀ op st, isThrow (perform engine engine engine_batch engine_batch op st).2
              → (perform engine engine engine_batch engine_batch op st).1 = st).
Proof.
  intros engine engine_batch.
  apply (accumulator_store_contract engine engine engine_batch engine_batch
           101%N 102%N 103%N 104%N ()).
  - decide_goal.
  - intros e a Hthrow. exact Hthrow.
  - intros e a Hthrow. exact Hthrow.
  - intros es a Hthrow. exact Hthrow.
Defined.

(** ** Serializing a credential *)

Lemma set_value_absent k w (o : Obj) : k ∉ Object_keys o → set_value k w <$> o = o.
Proof.
  unfold Object_keys. induction o as [|[k' v'] o IH]; csimpl; [done|].
  rewrite not_elem_of_cons. intros [Hk Ho]. unfold set_value at 1. csimpl.
  rewrite decide_False by done. by rewrite IH.
Qed.

Lemma obj_set_update k w (o : Obj) :
  NoDup (Object_keys o) → k ∈ Object_keys o → obj_set k w o = set_value k w <$> o.
Proof.
  intros Hnd Hin. unfold obj_set.
  assert (obj_replace k w o = Some (set_value k w <$> o)) as ->; [|done].
  unfold Object_keys in *. induction o as [|[k' v'] o IH]; csimpl in *.
  - by apply elem_of_nil in Hin.
  - apply NoDup_cons in Hnd as [Hk' Hnd]. unfold set_value at 1. csimpl.
    case_decide as Hk; subst.
    + by rewrite set_value_absent.
    + apply elem_of_cons in Hin as [->|Hin]; [done|]. by rewrite IH.
Qed.

Lemma obj_set_append k v (o : Obj) :
  k ∉ Object_keys o → array_index k = None → obj_set k v o = o ++ [(k, v)].
Proof.
  intros Hin Hidx. unfold obj_set. apply (obj_replace_None k v) in Hin.
  by rewrite Hin, Hidx.
Qed.

Lemma js_assign_append k v (o : Obj) :
  plain_name k → k ∉ Object_keys o → js_assign k v o = o ++ [(k, v)].
Proof.
  intros [Hidx Hproto] Hin. unfold js_assign. rewrite decide_False by done.
  by apply obj_set_append.
Qed.

Lemma foldl_js_assign_append (fields : JsMap string JsVal) : ∀ s : Obj,
  NoDup fields.*1 → Forall plain_name fields.*1 →
  (∀ k, k ∈ fields.*1 → k ∉ Object_keys s) →
  foldl (λ s kv, js_assign kv.1 kv.2 s) s fields = s ++ fields.
Proof.
  induction fields as [|[k v] fields IH]; intros s Hnd Hplain Hfresh; csimpl in *.
  - by rewrite app_nil_r.
  - apply NoDup_cons in Hnd as [Hk Hnd]. apply Forall_cons in Hplain as [Hpk Hplain].
    rewrite js_assign_append; [|done|apply Hfresh; left].
    rewrite IH; [by rewrite <-app_assoc|done|done|].
    intros k' Hk'. unfold Object_keys. rewrite fmap_app, elem_of_app. csimpl.
    intros [Hin|Hin%list_elem_of_singleton].
    + by apply (Hfresh k'); [right|].
    + by subst.
Qed.

Lemma obj_delete_keys k (o : Obj) : k ∉ Object_keys (obj_delete k o).
Proof.
  unfold Object_keys, obj_delete. intros ([k' v] & -> & Hin)%list_elem_of_fmap.
  apply list_elem_of_filter in Hin as [Hne _]. done.
Qed.

Lemma delete_property_truthy k v :
  falsy v = false →
  delete_property k v
  = Ok (match v with JObj isArray props => JObj isArray (obj_delete k props) | _ => v end).
Proof. by destruct v. Qed.

Lemma obj_get_app k (o1 o2 : Obj) :
  obj_get k (o1 ++ o2) = match obj_get k o1 with Some v => Some v | None => obj_get k o2 end.
Proof.
  induction o1 as [|[k' v'] o1 IH]; csimpl; [done|]. by case_decide.
Qed.

Section CredentialFacts.
Context {Signature : Type}.
Variable F : FieldNames.
Variable CRED_PROOF_TYPE : SignatureType → string.

Abbreviation proof_of := (proof_metadata CRED_PROOF_TYPE).

Lemma serialize_proof_block t (o : Obj) :
  NoDup (Object_keys o) → plain_name (PROOF_STR F) →
  (stripped ← delete_property "proofValue"
                (js_get (PROOF_STR F)
                   (applyDefaultProofMetadataIfNeeded F CRED_PROOF_TYPE t o));
   Ok (match obj_get (PROOF_STR F)
                     (applyDefaultProofMetadataIfNeeded F CRED_PROOF_TYPE t o) with
       | Some _ => obj_set (PROOF_STR F) stripped
                     (applyDefaultProofMetadataIfNeeded F CRED_PROOF_TYPE t o)
       | None => applyDefaultProofMetadataIfNeeded F CRED_PROOF_TYPE t o
       end))
  = Ok (match obj_get (PROOF_STR F) o with
        | Some v => set_value (PROOF_STR F) (proof_of t v) <$> o
        | None => o ++ [(PROOF_STR F, default_proof CRED_PROOF_TYPE t)]
        end).
Proof.
  intros Hnd Hplain. unfold applyDefaultProofMetadataIfNeeded, js_get.
  destruct (obj_get (PROOF_STR F) o) as [v|] eqn:Hg; csimpl.
  - assert (PROOF_STR F ∈ Object_keys o) as Hin.
    { destruct (decide (PROOF_STR F ∈ Object_keys o)) as [|Hno]; [done|].
      apply obj_get_None in Hno. congruence. }
    unfold proof_of, proof_metadata. destruct (falsy v) eqn:Hf.
    + unfold js_assign. rewrite decide_False by apply Hplain.
      rewrite obj_get_set. csimpl.
      rewrite (obj_set_update _ _ (obj_set _ _ _));
        [|by apply obj_set_NoDup|apply obj_set_elem_of_keys; by left].
      rewrite obj_set_update by done. rewrite <-list_fmap_compose. f_equal.
      apply list_fmap_ext. intros i [k' v'] _. unfold set_value, compose. csimpl.
      destruct (decide (k' = PROOF_STR F)); csimpl; [by rewrite decide_True|by rewrite decide_False].
    + rewrite Hg. rewrite delete_property_truthy by done. csimpl.
      by rewrite obj_set_update.
  - assert (PROOF_STR F ∉ Object_keys o) as Hin by by apply obj_get_None.
    rewrite js_assign_append by done.
    rewrite !obj_get_app, Hg. csimpl. rewrite decide_True by done. csimpl.
    rewrite obj_set_update.
    + rewrite fmap_app, set_value_absent by done. csimpl. unfold set_value. csimpl.
      by rewrite decide_True.
    + unfold Object_keys. rewrite fmap_app. apply NoDup_app. split_and!; [done| |].
      * intros k Hk [->|[]%elem_of_nil]%elem_of_cons. done.
      * apply NoDup_singleton.
    + unfold Object_keys. rewrite fmap_app, elem_of_app. right. left.
Qed.

(** C6, as amended.  No output of [serializeForSigning] has a [proofValue]
    under its proof key.  When the five field names are distinct, none of them
    nor any top-level field name is an array index or ["__proto__"], and no
    top-level field is named like the version, schema, subject or status tag,
    the output is, in this order: the version tag, the schema as its JSON
    string, the subject, the top-level fields in insertion order (the field
    named like the proof tag with its [proofValue] removed, or replaced by the
    default metadata when it is falsy), the status exactly when
    [credentialStatus] is defined, and the default proof metadata when no
    top-level field carries the proof. *)
Theorem serializeForSigning_correct (c : Credential Signature) :
  (∀ s isArray props,
     serializeForSigning F CRED_PROOF_TYPE c = Ok s →
     obj_get (PROOF_STR F) s = Some (JObj isArray props) →
     "proofValue" ∉ Object_keys props)
  ∧ (NoDup (reserved_names F) → Forall plain_name (reserved_names F) →
     NoDup (topLevelFields c).*1 → Forall plain_name (topLevelFields c).*1 →
     (∀ k, k ∈ (topLevelFields c).*1 →
           k ∉ [CRYPTO_VERSION_STR F; SCHEMA_STR F; SUBJECT_STR F; STATUS_STR F]) →
     serializeForSigning F CRED_PROOF_TYPE c = Ok (expected_serialization F CRED_PROOF_TYPE c)).
Proof.
  split.
  - intros s isArray props. unfold serializeForSigning.
    set (s3 := applyDefaultProofMetadataIfNeeded _ _ _ _).
    destruct (delete_property "proofValue" (js_get (PROOF_STR F) s3)) as [stripped|m] eqn:Hd;
      csimpl; [|done].
    intros [= <-]. destruct (obj_get (PROOF_STR F) s3) as [p|] eqn:Hg.
    + rewrite obj_get_set. intros [= ->].
      destruct (js_get (PROOF_STR F) s3); simplify_eq/=. apply obj_delete_keys.
    + by rewrite Hg.
  - intros Hres Hplain Hnd Hfields Hfresh.
    unfold reserved_names in *.
    repeat match goal with
           | H : NoDup (_ :: _) |- _ => apply NoDup_cons in H as [? H]
           | H : Forall _ (_ :: _) |- _ => apply Forall_cons in H as [? H]
           end.
    repeat match goal with
           | H : _ ∉ _ :: _ |- _ => apply not_elem_of_cons in H as [? H]
           end.
    unfold serializeForSigning.
    match goal with H : plain_name (CRYPTO_VERSION_STR F) |- _ => destruct H as [Hiv _] end.
    match goal with H : plain_name (SCHEMA_STR F) |- _ => destruct H as [His _] end.
    match goal with H : plain_name (SUBJECT_STR F) |- _ => destruct H as [Hib _] end.
    rewrite (obj_set_append (CRYPTO_VERSION_STR F)); [|apply not_elem_of_nil|done].
    rewrite (obj_set_append (SCHEMA_STR F));
      [|csimpl; by intros [|[]%elem_of_nil]%elem_of_cons|done].
    rewrite (obj_set_append (SUBJECT_STR F));
      [|csimpl; by intros [|[|[]%elem_of_nil]%elem_of_cons]%elem_of_cons|done].
    csimpl.
    set (base := [(CRYPTO_VERSION_STR F, JStr (version c));
                  (SCHEMA_STR F, JStr (toJsonString (schema c)));
                  (SUBJECT_STR F, subject c)]).
    assert (∀ k, k ∈ (topLevelFields c).*1 → k ∉ Object_keys base) as Hbase.
    { intros k Hk Hin. apply (Hfresh k Hk). csimpl in Hin.
      rewrite !elem_of_cons in *. tauto. }
    rewrite foldl_js_assign_append by done.
    set (status := if is_undefined (credentialStatus c) then []
                   else [(STATUS_STR F, credentialStatus c)]).
    assert ((if is_undefined (credentialStatus c) then base ++ topLevelFields c
             else js_assign (STATUS_STR F) (credentialStatus c) (base ++ topLevelFields c))
            = base ++ topLevelFields c ++ status) as ->.
    { unfold status. destruct (is_undefined (credentialStatus c)).
      - by rewrite app_nil_r.
      - rewrite js_assign_append; [by rewrite <-app_assoc|done|].
        unfold Object_keys. rewrite fmap_app, elem_of_app. csimpl.
        rewrite !elem_of_cons. intros [[|[|[|[]%elem_of_nil]]]|Hin]; try done.
        apply (Hfresh _ Hin). rewrite !elem_of_cons. tauto. }
    assert (NoDup (Object_keys (base ++ topLevelFields c ++ status))) as Hall.
    { unfold Object_keys. rewrite !fmap_app. apply NoDup_app. split_and!.
      - csimpl. repeat (apply NoDup_cons; split; [set_solver|]). constructor.
      - intros k Hk. rewrite elem_of_app. intros [Hin|Hin].
        + by apply (Hbase k Hin).
        + unfold status in Hin. destruct (is_undefined (credentialStatus c));
            [by apply elem_of_nil in Hin|].
          apply list_elem_of_singleton in Hin. subst. csimpl in Hk.
          rewrite !elem_of_cons in Hk. destruct Hk as [|[|[|[]%elem_of_nil]]]; done.
      - apply NoDup_app. split_and!; [done| |].
        + intros k Hk Hin. unfold status in Hin.
          destruct (is_undefined (credentialStatus c)); [by apply elem_of_nil in Hin|].
          apply list_elem_of_singleton in Hin. subst.
          apply (Hfresh _ Hk). rewrite !elem_of_cons. tauto.
        + unfold status. destruct (is_undefined (credentialStatus c)); csimpl;
            [constructor | apply NoDup_singleton]. }
    rewrite serialize_proof_block by done. f_equal.
    assert (obj_get (PROOF_STR F) (base ++ topLevelFields c ++ status)
            = obj_get (PROOF_STR F) (topLevelFields c)) as Hget.
    { rewrite !obj_get_app.
      assert (obj_get (PROOF_STR F) base = None) as ->.
      { apply obj_get_None. csimpl. rewrite !elem_of_cons.
        intros [|[|[|[]%elem_of_nil]]]; done. }
      destruct (obj_get (PROOF_STR F) (topLevelFields c)); [done|].
      apply obj_get_None. unfold status. destruct (is_undefined (credentialStatus c)); csimpl.
      - apply not_elem_of_nil.
      - rewrite elem_of_cons. intros [|[]%elem_of_nil]; done. }
    rewrite Hget. unfold expected_serialization. fold base status.
    destruct (obj_get (PROOF_STR F) (topLevelFields c)) as [v|] eqn:Hproof.
    + rewrite decide_True.
      2:{ destruct (decide (PROOF_STR F ∈ (topLevelFields c).*1)) as [|Hno]; [done|].
          apply obj_get_None in Hno. congruence. }
      rewrite app_nil_r, !fmap_app. f_equal; [|f_equal].
      * apply set_value_absent. csimpl. rewrite !elem_of_cons.
        intros [|[|[|[]%elem_of_nil]]]; done.
      * apply list_fmap_ext. intros i [k' v'] Hi. unfold set_value. csimpl.
        case_decide; [|done]. subst. f_equal.
        apply list_elem_of_lookup_2 in Hi. apply obj_get_NoDup in Hi; [|done].
        congruence.
      * apply set_value_absent. unfold status.
        destruct (is_undefined (credentialStatus c)); csimpl.
        -- apply not_elem_of_nil.
        -- rewrite elem_of_cons. intros [|[]%elem_of_nil]; done.
    + rewrite decide_False by by apply obj_get_None.
      rewrite <-!app_assoc. do 2 f_equal.
      symmetry. etrans; [|apply list_fmap_id]. apply list_fmap_ext.
      intros i [k' v'] Hi. csimpl. case_decide; [|done]. subst.
      apply list_elem_of_lookup_2 in Hi. apply obj_get_NoDup in Hi; [|done]. congruence.
Qed.

End CredentialFacts.

Lemma serializeForSigning_correct_witness :
  let c := sample_credential
             [("issuer", JStr "did:example:1");
              ("proof", JObj false [("type", JStr "Bls12381BBSSignatureDock2023");
                                    ("proofValue", JStr "zABC")])]
             (JObj false [("id", JStr "registry-1")]) in
  serializeForSigning upstream_names upstream_proof_type c
  = Ok (expected_serialization upstream_names upstream_proof_type c).
Proof.
  intros c.
  apply (serializeForSigning_correct upstream_names upstream_proof_type c).
  - decide_goal.
  - decide_goal.
  - decide_goal.
  - decide_goal.
  - apply Forall_forall. decide_goal.
Defined.

(** C6, as stated, fails for a top-level field named like one of the tags: a
    field named like the status tag puts a status into the output of a
    credential that has no [credentialStatus], and a field named like the
    version tag replaces the version. *)
Lemma serializeForSigning_reserved_name :
  (∃ s, serializeForSigning upstream_names upstream_proof_type
          (sample_credential [("credentialStatus", JStr "none")] JUndefined) = Ok s
        ∧ STATUS_STR upstream_names ∈ Object_keys s
        ∧ @credentialStatus bytes
            (sample_credential [("credentialStatus", JStr "none")] JUndefined) = JUndefined)
  ∧ (∃ s, serializeForSigning upstream_names upstream_proof_type
            (sample_credential [("cryptoVersion", JStr "9.9.9")] JUndefined) = Ok s
          ∧ obj_get (CRYPTO_VERSION_STR upstream_names) s = Some (JStr "9.9.9")
          ∧ @version bytes (sample_credential [("cryptoVersion", JStr "9.9.9")] JUndefined)
            = "0.0.1").
Proof.
  split; eexists; (split; [by vm_compute|]); split; try done. decide_goal.
Qed.

Lemma sign_enforces_schema_witness :
  let b := sample_builder [("issuer", JStr "did:example:1")] in
  let cred := builder_serializeForSigning upstream_names b in
  (∃ schema, _schema b = Some schema
     ∧ (sign upstream_names sample_signMessageObject [] b [x01] None).1.2
       = [SignMessageObject cred [x01] (inr [])]
     ∧ (isThrow (sign upstream_names sample_signMessageObject [] b [x01] None).2
        ↔ isThrow (sample_signMessageObject cred [x01] (inr []) (encoder schema))))
  ∧ isThrow (sign upstream_names sample_signMessageObject [] (sample_builder []) [x01] None).2.
Proof.
  intros b cred. split.
  - apply (sign_enforces_schema upstream_names sample_signMessageObject [] b [x01] None).
    exists sample_schema. split; [done|]. by vm_compute.
  - apply (sign_enforces_schema upstream_names sample_signMessageObject []
             (sample_builder []) [x01] None).
    intros (schema & [= <-] & Hnames). by vm_compute in Hnames.
Defined.

(** ** The round trip through [unflatten] and [flatten] *)

(** *** Paths and keys *)

Lemma split_dot_nonempty s : split_dot s ≠ [].
Proof. destruct s as [|c s]; csimpl; [done|]. case_decide; [done|]. by destruct (split_dot s). Qed.

Lemma split_dot_app_dot s t : split_dot (s +:+ "." +:+ t) = split_dot s ++ split_dot t.
Proof.
  induction s as [|c s IH]; csimpl.
  - done.
  - change (String c s +:+ "." +:+ t) with (String c (s +:+ "." +:+ t)). csimpl.
    case_decide; [by rewrite IH|].
    rewrite IH. pose proof (split_dot_nonempty s) as Hs.
    by destruct (split_dot s).
Qed.

Lemma split_dot_dot_free s : dot_free s = true → split_dot s = [s].
Proof.
  induction s as [|c s IH]; csimpl; [done|]. case_decide; [done|].
  intros Hs. by rewrite IH.
Qed.

Lemma join_key_nonempty prev key : key ≠ "" → join_key prev key ≠ "".
Proof.
  intros Hkey. unfold join_key. case_decide; [done|]. by destruct prev.
Qed.

Lemma simple_segment_nonempty s : simple_segment s = true → s ≠ "".
Proof. intros Hs ->. by vm_compute in Hs. Qed.

Lemma simple_segment_dot_free s : simple_segment s = true → dot_free s = true.
Proof. unfold simple_segment. rewrite !andb_true_iff. tauto. Qed.

Lemma simple_segment_not_proto s : simple_segment s = true → s ≠ "__proto__".
Proof. intros Hs ->. by vm_compute in Hs. Qed.

Lemma digit_of_name_start c : is_name_start c = true → digit_of c = None.
Proof.
  unfold is_name_start, digit_of. rewrite bool_decide_eq_true. intros Hc.
  rewrite decide_False; [done|]. lia.
Qed.

Lemma simple_segment_key_name s : simple_segment s = true → key_name s = s.
Proof.
  unfold simple_segment. rewrite !andb_true_iff, orb_true_iff.
  intros [_ [Hid|Hcanon]]; unfold key_name, number_name.
  - destruct s as [|c s]; [done|]. unfold is_identifier_like in Hid.
    apply andb_true_iff in Hid as [Hc _]. unfold decimal_value. csimpl.
    by rewrite digit_of_name_start.
  - unfold is_canonical_integer in Hcanon. destruct s as [|c s]; [done|].
    destruct (decimal_value (String c s)) as [n|]; [|done]. csimpl.
    by apply bool_decide_eq_true in Hcanon as [-> _].
Qed.

Lemma split_dot_join_from prev p :
  prev ≠ "" → Forall (λ k, simple_segment k = true) p →
  split_dot (join_from prev p) = split_dot prev ++ p.
Proof.
  revert prev. induction p as [|k p IH]; intros prev Hprev Hp; csimpl.
  - by rewrite app_nil_r.
  - apply Forall_cons in Hp as [Hk Hp]. unfold join_from in *. rewrite IH; [|by apply join_key_nonempty, simple_segment_nonempty|done].
    unfold join_key. rewrite decide_False by done. rewrite split_dot_app_dot.
    rewrite (split_dot_dot_free k) by by apply simple_segment_dot_free.
    by rewrite <-app_assoc.
Qed.

Lemma split_dot_join p : simple_path p → split_dot (join_from "" p) = p.
Proof.
  intros [Hne Hp]. destruct p as [|k p]; [done|]. apply Forall_cons in Hp as [Hk Hp].
  change (join_from "" (k :: p)) with (join_from k p).
  rewrite split_dot_join_from; [|by apply simple_segment_nonempty|done].
  by rewrite split_dot_dot_free by by apply simple_segment_dot_free.
Qed.

Lemma join_from_inj p q :
  simple_path p → simple_path q → join_from "" p = join_from "" q → p = q.
Proof. intros Hp Hq Heq. by rewrite <-(split_dot_join p), <-(split_dot_join q), Heq. Qed.

Lemma join_from_not_proto p : simple_path p → join_from "" p ≠ "__proto__".
Proof.
  intros Hp Heq. pose proof (split_dot_join p Hp) as Hsplit. rewrite Heq in Hsplit.
  vm_compute in Hsplit. subst p. destruct Hp as [_ Hp].
  apply Forall_cons in Hp as [Hk _]. by vm_compute in Hk.
Qed.

(** *** Leaves *)

Lemma leaves_props_leaves (ps : Obj) :
  (fix leaves_props (ps : list (string * JsVal)) : list (list string * JsVal) :=
     match ps with
     | [] => []
     | (k, w) :: ps' => (prod_map (cons k) id <$> leaves_value w) ++ leaves_props ps'
     end) ps = leaves ps.
Proof. induction ps as [|[k w] ps IH]; [done|]. csimpl. by rewrite IH. Qed.

Lemma leaves_value_object isArray kv props :
  leaves_value (JObj isArray (kv :: props)) = leaves (kv :: props).
Proof. exact (leaves_props_leaves (kv :: props)). Qed.

Lemma leaves_value_leaf v : is_leaf v → leaves_value v = [([], v)].
Proof. by destruct v as [| | | | | |isArray [|kv props]]. Qed.

Lemma leaves_bind (o : Obj) :
  leaves o = o ≫= (λ kv, prod_map (cons kv.1) id <$> leaves_value kv.2).
Proof. induction o as [|[k w] o IH]; [done|]. csimpl. by rewrite IH. Qed.

Global Instance leaves_Permutation : Proper ((≡ₚ) ==> (≡ₚ)) leaves.
Proof. intros o1 o2 Ho. rewrite !leaves_bind. by rewrite Ho. Qed.

Lemma leaves_app (o1 o2 : Obj) : leaves (o1 ++ o2) = leaves o1 ++ leaves o2.
Proof. rewrite !leaves_bind. apply bind_app. Qed.

Lemma leaves_value_nonempty v : leaves_value v ≠ [].
Proof.
  induction v as [| | | | | |isArray props IH] using JsVal_nested_ind; try done.
  destruct props as [|[k w] props]; [done|]. rewrite leaves_value_object. csimpl.
  apply Forall_cons in IH as [Hw _]. csimpl in Hw. by destruct (leaves_value w).
Qed.

Lemma leaves_value_is_leaf v : Forall (λ pw, is_leaf pw.2) (leaves_value v).
Proof.
  induction v as [| | | | | |isArray props IH] using JsVal_nested_ind;
    try by repeat constructor.
  destruct props as [|kv props]; [by repeat constructor|].
  rewrite leaves_value_object. revert IH. generalize (kv :: props). clear.
  intros ps IH. induction IH as [|[k w] ps Hw _ IHps]; csimpl; [constructor|].
  apply Forall_app. split; [|done]. apply Forall_fmap.
  eapply Forall_impl; [exact Hw|]. by intros [q x].
Qed.

Lemma leaves_is_leaf (o : Obj) : Forall (λ pw, is_leaf pw.2) (leaves o).
Proof.
  induction o as [|[k w] o IH]; csimpl; [constructor|].
  apply Forall_app. split; [|done]. apply Forall_fmap.
  eapply Forall_impl; [apply leaves_value_is_leaf|]. by intros [q x].
Qed.

(** Every property contributes a leaf below its own name. *)
Lemma leaves_of_entry k w (o : Obj) :
  (k, w) ∈ o → ∃ q x, (k :: q, x) ∈ leaves o.
Proof.
  intros Hin. pose proof (leaves_value_nonempty w) as Hw.
  destruct (leaves_value w) as [|[q x] l] eqn:Hl; [done|]. exists q, x.
  rewrite leaves_bind. apply list_elem_of_bind. exists (k, w). split; [|done].
  csimpl. rewrite Hl. csimpl. left.
Qed.

Lemma leaves_leaf_entry k w (o : Obj) :
  (k, w) ∈ o → is_leaf w → ([k], w) ∈ leaves o.
Proof.
  intros Hin Hw. rewrite leaves_bind. apply list_elem_of_bind. exists (k, w).
  split; [|done]. csimpl. rewrite leaves_value_leaf by done. csimpl. left.
Qed.

(** *** [flatten] assigns the leaves in order *)

Lemma assign_leaves_app prev l1 l2 out :
  assign_leaves prev (l1 ++ l2) out = assign_leaves prev l2 (assign_leaves prev l1 out).
Proof. apply foldl_app. Qed.

Lemma assign_leaves_cons_path prev k l out :
  assign_leaves prev (prod_map (cons k) id <$> l) out
  = assign_leaves (join_key prev k) l out.
Proof. unfold assign_leaves. rewrite foldl_fmap. done. Qed.

Lemma step_value_leaves value : ∀ newKey output,
  step_value newKey value output = assign_leaves newKey (leaves_value value) output.
Proof.
  induction value as [| | | | | |isArray props IH] using JsVal_nested_ind;
    intros newKey output; try done.
  destruct props as [|kv props]; [done|].
  rewrite step_value_object, leaves_value_object. revert IH output.
  generalize (kv :: props). clear kv props. intros ps IH.
  induction IH as [|[k w] ps Hw _ IHps]; intros output; csimpl; [done|].
  rewrite assign_leaves_app, assign_leaves_cons_path, IHps. f_equal. apply Hw.
Qed.

Lemma step_leaves object prev output :
  step object prev output = assign_leaves prev (leaves object) output.
Proof.
  revert output. induction object as [|[k w] object IH]; intros output; csimpl; [done|].
  by rewrite assign_leaves_app, assign_leaves_cons_path, IH, step_value_leaves.
Qed.

Lemma flatten_leaves target : flatten target = assign_leaves "" (leaves target) [].
Proof. apply step_leaves. Qed.

(** Assigning entries with distinct new names adds exactly those entries. *)
Lemma assign_entries_Permutation {A} (f : A → string) (g : A → JsVal) (l : list A) :
  ∀ out : Obj,
  NoDup (Object_keys out ++ (f <$> l)) → "__proto__" ∉ f <$> l →
  foldl (λ out x, js_assign (f x) (g x) out) out l ≡ₚ out ++ ((λ x, (f x, g x)) <$> l).
Proof.
  induction l as [|x l IH]; intros out Hnd Hproto; csimpl in *.
  - by rewrite app_nil_r.
  - apply not_elem_of_cons in Hproto as [Hx Hproto].
    apply NoDup_app in Hnd as (Hout & Hdisj & Hl). apply NoDup_cons in Hl as [Hxl Hl].
    assert (f x ∉ Object_keys out) as Hfresh.
    { intros Hin. apply (Hdisj _ Hin). left. }
    unfold js_assign at 2. rewrite decide_False by done.
    rewrite IH; [| |done].
    + rewrite (obj_set_keys_fresh _ _ _ Hfresh). csimpl. apply Permutation_middle.
    + unfold Object_keys. rewrite (obj_set_keys_fresh _ _ _ Hfresh). csimpl.
      apply NoDup_cons. split.
      * rewrite elem_of_app. intros [|]; done.
      * apply NoDup_app. split_and!; [done| |done].
        intros k Hk Hkl. apply (Hdisj k Hk). by right.
Qed.

(** *** Simple objects *)

Lemma simple_props_Forall (ps : Obj) :
  (fix simple_props (ps : list (string * JsVal)) : bool :=
     match ps with
     | [] => true
     | (k, w) :: ps' => simple_segment k && simple_value w && simple_props ps'
     end) ps = true
  ↔ Forall (λ kv, simple_segment kv.1 = true ∧ simple_value kv.2 = true) ps.
Proof.
  induction ps as [|[k w] ps IH]; csimpl.
  - split; [constructor|done].
  - rewrite !andb_true_iff, IH, Forall_cons. csimpl. tauto.
Qed.

Lemma simple_value_object isArray (ps : Obj) :
  simple_value (JObj isArray ps) = true
  ↔ NoDup (Object_keys ps)
    ∧ Forall (λ kv, simple_segment kv.1 = true ∧ simple_value kv.2 = true) ps.
Proof.
  csimpl. rewrite andb_true_iff, bool_decide_eq_true. by rewrite simple_props_Forall.
Qed.

Lemma simple_object_iff (o : Obj) :
  simple_object o = true
  ↔ NoDup (Object_keys o)
    ∧ Forall (λ kv, simple_segment kv.1 = true ∧ simple_value kv.2 = true) o.
Proof. apply simple_value_object. Qed.

Lemma simple_value_leaf v : is_leaf v → simple_value v = true.
Proof.
  by destruct v as [| | | | | |isArray [|kv ps]].
Qed.

Lemma simple_object_Permutation (o1 o2 : Obj) :
  o1 ≡ₚ o2 → simple_object o1 = true → simple_object o2 = true.
Proof.
  intros Hperm. rewrite !simple_object_iff. unfold Object_keys. by rewrite Hperm.
Qed.

(** *** Independent paths *)

Lemma independent_sym p q : independent p q → independent q p.
Proof. unfold independent. tauto. Qed.

Lemma independent_cons k p q : independent (k :: p) (k :: q) ↔ independent p q.
Proof.
  unfold independent. split; intros [H1 H2]; split; intros Hpre.
  - by apply H1, prefix_cons.
  - by apply H2, prefix_cons.
  - apply H1. by apply prefix_cons_inv_2 in Hpre.
  - apply H2. by apply prefix_cons_inv_2 in Hpre.
Qed.

Lemma independent_heads k k' p q : k ≠ k' → independent (k :: p) (k' :: q).
Proof.
  intros Hne. split; intros Hpre; apply prefix_cons_inv_1 in Hpre; congruence.
Qed.

Lemma not_independent_singleton k q : ¬ independent [k] (k :: q).
Proof. intros [Hpre _]. apply Hpre. apply prefix_cons, prefix_nil. Qed.

Lemma leaves_head p x (o : Obj) :
  (p, x) ∈ leaves o → ∃ k q, p = k :: q ∧ k ∈ Object_keys o.
Proof.
  rewrite leaves_bind. intros ([k w] & Hin & Hkw)%list_elem_of_bind. csimpl in Hin.
  apply list_elem_of_fmap in Hin as ([q y] & [= -> ->] & _).
  exists k, q. split; [done|]. apply list_elem_of_fmap. by exists (k, w).
Qed.

(** The leaf paths of a simple object are simple, distinct and pairwise
    independent. *)
Lemma simple_value_leaves v :
  simple_value v = true →
  Forall (Forall (λ k, simple_segment k = true)) (leaves_value v).*1
  ∧ NoDup (leaves_value v).*1 ∧ antichain (leaves_value v).*1.
Proof.
  induction v as [| | | | | |isArray props IH] using JsVal_nested_ind; intros Hv;
    try (split_and!; [by repeat constructor | by apply NoDup_singleton |
                      by intros p q ->%list_elem_of_singleton ->%list_elem_of_singleton; left]).
  destruct props as [|kv props];
    [split_and!; [by repeat constructor | by apply NoDup_singleton |
                  by intros p q ->%list_elem_of_singleton ->%list_elem_of_singleton; left]|].
  rewrite leaves_value_object. apply simple_value_object in Hv as [Hnd Hall].
  revert IH Hnd Hall. generalize (kv :: props). clear kv props. intros ps IH.
  induction IH as [|[k w] ps Hw _ IHps]; intros Hnd Hall.
  { split_and!; [constructor | constructor | by intros p q ?%elem_of_nil]. }
  unfold Object_keys in Hnd. csimpl in Hnd. apply NoDup_cons in Hnd as [Hk Hnd].
  apply Forall_cons in Hall as [[Hsk Hsw] Hall]. csimpl in *.
  destruct (Hw Hsw) as (Hw1 & Hw2 & Hw3). destruct (IHps Hnd Hall) as (Hp1 & Hp2 & Hp3).
  rewrite fmap_app, <-!list_fmap_compose.
  assert (∀ p, p ∈ (fst ∘ prod_map (cons k) id <$> leaves_value w)
               ↔ ∃ q, p = k :: q ∧ q ∈ (leaves_value w).*1) as Hfirst.
  { intros p. rewrite list_elem_of_fmap. split.
    - intros ([q x] & -> & Hin). exists q. split; [done|].
      apply list_elem_of_fmap. by exists (q, x).
    - intros (q & -> & ([q' x] & -> & Hin)%list_elem_of_fmap). by exists (q', x). }
  assert (∀ p, p ∈ (leaves ps).*1 → ∃ k' q, p = k' :: q ∧ k' ≠ k) as Hrest.
  { intros p ([p' x] & -> & Hin)%list_elem_of_fmap.
    apply leaves_head in Hin as (k' & q & -> & Hk'). exists k', q. split; [done|].
    intros ->. by apply Hk. }
  split_and!.
  - apply Forall_app. split; [|done]. apply Forall_forall. intros p (q & -> & Hq)%Hfirst.
    apply Forall_cons. split; [done|]. rewrite Forall_forall in Hw1. by apply Hw1.
  - apply NoDup_app. split_and!; [|intros p (q & -> & Hq)%Hfirst|done].
    + replace (fst ∘ prod_map (cons k) id <$> leaves_value w)
        with (cons k <$> (leaves_value w).*1).
      * by apply (NoDup_fmap_2 _).
      * rewrite <-list_fmap_compose. by apply list_fmap_ext.
    + intros (k' & q' & [= -> ->] & Hne)%Hrest. done.
  - intros p q. rewrite !elem_of_app.
    intros [(p' & -> & Hp')%Hfirst|Hp] [(q' & -> & Hq')%Hfirst|Hq].
    + destruct (Hw3 p' q' Hp' Hq') as [->|Hind]; [by left|]. right.
      by apply independent_cons.
    + apply Hrest in Hq as (k' & q' & -> & Hne). right. by apply independent_heads.
    + apply Hrest in Hp as (k' & p' & -> & Hne). right. by apply independent_heads.
    + by apply Hp3.
Qed.

Lemma simple_object_leaves (o : Obj) :
  simple_object o = true →
  Forall simple_path (leaves o).*1 ∧ NoDup (leaves o).*1 ∧ antichain (leaves o).*1.
Proof.
  intros Ho. destruct o as [|kv o].
  { split_and!; [constructor | constructor | by intros p q ?%elem_of_nil]. }
  pose proof (simple_value_leaves (JObj false (kv :: o)) Ho) as (H1 & H2 & H3).
  rewrite leaves_value_object in *. split_and!; [|done|done].
  apply Forall_forall. intros p Hp. split.
  - apply list_elem_of_fmap in Hp as ([p' x] & -> & Hin).
    by apply leaves_head in Hin as (k & q & -> & _).
  - rewrite Forall_forall in H1. by apply H1.
Qed.

(** *** Inserting a path into the object [unflatten] builds *)

Lemma replace_entry_Permutation k old new (o o' : Obj) :
  NoDup (Object_keys o) → o ≡ₚ (k, old) :: o' →
  obj_set k new o ≡ₚ (k, new) :: o'.
Proof.
  intros Hnd Hperm.
  assert (k ∉ Object_keys o') as Hk.
  { unfold Object_keys in *. rewrite Hperm in Hnd. csimpl in Hnd.
    by apply NoDup_cons in Hnd as [? _]. }
  rewrite obj_set_update; [|done|].
  - rewrite Hperm. csimpl. unfold set_value at 1. csimpl. rewrite decide_True by done.
    by rewrite set_value_absent.
  - unfold Object_keys. rewrite Hperm. csimpl. left.
Qed.

Lemma leaves_cons k w (o : Obj) :
  leaves ((k, w) :: o) = (prod_map (cons k) id <$> leaves_value w) ++ leaves o.
Proof. done. Qed.

Lemma leaves_value_props isArray (props : Obj) :
  props ≠ [] → leaves_value (JObj isArray props) = leaves props.
Proof. destruct props as [|kv props]; [done|]. intros _. apply leaves_value_object. Qed.

Lemma insert_path_leaves rest : ∀ k v (T : Obj),
  simple_object T = true →
  simple_segment k = true → Forall (λ k, simple_segment k = true) rest → is_leaf v →
  (∀ q, q ∈ (leaves T).*1 → independent (k :: rest) q) →
  simple_object (insert_path k rest v T) = true
  ∧ leaves (insert_path k rest v T) ≡ₚ (k :: rest, v) :: leaves T.
Proof.
  induction rest as [|k2 rest IH]; intros k v T HT Hk Hrest Hv Hind.
  - csimpl. rewrite (simple_segment_key_name k Hk). unfold js_assign.
    rewrite decide_False by by apply simple_segment_not_proto.
    assert (k ∉ Object_keys T) as Hfresh.
    { intros ([k' w] & -> & Hin)%list_elem_of_fmap.
      destruct (leaves_of_entry _ _ _ Hin) as (q & x & Hq).
      apply (not_independent_singleton k' q). apply Hind.
      apply list_elem_of_fmap. by exists (k' :: q, x). }
    pose proof (obj_set_keys_fresh k v T Hfresh) as Hperm. split.
    + apply (simple_object_Permutation ((k, v) :: T)); [done|].
      apply simple_object_iff in HT as [Hnd Hall]. apply simple_object_iff. split.
      * unfold Object_keys. csimpl. by apply NoDup_cons.
      * apply Forall_cons. split; [|done]. split; [done|by apply simple_value_leaf].
    + rewrite Hperm. csimpl. by rewrite leaves_value_leaf.
  - apply Forall_cons in Hrest as [Hk2 Hrest].
    cbn [insert_path]. rewrite (simple_segment_key_name k Hk).
    rewrite decide_False by by apply simple_segment_not_proto.
    pose proof HT as HT'. apply simple_object_iff in HT' as [Hnd Hall].
    destruct (obj_get k T) as [x|] eqn:Hget.
    + pose proof (obj_get_Some_elem _ _ _ Hget) as Hin.
      assert (¬ is_leaf x) as Hx.
      { intros Hleaf. apply (not_independent_singleton k (k2 :: rest)).
        apply independent_sym, Hind. apply list_elem_of_fmap. exists ([k], x).
        split; [done|]. by apply leaves_leaf_entry. }
      destruct x as [| | | | | |isArray [|e ps]]; try (by exfalso; apply Hx).
      apply elem_of_Permutation in Hin as [T' HT'].
      assert (simple_object (e :: ps) = true) as Hsub.
      { rewrite Forall_forall in Hall.
        destruct (Hall (k, JObj isArray (e :: ps))) as [_ Hs].
        - rewrite HT'. left.
        - exact Hs. }
      destruct (IH k2 v (e :: ps) Hsub Hk2 Hrest Hv) as [Hs Hl].
      { intros q ([q' y] & -> & Hq)%list_elem_of_fmap. apply (independent_cons k).
        apply Hind. apply list_elem_of_fmap. exists (k :: q', y). split; [done|].
        rewrite HT', leaves_cons, leaves_value_object. apply elem_of_app. left.
        apply list_elem_of_fmap. by exists (q', y). }
      set (sub := insert_path k2 rest v (e :: ps)) in *.
      assert (sub ≠ []) as Hne.
      { intros Hnil. rewrite Hnil in Hl. by apply Permutation_nil_cons in Hl. }
      pose proof (replace_entry_Permutation k _ (JObj isArray sub) T T' Hnd HT') as Hperm.
      split.
      * apply (simple_object_Permutation ((k, JObj isArray sub) :: T')); [done|].
        apply simple_object_iff. split.
        -- unfold Object_keys in *. rewrite HT' in Hnd. done.
        -- rewrite HT' in Hall. apply Forall_cons in Hall as [[? _] Hall].
           apply Forall_cons. split; [|done]. split; [done|].
           apply simple_value_object. by apply simple_object_iff.
      * rewrite Hperm, HT', !leaves_cons, leaves_value_object.
        rewrite (leaves_value_props _ _ Hne), Hl, fmap_cons. done.
    + assert (k ∉ Object_keys T) as Hfresh by by apply obj_get_None.
      destruct (IH k2 v [] eq_refl Hk2 Hrest Hv) as [Hs Hl].
      { by intros q ?%elem_of_nil. }
      set (sub := insert_path k2 rest v []) in *.
      assert (sub ≠ []) as Hne.
      { intros Hnil. rewrite Hnil in Hl. by apply Permutation_nil_cons in Hl. }
      pose proof (obj_set_keys_fresh k (JObj (key_is_number k2) sub) T Hfresh) as Hperm.
      split.
      * apply (simple_object_Permutation ((k, JObj (key_is_number k2) sub) :: T)); [done|].
        apply simple_object_iff. split.
        -- unfold Object_keys. csimpl. by apply NoDup_cons.
        -- apply Forall_cons. split; [|done]. split; [done|].
           apply simple_value_object. by apply simple_object_iff.
      * rewrite Hperm, leaves_cons, (leaves_value_props _ _ Hne), Hl. done.
Qed.

Lemma insert_entries_leaves (E : Obj) : ∀ T : Obj,
  simple_object T = true →
  Forall (λ kv, simple_path (split_dot kv.1) ∧ is_leaf kv.2) E →
  NoDup ((leaves T).*1 ++ (split_dot ∘ fst <$> E)) →
  antichain ((leaves T).*1 ++ (split_dot ∘ fst <$> E)) →
  simple_object (foldl insert_entry T E) = true
  ∧ leaves (foldl insert_entry T E) ≡ₚ leaves T ++ ((λ kv, (split_dot kv.1, kv.2)) <$> E).
Proof.
  induction E as [|[n v] E IH]; intros T HT HE Hnd Hanti; csimpl.
  - by rewrite app_nil_r.
  - apply Forall_cons in HE as [[[Hne Hpath] Hv] HE]. csimpl in *.
    unfold insert_entry at 2 4. csimpl.
    destruct (split_dot n) as [|k rest] eqn:Hsplit; [done|].
    apply Forall_cons in Hpath as [Hk Hrest].
    destruct (insert_path_leaves rest k v T HT Hk Hrest Hv) as [Hs Hl].
    { intros q Hq. destruct (Hanti (k :: rest) q) as [<-|Hind]; [| |exfalso|done].
      - apply elem_of_app. right. left.
      - apply elem_of_app. by left.
      - apply NoDup_app in Hnd as (_ & Hdisj & _). apply (Hdisj _ Hq). left. }
    assert ((leaves (insert_path k rest v T)).*1 ++ (split_dot ∘ fst <$> E)
            ≡ₚ (leaves T).*1 ++ (k :: rest) :: (split_dot ∘ fst <$> E)) as Hperm.
    { rewrite Hl. csimpl. by rewrite Permutation_middle. }
    destruct (IH (insert_path k rest v T) Hs HE) as [Hs' Hl'].
    + by rewrite Hperm.
    + intros p q Hp Hq. apply Hanti; by rewrite <-Hperm.
    + split; [done|]. rewrite Hl', Hl. csimpl. by rewrite Permutation_middle.
Qed.

(** *** [flatten] after [unflatten] *)

Lemma unflatten_prepare_leaves (target : Obj) :
  Forall (λ kv, is_leaf kv.2) target →
  unflatten_prepare target = foldl (λ result kv, js_assign kv.1 kv.2 result) [] target.
Proof.
  unfold unflatten_prepare. generalize (@nil (string * JsVal)).
  induction target as [|[k v] target IH]; intros acc Hall; csimpl; [done|].
  apply Forall_cons in Hall as [Hv Hall]. rewrite <-IH by done. f_equal.
  destruct v as [| | | | | |isArray [|e ps]]; try done. by destruct isArray.
Qed.

Lemma unflatten_insert_entries (target : Obj) :
  unflatten target = foldl insert_entry [] (unflatten_prepare target).
Proof. done. Qed.

Lemma fmap_pair_id (o : Obj) : (λ kv, (kv.1, kv.2)) <$> o = o.
Proof. etrans; [|apply list_fmap_id]. apply list_fmap_ext. by intros i [k v] _. Qed.

Lemma antichain_Permutation l1 l2 : l1 ≡ₚ l2 → antichain l1 → antichain l2.
Proof. intros Hperm Hanti p q Hp Hq. apply Hanti; by rewrite Hperm. Qed.

Lemma flatten_unflatten (target : Obj) :
  restorable target → flatten (unflatten target) ≡ₚ target.
Proof.
  intros (Hnd & Hall & Hanti).
  assert ("__proto__" ∉ Object_keys target) as Hproto.
  { intros ([k v] & Hk & Hin)%list_elem_of_fmap. csimpl in Hk. subst k.
    rewrite Forall_forall in Hall. destruct (Hall _ Hin) as (_ & Hpath & Hjoin).
    csimpl in *. by apply (join_from_not_proto _ Hpath). }
  assert (unflatten_prepare target ≡ₚ target) as Hprep.
  { rewrite unflatten_prepare_leaves.
    - rewrite (assign_entries_Permutation fst snd target []); [|done|done].
      csimpl. by rewrite fmap_pair_id.
    - eapply Forall_impl; [exact Hall|]. by intros kv (? & _). }
  set (E := unflatten_prepare target) in *.
  assert (split_dot ∘ fst <$> E ≡ₚ split_dot <$> Object_keys target) as Hpaths.
  { rewrite Hprep. unfold Object_keys. by rewrite <-list_fmap_compose. }
  assert (∀ m n : string, m ∈ Object_keys target → n ∈ Object_keys target →
            split_dot m = split_dot n → m = n) as Hinj.
  { rewrite Forall_forall in Hall.
    intros m n ([m' v] & -> & Hm)%list_elem_of_fmap ([n' w] & -> & Hn)%list_elem_of_fmap.
    csimpl. intros Heq. destruct (Hall _ Hm) as (_ & _ & Hjm).
    destruct (Hall _ Hn) as (_ & _ & Hjn). csimpl in *.
    by rewrite <-Hjm, <-Hjn, Heq. }
  destruct (insert_entries_leaves E []) as [HT Hl].
  - done.
  - rewrite Hprep. eapply Forall_impl; [exact Hall|]. by intros kv (? & ? & _).
  - csimpl. rewrite Hpaths. by apply NoDup_fmap_2_strong.
  - csimpl. by apply (antichain_Permutation _ _ (symmetry Hpaths)).
  - rewrite unflatten_insert_entries. fold E. set (T := foldl insert_entry [] E) in *.
    csimpl in Hl.
    assert ((λ pw : list string * JsVal, (join_from "" pw.1, pw.2)) <$> leaves T ≡ₚ target)
      as Hback.
    { rewrite Hl, <-list_fmap_compose, Hprep.
      rewrite <-(list_fmap_id target) at 2.
      apply reflexive_eq, list_fmap_ext. intros i [k v] Hi. csimpl.
      rewrite Forall_forall in Hall. apply list_elem_of_lookup_2 in Hi.
      destruct (Hall _ Hi) as (_ & _ & Hj). csimpl in Hj. by rewrite Hj. }
    rewrite flatten_leaves. unfold assign_leaves.
    rewrite (assign_entries_Permutation (λ pw, join_from "" pw.1) snd (leaves T) []).
    + done.
    + csimpl. replace ((λ pw : list string * JsVal, join_from "" pw.1) <$> leaves T)
        with (((λ pw : list string * JsVal, (join_from "" pw.1, pw.2)) <$> leaves T).*1).
      * unfold Object_keys in Hnd. by rewrite Hback.
      * by rewrite <-list_fmap_compose.
    + replace ((λ pw : list string * JsVal, join_from "" pw.1) <$> leaves T)
        with (((λ pw : list string * JsVal, (join_from "" pw.1, pw.2)) <$> leaves T).*1).
      * unfold Object_keys in Hproto. by rewrite Hback.
      * by rewrite <-list_fmap_compose.
Qed.

(** *** The flattened form of a simple object *)

Lemma flatten_simple (o : Obj) :
  simple_object o = true →
  flatten o ≡ₚ (λ pw, (join_from "" pw.1, pw.2)) <$> leaves o.
Proof.
  intros Ho. destruct (simple_object_leaves o Ho) as (Hpaths & Hnd & _).
  rewrite flatten_leaves. unfold assign_leaves.
  assert ((λ pw : list string * JsVal, join_from "" pw.1) <$> leaves o
          = join_from "" <$> (leaves o).*1) as Hkeys by by rewrite <-list_fmap_compose.
  rewrite (assign_entries_Permutation (λ pw, join_from "" pw.1) snd (leaves o) []).
  - done.
  - csimpl. rewrite Hkeys. apply NoDup_fmap_2_strong; [|done].
    rewrite Forall_forall in Hpaths. intros p q Hp Hq. apply join_from_inj; auto.
  - rewrite Hkeys. intros (p & Hp & Hin)%list_elem_of_fmap.
    rewrite Forall_forall in Hpaths. by apply (join_from_not_proto p (Hpaths _ Hin)).
Qed.

Lemma flatten_simple_entry (o : Obj) n v :
  simple_object o = true → (n, v) ∈ flatten o →
  is_leaf v ∧ simple_path (split_dot n) ∧ join_from "" (split_dot n) = n
  ∧ split_dot n ∈ (leaves o).*1.
Proof.
  intros Ho Hin. rewrite (flatten_simple o Ho) in Hin.
  apply list_elem_of_fmap in Hin as ([p w] & [= -> ->] & Hin). csimpl.
  destruct (simple_object_leaves o Ho) as (Hpaths & _ & _).
  assert (p ∈ (leaves o).*1) as Hp by (apply list_elem_of_fmap; by exists (p, w)).
  rewrite Forall_forall in Hpaths. pose proof (Hpaths _ Hp) as Hsimple.
  rewrite (split_dot_join p Hsimple). split_and!; [|done|done|done].
  pose proof (leaves_is_leaf o) as Hleaf. rewrite Forall_forall in Hleaf.
  by apply (Hleaf (p, w)).
Qed.

Lemma collect_raw_Permutation (flattened : Obj) (revealedMsgNames : list string) :
  NoDup revealedMsgNames → "__proto__" ∉ revealedMsgNames →
  collect_raw flattened revealedMsgNames
  ≡ₚ (λ n, (n, js_get n flattened)) <$> revealedMsgNames.
Proof.
  intros Hnd Hproto. unfold collect_raw.
  rewrite (assign_entries_Permutation id (λ n, js_get n flattened) revealedMsgNames []).
  - done.
  - csimpl. by rewrite list_fmap_id.
  - by rewrite list_fmap_id.
Qed.

Lemma collect_raw_restorable (o : Obj) (revealedMsgNames : list string) :
  simple_object o = true → NoDup revealedMsgNames →
  (∀ n, n ∈ revealedMsgNames → n ∈ Object_keys (flatten o)) →
  collect_raw (flatten o) revealedMsgNames
  ≡ₚ (λ n, (n, js_get n (flatten o))) <$> revealedMsgNames
  ∧ restorable (collect_raw (flatten o) revealedMsgNames).
Proof.
  intros Ho Hnd Hsub.
  assert (∀ n, n ∈ revealedMsgNames → (n, js_get n (flatten o)) ∈ flatten o) as Hentry.
  { intros n Hn. apply Hsub in Hn. unfold js_get.
    destruct (obj_get n (flatten o)) as [v|] eqn:Hget.
    - by apply obj_get_Some_elem.
    - by apply obj_get_None in Hget. }
  assert ("__proto__" ∉ revealedMsgNames) as Hproto.
  { intros Hin. apply Hentry in Hin.
    destruct (flatten_simple_entry o _ _ Ho Hin) as (_ & Hpath & Hjoin & _).
    by apply (join_from_not_proto _ Hpath). }
  pose proof (collect_raw_Permutation (flatten o) revealedMsgNames Hnd Hproto) as Hperm.
  split; [done|].
  set (raw := collect_raw (flatten o) revealedMsgNames) in *.
  assert (Object_keys raw ≡ₚ revealedMsgNames) as Hkeys.
  { unfold Object_keys. rewrite Hperm, <-list_fmap_compose.
    rewrite <-(list_fmap_id revealedMsgNames) at 2.
    by apply reflexive_eq, list_fmap_ext. }
  assert (∀ kv, kv ∈ raw → kv.1 ∈ revealedMsgNames ∧ kv ∈ flatten o) as Hraw.
  { intros kv Hin. rewrite Hperm in Hin.
    apply list_elem_of_fmap in Hin as (n & -> & Hn). split; [done|by apply Hentry]. }
  split_and!.
  - by rewrite Hkeys.
  - apply Forall_forall. intros [n v] Hin. destruct (Hraw _ Hin) as [_ Hflat].
    destruct (flatten_simple_entry o _ _ Ho Hflat) as (? & ? & ? & _). done.
  - destruct (simple_object_leaves o Ho) as (_ & _ & Hanti).
    intros p q (m & -> & Hm)%list_elem_of_fmap (n & -> & Hn)%list_elem_of_fmap.
    rewrite Hkeys in Hm, Hn.
    destruct (flatten_simple_entry o _ _ Ho (Hentry m Hm)) as (_ & _ & _ & Hpm).
    destruct (flatten_simple_entry o _ _ Ho (Hentry n Hn)) as (_ & _ & _ & Hpn).
    by apply Hanti.
Qed.

(** *** [encodeRevealedMsgs] *)

Section RoundTrip.
Variable encodeMessage : string → JsVal → Result bytes.

(** The loop of [encodeRevealedMsgs] over entries whose names are all in
    [names] and whose values the encoder accepts. *)
Lemma encodeRevealedMsgs_loop (names : list string) : ∀ (entries : Obj) (revealed0 : JsMap nat bytes),
  NoDup names → NoDup (Object_keys entries) → NoDup revealed0.*1 →
  Forall (λ kv, kv.1 ∈ names ∧ ¬ isThrow (encodeMessage kv.1 kv.2)) entries →
  ∃ revealed,
    foldM (λ revealed '(n, v),
             match indexOf n names with
             | None => Throw (name_not_found n)
             | Some i => e ← encodeMessage n v; Ok (map_set i e revealed)
             end) entries revealed0 = Ok revealed
    ∧ NoDup revealed.*1
    ∧ ∀ i, map_get i revealed =
           match names !! i with
           | Some n =>
               match obj_get n entries with
               | Some v => match encodeMessage n v with Ok e => Some e | Throw _ => None end
               | None => map_get i revealed0
               end
           | None => map_get i revealed0
           end.
Proof.
  induction entries as [|[n v] entries IH]; intros revealed0 Hnames Hnd H0 Hall.
  - exists revealed0. split_and!; [done..|]. intros i. by destruct (names !! i).
  - apply Forall_cons in Hall as [[Hn Henc] Hall]. csimpl in *.
    apply NoDup_cons in Hnd as [Hfresh Hnd].
    destruct (indexOf n names) as [i0|] eqn:Hidx; [|by apply indexOf_None in Hidx].
    destruct (encodeMessage n v) as [e|m] eqn:He; [|by destruct Henc].
    csimpl.
    destruct (IH (map_set i0 e revealed0)) as (revealed & Hfold & Hkeys & Hget);
      [done|done|by apply map_set_NoDup|done|].
    exists revealed. split_and!; [done..|]. intros i. rewrite Hget.
    pose proof (indexOf_Some _ _ _ Hidx) as Hi0.
    destruct (names !! i) as [n'|] eqn:Hi.
    + destruct (decide (n' = n)) as [->|Hne].
      * assert (i = i0) as -> by exact (NoDup_lookup names i i0 n Hnames Hi Hi0).
        rewrite decide_True by done.
        assert (obj_get n entries = None) as -> by by apply obj_get_None.
        rewrite He. by rewrite map_get_set, decide_True.
      * rewrite decide_False by done.
        destruct (obj_get n' entries); [done|].
        rewrite map_get_set, decide_False; [done|]. intros <-. congruence.
    + rewrite map_get_set, decide_False; [done|]. intros <-. congruence.
Qed.

Lemma obj_get_Permutation (o1 o2 : Obj) k :
  NoDup (Object_keys o1) → o1 ≡ₚ o2 → obj_get k o1 = obj_get k o2.
Proof.
  intros Hnd Hperm.
  assert (NoDup (Object_keys o2)) as Hnd2 by (unfold Object_keys in *; by rewrite <-Hperm).
  destruct (obj_get k o1) as [v|] eqn:H1.
  - symmetry. apply obj_get_NoDup; [done|]. rewrite <-Hperm. by apply obj_get_Some_elem.
  - symmetry. apply obj_get_None. apply obj_get_None in H1.
    unfold Object_keys in *. by rewrite <-Hperm.
Qed.

Lemma obj_get_tabulate (g : string → JsVal) (l : list string) k :
  obj_get k ((λ n, (n, g n)) <$> l) = if decide (k ∈ l) then Some (g k) else None.
Proof.
  induction l as [|n l IH]; csimpl.
  - destruct (decide (k ∈ [])) as [Hin|]; [by apply not_elem_of_nil in Hin|done].
  - destruct (decide (n = k)) as [->|Hne].
    + by rewrite decide_True by left.
    + rewrite IH. destruct (decide (k ∈ l)) as [Hin|Hnin].
      * by rewrite decide_True by by right.
      * rewrite decide_False; [done|]. rewrite elem_of_cons. naive_solver.
Qed.

(** C3, as amended: for an object whose property names are, at every level,
    distinct and simple (free of dots, not the name of a prototype member,
    identifier-like or a canonical integer), valid under the message
    structure, and a set of revealed names that [getRevealedAndUnrevealed]
    accepts, [encodeRevealedMsgs] on the returned raw messages returns a map
    with the same indices and the same encoded values as the revealed map. *)
Theorem encodeRevealedMsgs_roundtrip (messages : Obj) (msgStructure : MessageStructure)
    (revealedMsgNames : list string)
    (revealedMsgs unrevealedMsgs : JsMap nat bytes) (revealedMsgsRaw : Obj) :
  simple_object messages = true →
  NoDup revealedMsgNames →
  isValidMsgStructure messages msgStructure = true →
  getRevealedAndUnrevealed encodeMessage messages revealedMsgNames
  = Ok (revealedMsgs, unrevealedMsgs, revealedMsgsRaw) →
  ∃ revealed,
    encodeRevealedMsgs encodeMessage revealedMsgsRaw msgStructure = Ok revealed
    ∧ NoDup revealed.*1
    ∧ ∀ i, map_get i revealed = map_get i revealedMsgs.
Proof.
  intros Hsimple HR Hvalid Hcall.
  destruct (getRevealedAndUnrevealed_Ok_encoded _ _ _ _ Hcall) as [encodedValues Henc].
  set (flattened := flatten messages) in *.
  set (names := sort_names (Object_keys flattened)) in *.
  destruct (getRevealedAndUnrevealed_outcome encodeMessage _ _ _ _ HR Henc)
    as (r & u & Hout & _ & _ & Hr & _).
  rewrite Hcall in Hout. fold flattened in Hout.
  destruct (decide (filter (λ n, n ∉ Object_keys flattened) revealedMsgNames = []))
    as [Hnil|]; [|done].
  injection Hout as -> -> ->.
  assert (∀ n, n ∈ revealedMsgNames → n ∈ Object_keys flattened) as Hsub.
  { intros n Hn. destruct (decide (n ∈ Object_keys flattened)) as [|Hnot]; [done|].
    assert (n ∈ filter (λ n, n ∉ Object_keys flattened) revealedMsgNames) as Hin
      by by apply list_elem_of_filter.
    rewrite Hnil in Hin. by apply not_elem_of_nil in Hin. }
  destruct (collect_raw_restorable messages revealedMsgNames Hsimple HR Hsub)
    as [Hraw Hrestorable].
  fold flattened in Hraw, Hrestorable.
  pose proof (flatten_unflatten _ Hrestorable) as Hback.
  destruct (encodeMessageObject_Ok _ _ _ _ Henc) as (_ & Hlen & Hvalues).
  fold flattened in Hvalues.
  assert (NoDup names) as Hnames by apply sort_names_NoDup, flatten_NoDup.
  unfold encodeRevealedMsgs.
  rewrite <-(isValidMsgStructure_names _ _ Hvalid). fold flattened names.
  set (entries := flatten (unflatten (collect_raw flattened revealedMsgNames))) in *.
  destruct (encodeRevealedMsgs_loop names entries []) as (revealed & Hfold & Hkeys & Hget).
  - done.
  - apply flatten_NoDup.
  - constructor.
  - apply Forall_forall. intros kv Hin. rewrite Hback, Hraw in Hin.
    apply list_elem_of_fmap in Hin as (n & -> & Hn). csimpl.
    assert (n ∈ names) as Hname by by apply sort_names_elem_of, Hsub.
    split; [done|]. apply list_elem_of_lookup in Hname as [i Hi].
    destruct (Forall2_lookup_l _ _ _ _ _ Hvalues Hi) as (e & _ & ->). by intros [].
  - exists revealed. split_and!; [done..|]. intros i. rewrite Hget, Hr. csimpl.
    destruct (names !! i) as [n|] eqn:Hi; csimpl; [|done].
    destruct (Forall2_lookup_l _ _ _ _ _ Hvalues Hi) as (e & -> & He). csimpl.
    rewrite (obj_get_Permutation entries _ n (flatten_NoDup _) (transitivity Hback Hraw)).
    rewrite obj_get_tabulate. destruct (decide (n ∈ revealedMsgNames)); [|done].
    by rewrite He.
Qed.

End RoundTrip.

Lemma encodeRevealedMsgs_roundtrip_witness :
  ∃ revealedMsgs unrevealedMsgs revealedMsgsRaw,
    getRevealedAndUnrevealed sample_encodeMessage nested_attributes nested_revealed_names
    = Ok (revealedMsgs, unrevealedMsgs, revealedMsgsRaw)
    ∧ ∃ revealed,
        encodeRevealedMsgs sample_encodeMessage revealedMsgsRaw nested_attributesStruct
        = Ok revealed
        ∧ NoDup revealed.*1
        ∧ ∀ i, map_get i revealed = map_get i revealedMsgs.
Proof.
  do 3 eexists. split; [by vm_compute|].
  eapply (encodeRevealedMsgs_roundtrip sample_encodeMessage nested_attributes
            nested_attributesStruct nested_revealed_names).
  - by vm_compute.
  - decide_goal.
  - by vm_compute.
  - by vm_compute.
Defined.

(** C3, as stated, fails for an object with the properties [address] and
    [address.city]: [unflatten] drops the second, so the verifier's map lacks
    the index 1 that the prover's revealed map has. *)
Lemma encodeRevealedMsgs_dotted_name :
  isValidMsgStructure dotted_attributes dotted_attributesStruct = true
  ∧ getRevealedAndUnrevealed sample_encodeMessage dotted_attributes
      ["address"; "address.city"]
    = Ok ([(0%nat, String.list_byte_of_string "Main Street 1");
           (1%nat, String.list_byte_of_string "Paris")],
          [],
          [("address", JStr "Main Street 1")])
  ∧ encodeRevealedMsgs sample_encodeMessage [("address", JStr "Main Street 1")]
      dotted_attributesStruct
    = Ok [(0%nat, String.list_byte_of_string "Main Street 1")]
  ∧ map_get 1%nat [(0%nat, String.list_byte_of_string "Main Street 1")]
    ≠ map_get 1%nat [(0%nat, String.list_byte_of_string "Main Street 1");
                     (1%nat, String.list_byte_of_string "Paris")].
Proof. split_and!; by vm_compute. Qed.

(** * Further properties *)

(** ** More on [getIndicesForMsgNames] *)

Lemma traverse_first_Throw {A B} (f : A → Result B) (before after : list A) x m :
  Forall (λ y, ¬ isThrow (f y)) before → f x = Throw m →
  traverse f (before ++ x :: after) = Throw m.
Proof.
  intros Hbefore Hx. induction before as [|y before IH]; csimpl.
  - by rewrite Hx.
  - apply Forall_cons in Hbefore as [Hy Hbefore].
    destruct (f y) as [z|m'] eqn:Hfy; [|by destruct Hy]. csimpl. by rewrite IH.
Qed.

Lemma sort_names_length names : length (sort_names names) = length names.
Proof. by rewrite sort_names_Permutation. Qed.

(** When [getIndicesForMsgNames] returns, it returns one index per name, in
    the order of the names; each index is the position of its name in the
    sorted flattened names of the structure, and distinct names have distinct
    indices. *)
Theorem getIndicesForMsgNames_in_order (msgNames : list string)
    (msgStructure : MessageStructure) (indices : list nat) :
  getIndicesForMsgNames msgNames msgStructure = Ok indices →
  length indices = length msgNames
  ∧ (∀ k n, msgNames !! k = Some n →
       ∃ i, indices !! k = Some i
            ∧ structNames msgStructure !! i = Some n
            ∧ (i < length (Object_keys (flattenMessageStructure msgStructure)))%nat)
  ∧ (NoDup msgNames → NoDup indices).
Proof.
  intros Hall%getIndicesForMsgNames_Ok. split_and!.
  - symmetry. by eapply Forall2_length.
  - intros k n Hk. destruct (Forall2_lookup_l _ _ _ _ _ Hall Hk) as (i & Hi & Hn).
    exists i. split_and!; [done..|]. apply lookup_lt_Some in Hn.
    unfold structNames in Hn. by rewrite sort_names_length in Hn.
  - intros Hnd. apply NoDup_alt. intros j1 j2 i H1 H2.
    destruct (Forall2_lookup_r _ _ _ _ _ Hall H1) as (n1 & Hn1 & Hs1).
    destruct (Forall2_lookup_r _ _ _ _ _ Hall H2) as (n2 & Hn2 & Hs2).
    eapply NoDup_lookup; [exact Hnd|exact Hn1|]. congruence.
Qed.

Lemma getIndicesForMsgNames_in_order_witness :
  length [3; 0]%nat = length ["lname"; "city"]
  ∧ (∀ k n, ["lname"; "city"] !! k = Some n →
       ∃ i, [3; 0]%nat !! k = Some i
            ∧ structNames attributesStruct !! i = Some n
            ∧ (i < length (Object_keys (flattenMessageStructure attributesStruct)))%nat)
  ∧ (NoDup ["lname"; "city"] → NoDup [3; 0]%nat).
Proof.
  apply (getIndicesForMsgNames_in_order ["lname"; "city"] attributesStruct [3; 0]%nat).
  by vm_compute.
Defined.

(** [getIndicesForMsgNames] reports the first of the given names that is not
    a flattened name of the structure. *)
Theorem getIndicesForMsgNames_first_missing (before after : list string) (n : string)
    (msgStructure : MessageStructure) :
  Forall (λ m, m ∈ Object_keys (flattenMessageStructure msgStructure)) before →
  n ∉ Object_keys (flattenMessageStructure msgStructure) →
  getIndicesForMsgNames (before ++ n :: after) msgStructure = Throw (name_not_found n).
Proof.
  intros Hbefore Hn. unfold getIndicesForMsgNames. apply traverse_first_Throw.
  - eapply Forall_impl; [exact Hbefore|]. intros m Hm. csimpl in Hm.
    destruct (indexOf m _) as [i|] eqn:Hi; [by intros []|].
    apply indexOf_None in Hi. by rewrite sort_names_elem_of in Hi.
  - destruct (indexOf n _) as [i|] eqn:Hi; [|done].
    apply indexOf_Some, list_elem_of_lookup_2 in Hi. by rewrite sort_names_elem_of in Hi.
Qed.

Lemma getIndicesForMsgNames_first_missing_witness :
  getIndicesForMsgNames (["lname"] ++ "town" :: ["zip"; "city"]) attributesStruct
  = Throw (name_not_found "town").
Proof.
  apply (getIndicesForMsgNames_first_missing ["lname"] ["zip"; "city"] "town" attributesStruct).
  - decide_goal.
  - decide_goal.
Defined.

(** Asked for all the sorted flattened names of a structure,
    [getIndicesForMsgNames] returns [0, 1, ..., n-1]. *)
Theorem getIndicesForMsgNames_all_names (msgStructure : MessageStructure) :
  getIndicesForMsgNames (structNames msgStructure) msgStructure
  = Ok (seq 0 (length (structNames msgStructure))).
Proof.
  apply getIndicesForMsgNames_Ok.
  generalize (structNames msgStructure). intros names.
  apply Forall2_same_length_lookup. split; [by rewrite length_seq|].
  intros k n i Hn Hi. apply lookup_seq in Hi as [-> _]. done.
Qed.

(** ** [getAdaptedSignatureParamsForMessages] *)

(** For messages that are valid under the structure, the parameters are
    adapted to exactly the number of messages the encoder returns. *)
Theorem getAdaptedSignatureParamsForMessages_count {Params : Type}
    (adapt : Params → nat → Params) (encodeMessage : string → JsVal → Result bytes)
    (params : Params) (messages : Obj) (msgStructure : MessageStructure)
    (names : list string) (encodedValues : list bytes) :
  isValidMsgStructure messages msgStructure = true →
  encodeMessageObject encodeMessage messages = Ok (names, encodedValues) →
  getAdaptedSignatureParamsForMessages adapt params msgStructure
  = adapt params (length encodedValues)
  ∧ length names = length encodedValues.
Proof.
  intros Hvalid (-> & Hlen & _)%encodeMessageObject_Ok.
  unfold getAdaptedSignatureParamsForMessages.
  rewrite Hlen, (isValidMsgStructure_names _ _ Hvalid), sort_names_length. done.
Qed.

Lemma getAdaptedSignatureParamsForMessages_count_witness :
  getAdaptedSignatureParamsForMessages (λ _ count, count) 0%nat attributesStruct
  = (λ _ count : nat, count) 0%nat (length attributes_values)
  ∧ length attributes_names = length attributes_values.
Proof.
  apply (getAdaptedSignatureParamsForMessages_count (λ _ count, count)
           sample_encodeMessage 0%nat attributes attributesStruct).
  - by vm_compute.
  - by vm_compute.
Defined.

(** ** More on [encodeRevealedMsgs] *)

Lemma map_set_fresh {K V} `{EqDecision K} (m : JsMap K V) k v :
  k ∉ m.*1 → map_set k v m = m ++ [(k, v)].
Proof.
  induction m as [|[k' v'] m IH]; csimpl; [done|].
  intros [Hne Hk]%not_elem_of_cons. rewrite decide_False by done. by rewrite IH.
Qed.

Section EncodeRevealedFacts.
Variable encodeMessage : string → JsVal → Result bytes.

Lemma encodeRevealedMsgs_steps (names : list string) :
  ∀ (entries : Obj) (revealed0 : JsMap nat bytes),
  NoDup names → NoDup (Object_keys entries) →
  (∀ n i, n ∈ Object_keys entries → names !! i = Some n → i ∉ revealed0.*1) →
  match foldM (λ revealed '(n, v),
                 match indexOf n names with
                 | None => Throw (name_not_found n)
                 | Some i => e ← encodeMessage n v; Ok (map_set i e revealed)
                 end) entries revealed0 with
  | Ok revealed =>
      ∃ new, revealed = revealed0 ++ new
        ∧ Forall2 (λ kv ie, names !! ie.1 = Some kv.1
                            ∧ encodeMessage kv.1 kv.2 = Ok ie.2) entries new
  | Throw m =>
      ∃ before n v after, entries = before ++ (n, v) :: after
        ∧ Forall (λ kv, kv.1 ∈ names ∧ ¬ isThrow (encodeMessage kv.1 kv.2)) before
        ∧ (if decide (n ∈ names) then encodeMessage n v = Throw m
           else m = name_not_found n)
  end.
Proof.
  induction entries as [|[n v] entries IH]; intros revealed0 Hnames Hnd Hfresh.
  - csimpl. exists []. by rewrite app_nil_r.
  - csimpl in *. apply NoDup_cons in Hnd as [Hn Hnd].
    destruct (indexOf n names) as [i|] eqn:Hidx; csimpl.
    + pose proof (indexOf_Some _ _ _ Hidx) as Hi.
      assert (n ∈ names) as Hin by by eapply list_elem_of_lookup_2.
      destruct (encodeMessage n v) as [e|m] eqn:He; csimpl.
      * rewrite map_set_fresh by (eapply Hfresh; [left|done]).
        specialize (IH (revealed0 ++ [(i, e)]) Hnames Hnd).
        destruct (foldM _ entries _) as [revealed|m].
        -- destruct IH as (new & -> & Hall).
           { intros n' i' Hn' Hi'. rewrite fmap_app, elem_of_app. csimpl.
             intros [Hold| ->%list_elem_of_singleton].
             - by apply (Hfresh n' i'); [right|..].
             - congruence. }
           exists ((i, e) :: new). rewrite <-app_assoc. split; [done|].
           by constructor.
        -- destruct IH as (before & n' & v' & after & -> & Hbefore & Hfail).
           { intros n' i' Hn' Hi'. rewrite fmap_app, elem_of_app. csimpl.
             intros [Hold| ->%list_elem_of_singleton].
             - by apply (Hfresh n' i'); [right|..].
             - congruence. }
           exists ((n, v) :: before), n', v', after. split_and!; [done| |done].
           constructor; [|done]. csimpl. split; [done|]. rewrite He. by intros [].
      * exists [], n, v, entries. split_and!; [done|constructor|].
        by rewrite decide_True.
    + exists [], n, v, entries. split_and!; [done|constructor|].
      apply indexOf_None in Hidx. by rewrite decide_False.
Qed.

(** What [encodeRevealedMsgs] does, for every object and structure.  When
    it returns, the entries of the map are, in insertion order, one per
    flattened leaf of the revealed object: the position of the leaf's name in
    the sorted names of the structure and the encoding of its value.  When it
    throws, there is a first flattened leaf whose name is not in the structure
    or whose value the encoder refuses, and the error is that of this leaf. *)
Theorem encodeRevealedMsgs_outcome (revealedMsgsRaw : Obj) (msgStructure : MessageStructure) :
  match encodeRevealedMsgs encodeMessage revealedMsgsRaw msgStructure with
  | Ok revealed =>
      Forall2 (λ kv ie, structNames msgStructure !! ie.1 = Some kv.1
                        ∧ encodeMessage kv.1 kv.2 = Ok ie.2)
              (flatten revealedMsgsRaw) revealed
  | Throw m =>
      ∃ before n v after, flatten revealedMsgsRaw = before ++ (n, v) :: after
        ∧ Forall (λ kv, kv.1 ∈ structNames msgStructure
                        ∧ ¬ isThrow (encodeMessage kv.1 kv.2)) before
        ∧ (if decide (n ∈ structNames msgStructure) then encodeMessage n v = Throw m
           else m = name_not_found n)
  end.
Proof.
  unfold encodeRevealedMsgs. fold (structNames msgStructure).
  pose proof (encodeRevealedMsgs_steps (structNames msgStructure) (flatten revealedMsgsRaw) []
                (structNames_NoDup _) (flatten_NoDup _)) as Hsteps.
  destruct (foldM _ _ _) as [revealed|m].
  - destruct Hsteps as (new & -> & Hall); [|done]. intros n i _ _. apply not_elem_of_nil.
  - apply Hsteps. intros n i _ _. apply not_elem_of_nil.
Qed.

End EncodeRevealedFacts.

(** ** More on [getRevealedAndUnrevealed] *)

Lemma partition_loop_none_revealed (revealedMsgNames : list string) :
  ∀ names encodedValues i r u f,
  length encodedValues = length names →
  Forall (λ n, n ∉ revealedMsgNames) names →
  Forall (λ k, (k < i)%nat) u.*1 →
  partition_loop revealedMsgNames i names encodedValues (r, u, f)
  = (r, u ++ zip (seq i (length names)) encodedValues, f).
Proof.
  induction names as [|n names IH]; intros [|v encodedValues] i r u f Hlen Hnone Hkeys;
    simplify_eq/=.
  - by rewrite app_nil_r.
  - apply Forall_cons in Hnone as [Hn Hnone].
    rewrite bool_decide_eq_false_2 by done.
    rewrite map_set_fresh.
    + rewrite IH; [by rewrite <-app_assoc|done|done|].
      rewrite fmap_app, Forall_app. split.
      * eapply Forall_impl; [exact Hkeys|]. csimpl. lia.
      * repeat constructor.
    + intros Hi. rewrite Forall_forall in Hkeys. apply Hkeys in Hi. lia.
Qed.

Lemma partition_loop_all_revealed (revealedMsgNames : list string) :
  ∀ names encodedValues i r u f,
  length encodedValues = length names →
  Forall (λ n, n ∈ revealedMsgNames) names →
  Forall (λ k, (k < i)%nat) r.*1 →
  partition_loop revealedMsgNames i names encodedValues (r, u, f)
  = (r ++ zip (seq i (length names)) encodedValues, u, (f + length names)%nat).
Proof.
  induction names as [|n names IH]; intros [|v encodedValues] i r u f Hlen Hall Hkeys;
    simplify_eq/=.
  - rewrite app_nil_r. do 2 f_equal. lia.
  - apply Forall_cons in Hall as [Hn Hall].
    rewrite bool_decide_eq_true_2 by done.
    rewrite map_set_fresh.
    + rewrite IH; [rewrite <-app_assoc; csimpl; do 2 f_equal; lia|done|done|].
      rewrite fmap_app, Forall_app. split.
      * eapply Forall_impl; [exact Hkeys|]. csimpl. lia.
      * repeat constructor.
    + intros Hi. rewrite Forall_forall in Hkeys. apply Hkeys in Hi. lia.
Qed.

Section RevealedFacts.
Variable encodeMessage : string → JsVal → Result bytes.


(** The verifier finds the prover's indices: when the messages are valid
    under the structure and [getRevealedAndUnrevealed] accepts the revealed
    names, [getIndicesForMsgNames] on the same names and the structure returns,
    and its indices are exactly the keys of the revealed map. *)
Theorem getIndicesForMsgNames_revealed_keys (messages : Obj)
    (msgStructure : MessageStructure) (revealedMsgNames : list string)
    (revealedMsgs unrevealedMsgs : JsMap nat bytes) (revealedMsgsRaw : Obj) :
  NoDup revealedMsgNames →
  isValidMsgStructure messages msgStructure = true →
  getRevealedAndUnrevealed encodeMessage messages revealedMsgNames
  = Ok (revealedMsgs, unrevealedMsgs, revealedMsgsRaw) →
  ∃ indices,
    getIndicesForMsgNames revealedMsgNames msgStructure = Ok indices
    ∧ indices ≡ₚ revealedMsgs.*1.
Proof.
  intros HR Hvalid Hcall.
  destruct (getRevealedAndUnrevealed_Ok_encoded _ _ _ _ Hcall) as [encodedValues Henc].
  destruct (getRevealedAndUnrevealed_outcome encodeMessage _ _ _ _ HR Henc)
    as (r & u & Hout & Hr & _ & Hgr & _).
  rewrite Hcall in Hout.
  destruct (decide (filter (λ n, n ∉ Object_keys (flatten messages)) revealedMsgNames = []))
    as [Hnil|]; [|done].
  injection Hout as -> -> ->.
  destruct (encodeMessageObject_Ok _ _ _ _ Henc) as (_ & Hlen & _).
  pose proof (isValidMsgStructure_names _ _ Hvalid) as Hnames.
  fold (structNames msgStructure) in Hnames.
  assert (∀ n, n ∈ revealedMsgNames → n ∈ Object_keys (flatten messages)) as Hsub.
  { intros n Hn. destruct (decide (n ∈ Object_keys (flatten messages))) as [|Hnot]; [done|].
    assert (n ∈ filter (λ n, n ∉ Object_keys (flatten messages)) revealedMsgNames) as Hin
      by by apply list_elem_of_filter.
    rewrite Hnil in Hin. by apply not_elem_of_nil in Hin. }
  destruct (getIndicesForMsgNames revealedMsgNames msgStructure) as [indices|m] eqn:Hidx.
  - exists indices. split; [done|].
    apply getIndicesForMsgNames_Ok in Hidx.
    apply NoDup_Permutation; [|done|].
    + apply NoDup_alt. intros j1 j2 i H1 H2.
      destruct (Forall2_lookup_r _ _ _ _ _ Hidx H1) as (n1 & Hn1 & Hs1).
      destruct (Forall2_lookup_r _ _ _ _ _ Hidx H2) as (n2 & Hn2 & Hs2).
      eapply NoDup_lookup; [exact HR|exact Hn1|]. congruence.
    + intros i. rewrite <-map_get_is_Some, Hgr. split.
      * intros [k Hk]%list_elem_of_lookup.
        destruct (Forall2_lookup_r _ _ _ _ _ Hidx Hk) as (n & Hn & Hi).
        rewrite <-Hnames in Hi. rewrite Hi. csimpl.
        destruct (lookup_lt_is_Some_2 encodedValues i) as [v Hv].
        { rewrite Hlen. by eapply lookup_lt_Some. }
        rewrite Hv. csimpl. rewrite decide_True; [done|]. by eapply list_elem_of_lookup_2.
      * intros [v Hv]. destruct (sort_names _ !! i) as [n|] eqn:Hi; csimpl in Hv; [|done].
        destruct (encodedValues !! i) as [w|]; csimpl in Hv; [|done].
        case_decide as Hn; [|done].
        apply list_elem_of_lookup in Hn as [k Hk].
        destruct (Forall2_lookup_l _ _ _ _ _ Hidx Hk) as (i' & Hi' & Hs).
        rewrite <-Hnames in Hs.
        assert (i' = i) as ->.
        { eapply NoDup_lookup; [|exact Hs|exact Hi]. apply sort_names_NoDup, flatten_NoDup. }
        by eapply list_elem_of_lookup_2.
  - exfalso. assert (isThrow (getIndicesForMsgNames revealedMsgNames msgStructure)) as Hthrow
      by by rewrite Hidx.
    apply getIndicesForMsgNames_Throw in Hthrow as (n & Hn & Hnot).
    apply Hnot. rewrite <-sort_names_elem_of.
    unfold structNames, flattenMessageStructure in Hnames. rewrite <-Hnames.
    apply sort_names_elem_of. by apply Hsub.
Qed.

(** The raw object handed to the verifier holds the revealed leaves and
    nothing else: for an object with simple property names, its flattened
    entries are exactly the flattened entries of the messages whose name is
    revealed. *)
Theorem revealedMsgsRaw_only_revealed (messages : Obj) (revealedMsgNames : list string)
    (revealedMsgs unrevealedMsgs : JsMap nat bytes) (revealedMsgsRaw : Obj) :
  simple_object messages = true →
  NoDup revealedMsgNames →
  getRevealedAndUnrevealed encodeMessage messages revealedMsgNames
  = Ok (revealedMsgs, unrevealedMsgs, revealedMsgsRaw) →
  ∀ n v, (n, v) ∈ flatten revealedMsgsRaw
         ↔ n ∈ revealedMsgNames ∧ (n, v) ∈ flatten messages.
Proof.
  intros Hsimple HR Hcall n v.
  destruct (getRevealedAndUnrevealed_Ok_encoded _ _ _ _ Hcall) as [encodedValues Henc].
  destruct (getRevealedAndUnrevealed_outcome encodeMessage _ _ _ _ HR Henc)
    as (r & u & Hout & _).
  rewrite Hcall in Hout.
  destruct (decide (filter (λ n, n ∉ Object_keys (flatten messages)) revealedMsgNames = []))
    as [Hnil|]; [|done].
  injection Hout as -> -> ->.
  assert (∀ n, n ∈ revealedMsgNames → n ∈ Object_keys (flatten messages)) as Hsub.
  { intros m Hm. destruct (decide (m ∈ Object_keys (flatten messages))) as [|Hnot]; [done|].
    assert (m ∈ filter (λ n, n ∉ Object_keys (flatten messages)) revealedMsgNames) as Hin
      by by apply list_elem_of_filter.
    rewrite Hnil in Hin. by apply not_elem_of_nil in Hin. }
  destruct (collect_raw_restorable messages revealedMsgNames Hsimple HR Hsub)
    as [Hraw Hrestorable].
  rewrite (flatten_unflatten _ Hrestorable), Hraw, list_elem_of_fmap. split.
  - intros (m & [= -> ->] & Hm). split; [done|].
    apply Hsub in Hm. unfold js_get.
    destruct (obj_get m (flatten messages)) as [w|] eqn:Hget.
    + by apply obj_get_Some_elem.
    + by apply obj_get_None in Hget.
  - intros [Hn Hin]. exists n. split; [|done]. f_equal. unfold js_get.
    by rewrite (obj_get_NoDup n v (flatten messages) (flatten_NoDup _) Hin).
Qed.

End RevealedFacts.


Lemma getIndicesForMsgNames_revealed_keys_witness :
  ∃ indices,
    getIndicesForMsgNames ["lname"; "city"] attributesStruct = Ok indices
    ∧ indices ≡ₚ [(0%nat, String.list_byte_of_string "New York");
                  (3%nat, String.list_byte_of_string "Smith")].*1.
Proof.
  apply (getIndicesForMsgNames_revealed_keys sample_encodeMessage attributes attributesStruct ["lname"; "city"]
           [(0%nat, String.list_byte_of_string "New York");
            (3%nat, String.list_byte_of_string "Smith")]
           [(1%nat, String.list_byte_of_string "john.smith@emample.com");
            (2%nat, String.list_byte_of_string "John");
            (4%nat, String.list_byte_of_string "123-456789-0")]
           [("lname", JStr "Smith"); ("city", JStr "New York")]).
  - decide_goal.
  - by vm_compute.
  - by vm_compute.
Defined.

Lemma revealedMsgsRaw_only_revealed_witness :
  ("location.city", JStr "New York")
    ∈ flatten [("sensitive", JObj false [("email", JStr "john.smith@example.com")]);
               ("location", JObj false [("city", JStr "New York")]);
               ("fname", JStr "John")]
  ↔ "location.city" ∈ nested_revealed_names
    ∧ ("location.city", JStr "New York") ∈ flatten nested_attributes.
Proof.
  eapply (revealedMsgsRaw_only_revealed sample_encodeMessage nested_attributes
            nested_revealed_names).
  - by vm_compute.
  - decide_goal.
  - by vm_compute.
Defined.

(** ** [isValidMsgStructure] as a relation *)

(** [isValidMsgStructure] compares the flattened names only: it is
    reflexive and transitive, and the two arguments can be exchanged. *)
Theorem isValidMsgStructure_equivalence (a b c : Obj) :
  isValidMsgStructure a a = true
  ∧ isValidMsgStructure a b = isValidMsgStructure b a
  ∧ (isValidMsgStructure a b = true → isValidMsgStructure b c = true →
     isValidMsgStructure a c = true).
Proof.
  assert (∀ x y, isValidMsgStructure x y = true
                 ↔ sort_names (Object_keys (flatten x)) = sort_names (Object_keys (flatten y)))
    as Hiff.
  { intros x y. split; [apply isValidMsgStructure_names|].
    intros Heq. unfold isValidMsgStructure, flattenMessageStructure.
    rewrite andb_true_iff, bool_decide_eq_true. rewrite <-Heq. split; [done|].
    by apply names_loop_equal_lengths. }
  split_and!.
  - by apply Hiff.
  - apply eq_true_iff_eq. rewrite !Hiff. naive_solver.
  - rewrite !Hiff. congruence.
Qed.

(** ** More on the witnesses and statements for blind signature requests *)

Lemma sort_entries_StronglySorted {V} (entries : JsMap Z V) :
  StronglySorted key_le (sort_entries entries).
Proof. apply Sorted_StronglySorted; [apply _|apply sort_entries_Sorted]. Qed.

Lemma sort_entries_keys {V W} (entries1 : JsMap Z V) (entries2 : JsMap Z W) :
  entries1.*1 ≡ₚ entries2.*1 → (sort_entries entries1).*1 = (sort_entries entries2).*1.
Proof.
  intros Hperm. apply (Sorted_unique Z.le).
  - eapply Sorted_fmap; [|apply sort_entries_Sorted]. by intros x y.
  - eapply Sorted_fmap; [|apply sort_entries_Sorted]. by intros x y.
  - by rewrite !sort_entries_Permutation.
Qed.

Section BlindSigRequestFacts.
Variable pedersenCommitment : list bytes → bytes.
Variable pedersenCommitmentG1 : list bytes → bytes → bytes.

Lemma blinding_first_missing (blindings : JsMap Z bytes) (idx : Z) :
  ∀ sortedMessages : JsMap Z bytes,
  StronglySorted key_le sortedMessages →
  idx ∈ sortedMessages.*1 → map_get idx blindings = None →
  (∀ j, j ∈ sortedMessages.*1 → map_get j blindings = None → idx ≤ j) →
  traverse (λ '(idx, msg),
              match map_get idx blindings with
              | None => Throw (missing_blinding idx)
              | Some blinding => Ok (pedersenCommitment [blinding; msg])
              end) sortedMessages
  = Throw (missing_blinding idx).
Proof.
  induction sortedMessages as [|[k m] l IH]; intros Hsorted Hin Hnone Hmin; csimpl in *.
  - by apply elem_of_nil in Hin.
  - apply StronglySorted_inv in Hsorted as [Hsorted Hk].
    destruct (map_get k blindings) as [b|] eqn:Hb; csimpl.
    + rewrite IH; [done|done| |done|].
      * apply elem_of_cons in Hin as [->|Hin]; [congruence|done].
      * intros j Hj. apply Hmin. by right.
    + assert (idx ≤ k) as Hle1 by (apply Hmin; [left|done]).
      assert (k ≤ idx) as Hle2.
      { apply elem_of_cons in Hin as [->|Hin]; [lia|].
        apply list_elem_of_fmap in Hin as ([k' m'] & -> & Hin).
        rewrite Forall_forall in Hk. by apply (Hk _ Hin). }
      by replace k with idx by lia.
Qed.

(** [getPSWitnessesForBlindSigRequest] throws exactly when some message
    index has no blinding, and the error names the smallest such index. *)
Theorem getPSWitnessesForBlindSigRequest_missing_blinding (messages : JsMap Z bytes)
    (blinding : bytes) (blindings : JsMap Z bytes) :
  (isThrow (getPSWitnessesForBlindSigRequest pedersenCommitment messages blinding blindings)
   ↔ ∃ idx, idx ∈ messages.*1 ∧ map_get idx blindings = None)
  ∧ (∀ idx, idx ∈ messages.*1 → map_get idx blindings = None →
       (∀ j, j ∈ messages.*1 → map_get j blindings = None → idx ≤ j) →
       getPSWitnessesForBlindSigRequest pedersenCommitment messages blinding blindings
       = Throw (missing_blinding idx)).
Proof.
  unfold getPSWitnessesForBlindSigRequest. split.
  - destruct (traverse _ _) as [rest|m] eqn:Hrest; csimpl.
    + split; [done|]. intros (idx & Hin & Hnone). exfalso.
      apply traverse_Ok in Hrest.
      apply list_elem_of_fmap in Hin as ([k msg] & -> & Hin).
      rewrite <-(sort_entries_Permutation messages) in Hin.
      apply list_elem_of_lookup in Hin as [j Hj].
      destruct (Forall2_lookup_l _ _ _ _ _ Hrest Hj) as (w & _ & Hw).
      csimpl in *. by rewrite Hnone in Hw.
    + split; [intros _|done].
      assert (isThrow (traverse (λ '(idx, msg),
                match map_get idx blindings with
                | None => Throw (missing_blinding idx)
                | Some blinding => Ok (pedersenCommitment [blinding; msg])
                end) (sort_entries messages))) as Hthrow by by rewrite Hrest.
      apply traverse_Throw, Exists_exists in Hthrow as ([k msg] & Hin & Hk).
      exists k. split.
      * rewrite sort_entries_Permutation in Hin. apply list_elem_of_fmap. by exists (k, msg).
      * by destruct (map_get k blindings).
  - intros idx Hin Hnone Hmin.
    rewrite (blinding_first_missing blindings idx); [done| | |done|].
    + apply sort_entries_StronglySorted.
    + by rewrite sort_entries_Permutation.
    + intros j Hj. apply Hmin. by rewrite sort_entries_Permutation in Hj.
Qed.

(** When every message index has a blinding, [getPSWitnessesForBlindSigRequest]
    returns the commitment witness for the blinding and all the messages
    followed by one witness per message, in increasing order of the index:
    that of the blinding of the index and the message. *)
Theorem getPSWitnessesForBlindSigRequest_layout (messages : JsMap Z bytes)
    (blinding : bytes) (blindings : JsMap Z bytes) :
  (∀ idx, idx ∈ messages.*1 → is_Some (map_get idx blindings)) →
  ∃ rest,
    getPSWitnessesForBlindSigRequest pedersenCommitment messages blinding blindings
    = Ok (pedersenCommitment (blinding :: (sort_entries messages).*2) :: rest)
    ∧ Forall2 (λ im w, ∃ b, map_get im.1 blindings = Some b
                            ∧ w = pedersenCommitment [b; im.2])
              (sort_entries messages) rest.
Proof.
  intros Hall. unfold getPSWitnessesForBlindSigRequest.
  destruct (traverse _ _) as [rest|m] eqn:Hrest; csimpl.
  - exists rest. split; [done|]. apply traverse_Ok in Hrest.
    eapply Forall2_impl; [exact Hrest|]. intros [k msg] w Hw. csimpl in *.
    destruct (map_get k blindings) as [b|]; [|done]. exists b. split; congruence.
  - exfalso.
    assert (isThrow (traverse (λ '(idx, msg),
              match map_get idx blindings with
              | None => Throw (missing_blinding idx)
              | Some blinding => Ok (pedersenCommitment [blinding; msg])
              end) (sort_entries messages))) as Hthrow by by rewrite Hrest.
    apply traverse_Throw, Exists_exists in Hthrow as ([k msg] & Hin & Hk).
    rewrite sort_entries_Permutation in Hin.
    destruct (Hall k) as [b Hb]; [apply list_elem_of_fmap; by exists (k, msg)|].
    by rewrite Hb in Hk.
Qed.

(** The statements and the witnesses of a PS blind signature request line
    up: when the request's commitments and the messages have the same
    indices, both lists have the same length, and after the first element the
    k-th statement and the k-th witness are those of the k-th smallest
    index. *)
Theorem getPSStatementsForBlindSigRequest_match_witnesses
    (request : PSBlindSignatureRequest) (sigParams : PSSignatureParams) (h : bytes)
    (messages : JsMap Z bytes) (blinding : bytes) (blindings : JsMap Z bytes)
    (hArr : list bytes) :
  NoDup messages.*1 → NoDup (commitments request).*1 →
  messages.*1 ≡ₚ (commitments request).*1 →
  (∀ idx, idx ∈ messages.*1 → is_Some (map_get idx blindings)) →
  getParamsForIndices sigParams (sort_entries messages).*1 = Ok hArr →
  ∃ statements witnesses,
    getPSStatementsForBlindSigRequest pedersenCommitmentG1 request sigParams h = Ok statements
    ∧ getPSWitnessesForBlindSigRequest pedersenCommitment messages blinding blindings
      = Ok witnesses
    ∧ length statements = length witnesses
    ∧ statements !! 0%nat
      = Some (pedersenCommitmentG1 (value_g sigParams :: hArr) (commitment request))
    ∧ ∀ k idx, (sort_entries messages).*1 !! k = Some idx →
        ∃ msg b c,
          map_get idx messages = Some msg ∧ map_get idx blindings = Some b
          ∧ map_get idx (commitments request) = Some c
          ∧ statements !! S k = Some (pedersenCommitmentG1 [value_g sigParams; h] c)
          ∧ witnesses !! S k = Some (pedersenCommitment [b; msg]).
Proof.
  intros Hm Hc Hperm Hall HhArr.
  pose proof (sort_entries_keys messages (commitments request) Hperm) as Hkeys.
  unfold getPSStatementsForBlindSigRequest, getPSWitnessesForBlindSigRequest.
  rewrite <-Hkeys, HhArr. csimpl.
  destruct (traverse _ (sort_entries messages)) as [rest|m] eqn:Hrest; csimpl.
  - apply traverse_Ok in Hrest. eexists _, _. split_and!; [done|done| |done|].
    + csimpl. f_equal. rewrite length_fmap, <-(Forall2_length _ _ _ Hrest).
      by rewrite <-(length_fmap fst (sort_entries (commitments request))), <-Hkeys,
        length_fmap.
    + intros k idx Hk. csimpl.
      assert ((sort_entries (commitments request)).*1 !! k = Some idx) as Hck
        by by rewrite <-Hkeys.
      rewrite list_lookup_fmap in Hk, Hck.
      destruct (sort_entries messages !! k) as [[idx1 msg]|] eqn:Hmk; [|done].
      destruct (sort_entries (commitments request) !! k) as [[idx2 c]|] eqn:Hck'; [|done].
      csimpl in *. injection Hk as ->. injection Hck as ->.
      destruct (Forall2_lookup_l _ _ _ _ _ Hrest Hmk) as (w & Hw & Hfw). csimpl in Hfw.
      destruct (map_get idx blindings) as [b|] eqn:Hb; [|done]. injection Hfw as <-.
      exists msg, b, c. split_and!; [| done | | |done].
      * apply map_get_NoDup; [done|]. rewrite <-(sort_entries_Permutation messages).
        by eapply list_elem_of_lookup_2.
      * apply map_get_NoDup; [done|].
        rewrite <-(sort_entries_Permutation (commitments request)).
        by eapply list_elem_of_lookup_2.
      * by rewrite list_lookup_fmap, Hck'.
  - exfalso.
    assert (isThrow (traverse (λ '(idx, msg),
              match map_get idx blindings with
              | None => Throw (missing_blinding idx)
              | Some blinding => Ok (pedersenCommitment [blinding; msg])
              end) (sort_entries messages))) as Hthrow by by rewrite Hrest.
    apply traverse_Throw, Exists_exists in Hthrow as ([k msg] & Hin & Hk).
    rewrite sort_entries_Permutation in Hin.
    destruct (Hall k) as [b Hb]; [apply list_elem_of_fmap; by exists (k, msg)|].
    by rewrite Hb in Hk.
Qed.

End BlindSigRequestFacts.

Lemma getPSWitnessesForBlindSigRequest_layout_witness :
  ∃ rest,
    getPSWitnessesForBlindSigRequest sample_commitment sample_messages [xff] sample_blindings
    = Ok (sample_commitment ([xff] :: (sort_entries sample_messages).*2) :: rest)
    ∧ Forall2 (λ im w, ∃ b, map_get im.1 sample_blindings = Some b
                            ∧ w = sample_commitment [b; im.2])
              (sort_entries sample_messages) rest.
Proof.
  apply (getPSWitnessesForBlindSigRequest_layout sample_commitment sample_messages [xff]
           sample_blindings).
  apply Forall_forall. decide_goal.
Defined.

Lemma getPSStatementsForBlindSigRequest_match_witnesses_witness :
  ∃ statements witnesses,
    getPSStatementsForBlindSigRequest sample_commitmentG1 sample_request sample_sigParams [x0f]
    = Ok statements
    ∧ getPSWitnessesForBlindSigRequest sample_commitment sample_messages [xff]
        sample_blindings = Ok witnesses
    ∧ length statements = length witnesses
    ∧ statements !! 0%nat
      = Some (sample_commitmentG1 (value_g sample_sigParams :: [[x02]; [x02]])
                (commitment sample_request))
    ∧ ∀ k idx, (sort_entries sample_messages).*1 !! k = Some idx →
        ∃ msg b c,
          map_get idx sample_messages = Some msg ∧ map_get idx sample_blindings = Some b
          ∧ map_get idx (commitments sample_request) = Some c
          ∧ statements !! S k = Some (sample_commitmentG1 [value_g sample_sigParams; [x0f]] c)
          ∧ witnesses !! S k = Some (sample_commitment [b; msg]).
Proof.
  apply (getPSStatementsForBlindSigRequest_match_witnesses sample_commitment
           sample_commitmentG1 sample_request sample_sigParams [x0f] sample_messages [xff]
           sample_blindings [[x02]; [x02]]).
  - decide_goal.
  - decide_goal.
  - decide_goal.
  - apply Forall_forall. decide_goal.
  - by vm_compute.
Defined.

(** ** The blind signature test: the hidden messages *)

Lemma hidden_loop_spec (names : list string) (encodedValues : list bytes) :
  NoDup names →
  ∀ (hiddenAttrNames : list string) (hiddenMsgs0 : JsMap nat (option bytes)) (found0 : nat),
  ∃ hiddenMsgs,
    foldl (λ '(hiddenMsgs, found) n,
             match indexOf n names with
             | Some i => (map_set i (encodedValues !! i) hiddenMsgs, S found)
             | None => (hiddenMsgs, found)
             end) (hiddenMsgs0, found0) hiddenAttrNames
    = (hiddenMsgs, (found0 + length (filter (λ n, n ∈ names) hiddenAttrNames))%nat)
    ∧ (NoDup hiddenMsgs0.*1 → NoDup hiddenMsgs.*1)
    ∧ ∀ i, map_get i hiddenMsgs =
           match names !! i with
           | Some n => if decide (n ∈ hiddenAttrNames) then Some (encodedValues !! i)
                       else map_get i hiddenMsgs0
           | None => map_get i hiddenMsgs0
           end.
Proof.
  intros Hnames. induction hiddenAttrNames as [|n l IH]; intros h0 f0; csimpl.
  - exists h0. split_and!; [f_equal; lia|done|].
    intros i. destruct (names !! i) as [n|]; [|done].
    destruct (decide (n ∈ [])) as [Hin|]; [by apply not_elem_of_nil in Hin|done].
  - rewrite filter_cons. destruct (indexOf n names) as [i0|] eqn:Hidx.
    + pose proof (indexOf_Some _ _ _ Hidx) as Hi0.
      rewrite decide_True by by eapply list_elem_of_lookup_2.
      destruct (IH (map_set i0 (encodedValues !! i0) h0) (S f0)) as (h & Hfold & Hnd & Hget).
      exists h. split_and!.
      * rewrite Hfold. csimpl. f_equal. lia.
      * intros H0. by apply Hnd, map_set_NoDup.
      * intros i. rewrite Hget. destruct (names !! i) as [n'|] eqn:Hi.
        -- destruct (decide (n' ∈ l)) as [Hin|Hnin].
           ++ by rewrite decide_True by by right.
           ++ rewrite map_get_set. destruct (decide (i = i0)) as [->|Hne].
              ** assert (n' = n) as -> by congruence. by rewrite decide_True by left.
              ** rewrite decide_False; [done|]. intros [->|?]%elem_of_cons; [|done].
                 apply Hne. by eapply NoDup_lookup.
        -- rewrite map_get_set, decide_False; [done|]. intros ->. congruence.
    + apply indexOf_None in Hidx. rewrite decide_False by done.
      destruct (IH h0 f0) as (h & Hfold & Hnd & Hget).
      exists h. split_and!; [done..|].
      intros i. rewrite Hget. destruct (names !! i) as [n'|] eqn:Hi; [|done].
      destruct (decide (n' ∈ l)) as [Hin|Hnin].
      * by rewrite decide_True by by right.
      * rewrite decide_False; [done|]. intros [->|?]%elem_of_cons; [|done].
        apply Hidx. by eapply list_elem_of_lookup_2.
Qed.



(** ** [CredentialBuilder]: top-level fields *)

Lemma map_get_app {K V} `{EqDecision K} (m1 m2 : JsMap K V) k :
  map_get k (m1 ++ m2) = match map_get k m1 with Some v => Some v | None => map_get k m2 end.
Proof.
  induction m1 as [|[k' v'] m1 IH]; csimpl; [done|]. by case_decide.
Qed.

Lemma map_get_writes {K V} `{EqDecision K} (writes : list (K * V)) : ∀ (m : JsMap K V) k,
  map_get k (foldl (λ m kv, map_set kv.1 kv.2 m) m writes)
  = match map_get k (reverse writes) with Some v => Some v | None => map_get k m end.
Proof.
  induction writes as [|[k' v'] writes IH]; intros m k; csimpl; [done|].
  rewrite IH, reverse_cons, map_get_app. destruct (map_get k (reverse writes)); [done|].
  csimpl. rewrite map_get_set. by repeat case_decide.
Qed.

Section CredentialBuilderFieldFacts.
Context {Signature : Type}.

Lemma setTopLevelField_writes (writes : list (string * JsVal)) :
  ∀ b : @CredentialBuilder Signature,
  _topLevelFields (foldl (λ b nv, setTopLevelField nv.1 nv.2 b) b writes)
  = foldl (λ m kv, map_set kv.1 kv.2 m) (_topLevelFields b) writes.
Proof. induction writes as [|[n v] writes IH]; intros b; csimpl; [done|]. by rewrite IH. Qed.

(** After any sequence of [setTopLevelField] on a new builder the names of
    the top-level fields are distinct, and [getTopLevelField] returns the
    value last set for the name; it throws when the name was never set or
    when the value last set is [undefined]. *)
Theorem getTopLevelField_last_write (writes : list (string * JsVal)) (name : string) :
  let b := foldl (λ b nv, setTopLevelField nv.1 nv.2 b)
                 (@new_CredentialBuilder Signature) writes in
  NoDup (_topLevelFields b).*1
  ∧ getTopLevelField name b =
    match map_get name (reverse writes) with
    | Some v => if is_undefined v then Throw (field_absent name) else Ok v
    | None => Throw (field_absent name)
    end.
Proof.
  csimpl. split.
  - rewrite setTopLevelField_writes. csimpl.
    assert (NoDup (@nil (string * JsVal)).*1) as Hnil by constructor.
    revert Hnil. generalize (@nil (string * JsVal)).
    induction writes as [|[n v] writes IH]; intros m Hm; csimpl; [done|].
    apply IH. by apply map_set_NoDup.
  - unfold getTopLevelField. rewrite setTopLevelField_writes, map_get_writes. csimpl.
    by destruct (map_get name (reverse writes)).
Qed.

End CredentialBuilderFieldFacts.

(** ** [CredentialBuilder.setCredentialStatus] *)

Section CredentialStatusFacts.
Context {Signature : Type}.
Variable F : FieldNames.
Variable N : StatusNames.

(** [setCredentialStatus] accepts the two revocation checks only.  When it
    throws the builder is as before; when it returns, the serialization for
    signing has, under the status tag, an object with the type, the registry
    id, the revocation check and the member value, whatever the top-level
    fields are. *)
Theorem setCredentialStatus_serialized (registryId revCheck : string) (memberValue : JsVal)
    (b : @CredentialBuilder Signature) :
  STATUS_STR F ≠ "__proto__" →
  NoDup [TYPE_STR N; ID_STR N; REV_CHECK_STR N; REV_ID_STR N] →
  match setCredentialStatus N registryId revCheck memberValue b with
  | (b', Ok _) =>
      (revCheck = MEM_CHECK_STR N ∨ revCheck = NON_MEM_CHECK_STR N)
      ∧ _topLevelFields b' = _topLevelFields b
      ∧ ∃ status,
          js_get (STATUS_STR F) (builder_serializeForSigning F b') = JObj false status
          ∧ status ≡ₚ [(TYPE_STR N, JStr (STATUS_TYPE_STR N)); (ID_STR N, JStr registryId);
                       (REV_CHECK_STR N, JStr revCheck); (REV_ID_STR N, memberValue)]
  | (b', Throw m) =>
      revCheck ≠ MEM_CHECK_STR N ∧ revCheck ≠ NON_MEM_CHECK_STR N
      ∧ b' = b ∧ m = bad_revocation_check N revCheck
  end.
Proof.
  intros Hstatus Hnames. unfold setCredentialStatus.
  destruct (bool_decide (revCheck ≠ MEM_CHECK_STR N)
            && bool_decide (revCheck ≠ NON_MEM_CHECK_STR N)) eqn:Hcheck.
  - apply andb_true_iff in Hcheck as [H1%bool_decide_eq_true H2%bool_decide_eq_true]. done.
  - split_and!.
    + apply andb_false_iff in Hcheck as [H1%bool_decide_eq_false|H2%bool_decide_eq_false].
      * left. by destruct (decide (revCheck = MEM_CHECK_STR N)).
      * right. by destruct (decide (revCheck = NON_MEM_CHECK_STR N)).
    + done.
    + eexists. split.
      * unfold builder_serializeForSigning. csimpl. unfold js_get, js_assign.
        rewrite decide_False by done. by rewrite obj_get_set.
      * apply NoDup_cons in Hnames as [H1 Hnames].
        apply NoDup_cons in Hnames as [H2 Hnames].
        apply NoDup_cons in Hnames as [H3 _].
        rewrite obj_set_keys_fresh.
        2:{ rewrite !obj_set_elem_of_keys. set_solver. }
        rewrite obj_set_keys_fresh.
        2:{ rewrite !obj_set_elem_of_keys. set_solver. }
        rewrite obj_set_keys_fresh.
        2:{ rewrite !obj_set_elem_of_keys. set_solver. }
        rewrite obj_set_keys_fresh by set_solver.
        apply NoDup_Permutation; [| |set_solver].
        -- repeat (apply NoDup_cons; split; [set_solver|]). constructor.
        -- repeat (apply NoDup_cons; split; [set_solver|]). constructor.
Qed.

End CredentialStatusFacts.

Lemma setCredentialStatus_serialized_witness :
  ("membership" = MEM_CHECK_STR upstream_status_names
   ∨ "membership" = NON_MEM_CHECK_STR upstream_status_names)
  ∧ [("issuer", JStr "did:dock:x")] = _topLevelFields (sample_builder [("issuer", JStr "did:dock:x")])
  ∧ ∃ status,
      js_get "credentialStatus"
        (builder_serializeForSigning upstream_names
           (setCredentialStatus upstream_status_names "dock:accumulator:1" "membership"
              (JStr "user:A-123") (sample_builder [("issuer", JStr "did:dock:x")])).1)
      = JObj false status
      ∧ status ≡ₚ [("type", JStr "DockVBAccumulator2022"); ("id", JStr "dock:accumulator:1");
                   ("revocationCheck", JStr "membership");
                   ("revocationId", JStr "user:A-123")].
Proof.
  pose proof (setCredentialStatus_serialized upstream_names upstream_status_names
                "dock:accumulator:1" "membership" (JStr "user:A-123")
                (sample_builder [("issuer", JStr "did:dock:x")])) as Hthm.
  apply Hthm.
  - decide_goal.
  - decide_goal.
Defined.

(** ** [applyDefaultProofMetadataIfNeeded] and [Credential.serializeForSigning] *)

Section ProofMetadataFacts.
Context {Signature : Type}.
Variable F : FieldNames.
Variable CRED_PROOF_TYPE : SignatureType → string.

(** [applyDefaultProofMetadataIfNeeded] leaves an object with a truthy
    proof entry as it is, so applying it again, also for another signature
    type, changes nothing; after it the proof entry is truthy. *)
Theorem applyDefaultProofMetadataIfNeeded_idempotent (t1 t2 : SignatureType) (s : Obj) :
  applyDefaultProofMetadataIfNeeded F CRED_PROOF_TYPE t2
    (applyDefaultProofMetadataIfNeeded F CRED_PROOF_TYPE t1 s)
  = applyDefaultProofMetadataIfNeeded F CRED_PROOF_TYPE t1 s
  ∧ (falsy (js_get (PROOF_STR F) s) = false →
     applyDefaultProofMetadataIfNeeded F CRED_PROOF_TYPE t1 s = s)
  ∧ (PROOF_STR F ≠ "__proto__" →
     falsy (js_get (PROOF_STR F) (applyDefaultProofMetadataIfNeeded F CRED_PROOF_TYPE t1 s))
     = false).
Proof.
  unfold applyDefaultProofMetadataIfNeeded.
  destruct (falsy (js_get (PROOF_STR F) s)) eqn:Hfalsy.
  - unfold js_assign. destruct (decide (PROOF_STR F = "__proto__")) as [Hproto|Hproto].
    + rewrite Hfalsy. by split_and!.
    + unfold js_get. rewrite !obj_get_set. csimpl. by split_and!.
  - by rewrite Hfalsy.
Qed.

Lemma foldl_js_assign_keys (entries : list (string * JsVal)) : ∀ (s : Obj) k,
  k ∈ Object_keys (foldl (λ s kv, js_assign kv.1 kv.2 s) s entries)
  ↔ k ∈ Object_keys s ∨ (k ∈ entries.*1 ∧ k ≠ "__proto__").
Proof.
  induction entries as [|[n v] entries IH]; intros s k; csimpl.
  - rewrite elem_of_nil. naive_solver.
  - rewrite IH, elem_of_cons. unfold js_assign. case_decide as Hn.
    + naive_solver.
    + rewrite obj_set_elem_of_keys. naive_solver.
Qed.

(** [Credential.serializeForSigning] never throws: whatever the credential
    holds, the proof entry is an own, truthy property when [proofValue] is
    deleted from it.  The result has the version, schema and subject tags and
    every top-level field among its keys. *)
Theorem serializeForSigning_returns (c : Credential Signature) :
  PROOF_STR F ∉ prototype_member_names →
  "__proto__" ∉ (topLevelFields c).*1 →
  ∃ s, serializeForSigning F CRED_PROOF_TYPE c = Ok s
       ∧ falsy (js_get (PROOF_STR F) s) = false
       ∧ ∀ k, k ∈ [CRYPTO_VERSION_STR F; SCHEMA_STR F; SUBJECT_STR F; PROOF_STR F]
                    ++ (topLevelFields c).*1 →
              k ∈ Object_keys s.
Proof.
  intros Hproof Hfields.
  assert (PROOF_STR F ≠ "__proto__") as Hproto.
  { intros Heq. apply Hproof. rewrite Heq. unfold prototype_member_names. left. }
  unfold serializeForSigning.
  set (s0 := obj_set (SUBJECT_STR F) _ _).
  set (s1 := foldl _ s0 _).
  set (s2 := if is_undefined _ then s1 else _).
  assert (∀ k, k ∈ [CRYPTO_VERSION_STR F; SCHEMA_STR F; SUBJECT_STR F] ++ (topLevelFields c).*1
               → k ∈ Object_keys s2) as Hkeys.
  { intros k Hk.
    assert (k ∈ Object_keys s1) as Hk1.
    { apply foldl_js_assign_keys. apply elem_of_app in Hk as [Hk|Hk].
      - left. unfold s0. rewrite !obj_set_elem_of_keys. set_solver.
      - right. split; [done|]. by intros ->. }
    unfold s2. destruct (is_undefined _); [done|].
    unfold js_assign. case_decide; [done|]. rewrite obj_set_elem_of_keys. by right. }
  clearbody s2. clear s0 s1.
  unfold applyDefaultProofMetadataIfNeeded.
  destruct (falsy (js_get (PROOF_STR F) s2)) eqn:Hfalsy.
  - unfold js_assign. rewrite decide_False by done.
    unfold js_get at 1. rewrite !obj_get_set. csimpl. eexists. split; [done|].
    split.
    + unfold js_get. by rewrite obj_get_set.
    + intros k Hk. rewrite !obj_set_elem_of_keys.
      change (?a :: ?b :: ?d :: ?e :: ?l) with ([a; b; d] ++ [e] ++ l) in Hk.
      rewrite !elem_of_app, list_elem_of_singleton in Hk.
      destruct Hk as [Hk|[->|Hk]]; [|by left|]; do 2 right; apply Hkeys; set_solver.
  - unfold js_get in *. destruct (obj_get (PROOF_STR F) s2) as [v|] eqn:Hget; [|done].
    csimpl in *. rewrite (delete_property_truthy _ _ Hfalsy). csimpl.
    eexists. split; [done|]. split.
    + rewrite obj_get_set. csimpl. by destruct v.
    + intros k Hk. rewrite !obj_set_elem_of_keys.
      change (?a :: ?b :: ?d :: ?e :: ?l) with ([a; b; d] ++ [e] ++ l) in Hk.
      rewrite !elem_of_app, list_elem_of_singleton in Hk.
      destruct Hk as [Hk|[->|Hk]]; [|by left|]; right; apply Hkeys; set_solver.
Qed.

End ProofMetadataFacts.

Lemma serializeForSigning_returns_witness :
  ∃ s, serializeForSigning upstream_names upstream_proof_type
         (sample_credential [("credentialStatus", JNum 0); ("proof", JNull)] JUndefined) = Ok s
       ∧ falsy (js_get "proof" s) = false
       ∧ ∀ k, k ∈ ["cryptoVersion"; "credentialSchema"; "credentialSubject"; "proof"]
                    ++ ["credentialStatus"; "proof"] →
              k ∈ Object_keys s.
Proof.
  apply (serializeForSigning_returns upstream_names upstream_proof_type
           (sample_credential [("credentialStatus", JNum 0); ("proof", JNull)] JUndefined)).
  - decide_goal.
  - decide_goal.
Defined.

(** ** [CompositeProof.getKeyedProofs] *)

Lemma keyed_proof_class_cases (t i : Z) :
  (0 ≤ t ≤ 3 ∧ keyed_proof_class t i = Ok (tagged_proof t))
  ∨ (¬ 0 ≤ t ≤ 3 ∧ keyed_proof_class t i = Throw (unknown_keyed_proof t i)).
Proof.
  unfold keyed_proof_class. repeat case_decide; subst; [left; split; [lia|done]..|].
  right. split; [lia|done].
Qed.

Lemma getKeyedProofs_steps : ∀ (delgProofs : JsMap Z (Z * bytes)) (r0 : JsMap Z KeyedProof),
  NoDup (r0.*1 ++ delgProofs.*1) →
  match foldM (λ r '(i, (t, v)), cls ← keyed_proof_class t i; Ok (map_set i (cls v) r))
              delgProofs r0 with
  | Ok r =>
      ∃ new, r = r0 ++ new
        ∧ Forall2 (λ itv ip, ip.1 = itv.1 ∧ 0 ≤ itv.2.1 ≤ 3
                             ∧ ip.2 = tagged_proof itv.2.1 itv.2.2) delgProofs new
  | Throw m =>
      ∃ before i t v after, delgProofs = before ++ (i, (t, v)) :: after
        ∧ Forall (λ itv, 0 ≤ itv.2.1 ≤ 3) before
        ∧ ¬ 0 ≤ t ≤ 3 ∧ m = unknown_keyed_proof t i
  end.
Proof.
  induction delgProofs as [|[i [t v]] delgProofs IH]; intros r0 Hnd; csimpl.
  - exists []. by rewrite app_nil_r.
  - destruct (keyed_proof_class_cases t i) as [[Ht ->]|[Ht ->]]; csimpl.
    + rewrite map_set_fresh.
      2:{ apply NoDup_app in Hnd as (_ & Hdisj & _). intros Hi. apply (Hdisj _ Hi). left. }
      specialize (IH (r0 ++ [(i, tagged_proof t v)])).
      destruct (foldM _ delgProofs _) as [r|m].
      * destruct IH as (new & -> & Hall); [by rewrite fmap_app, <-app_assoc|].
        exists ((i, tagged_proof t v) :: new). rewrite <-app_assoc. split; [done|].
        by constructor.
      * destruct IH as (before & i' & t' & v' & after & -> & Hbefore & Hbad & ->);
          [by rewrite fmap_app, <-app_assoc|].
        exists ((i, (t, v)) :: before), i', t', v', after. split_and!; [done| |done|done].
        by constructor.
    + exists [], i, t, v, delgProofs. split_and!; [done|constructor|done|done].
Qed.

(** [getKeyedProofs] on the keyed sub-proofs of a proof: when every type tag
    is 0, 1, 2 or 3 it returns a map with the same statement indices in the
    same order, each value wrapped in the class of its tag; otherwise it
    throws, naming the tag and the index of the first entry with another
    tag. *)
Theorem getKeyedProofs_outcome (delgProofs : JsMap Z (Z * bytes)) :
  NoDup delgProofs.*1 →
  match getKeyedProofs delgProofs with
  | Ok r =>
      Forall2 (λ itv ip, ip.1 = itv.1 ∧ 0 ≤ itv.2.1 ≤ 3
                         ∧ ip.2 = tagged_proof itv.2.1 itv.2.2) delgProofs r
  | Throw m =>
      ∃ before i t v after, delgProofs = before ++ (i, (t, v)) :: after
        ∧ Forall (λ itv, 0 ≤ itv.2.1 ≤ 3) before
        ∧ ¬ 0 ≤ t ≤ 3 ∧ m = unknown_keyed_proof t i
  end.
Proof.
  intros Hnd. unfold getKeyedProofs.
  pose proof (getKeyedProofs_steps delgProofs [] Hnd) as Hsteps.
  destruct (foldM _ _ _) as [r|m]; [|done].
  by destruct Hsteps as (new & -> & Hall).
Qed.

Lemma getKeyedProofs_outcome_witness :
  ∃ before i t v after,
    [(0, (0, [x01])); (2, (3, [x02])); (5, (4, [x03])); (6, (7, [x04]))]
    = before ++ (i, (t, v)) :: after
    ∧ Forall (λ itv : Z * (Z * bytes), 0 ≤ itv.2.1 ≤ 3) before
    ∧ ¬ 0 ≤ t ≤ 3 ∧ "Unknown type 4 of keyed proof for credential index 5"
                     = unknown_keyed_proof t i.
Proof.
  pose proof (getKeyedProofs_outcome
                [(0, (0, [x01])); (2, (3, [x02])); (5, (4, [x03])); (6, (7, [x04]))]) as Hthm.
  apply Hthm. decide_goal.
Defined.

(** ** The selection loop of the proof-of-knowledge test *)

Ltac loop_lookup i k messages :=
  destruct (decide (k = i)) as [->|];
  [ replace (i - i)%nat with 0%nat by lia; replace (i - S i)%nat with 0%nat by lia
  | destruct (decide (k < i)%nat);
    [ replace (k - i)%nat with 0%nat by lia; replace (k - S i)%nat with 0%nat by lia
    | replace (k - i)%nat with (S (k - S i)) by lia ] ];
  csimpl; try (destruct messages; csimpl);
  try (destruct (messages !! (k - S i)%nat));
  repeat case_decide; try done; naive_solver lia.

Lemma reveal_by_index_spec (revealedMsgIndices : list nat) :
  ∀ (messages : list bytes) (i : nat) (r0 u0 : JsMap nat bytes),
  ∃ r u,
    reveal_by_index revealedMsgIndices i messages (r0, u0) = (r, u)
    ∧ (NoDup r0.*1 → NoDup r.*1) ∧ (NoDup u0.*1 → NoDup u.*1)
    ∧ (∀ k, map_get k r =
         match messages !! (k - i)%nat with
         | Some m => if decide ((i ≤ k)%nat ∧ k ∈ revealedMsgIndices) then Some m
                     else map_get k r0
         | None => map_get k r0
         end)
    ∧ (∀ k, map_get k u =
         match messages !! (k - i)%nat with
         | Some m => if decide ((i ≤ k)%nat ∧ k ∉ revealedMsgIndices) then Some m
                     else map_get k u0
         | None => map_get k u0
         end).
Proof.
  induction messages as [|m messages IH]; intros i r0 u0; csimpl.
  - exists r0, u0. by split_and!.
  - case_bool_decide as Hi.
    + destruct (IH (S i) (map_set i m r0) u0) as (r & u & Hloop & Hr & Hu & Hgr & Hgu).
      exists r, u. split_and!; [done| |done| |].
      * intros H0. by apply Hr, map_set_NoDup.
      * intros k. rewrite Hgr, map_get_set. loop_lookup i k messages.
      * intros k. rewrite Hgu. loop_lookup i k messages.
    + destruct (IH (S i) r0 (map_set i m u0)) as (r & u & Hloop & Hr & Hu & Hgr & Hgu).
      exists r, u. split_and!; [done|done| | |].
      * intros H0. by apply Hu, map_set_NoDup.
      * intros k. rewrite Hgr. loop_lookup i k messages.
      * intros k. rewrite Hgu, map_get_set. loop_lookup i k messages.
Qed.

(** The loop of the proof-of-knowledge test splits the messages by index:
    the revealed map holds message [i] exactly for the indices [i] to reveal
    that are below the number of messages, the unrevealed map holds all the
    other messages; an index to reveal that is not below the number of
    messages is ignored. *)
Theorem reveal_by_index_split (revealedMsgIndices : list nat) (messages : list bytes) :
  ∃ revealedMsgs unrevealedMsgs,
    reveal_by_index revealedMsgIndices 0 messages ([], []) = (revealedMsgs, unrevealedMsgs)
    ∧ NoDup revealedMsgs.*1 ∧ NoDup unrevealedMsgs.*1
    ∧ (∀ i, map_get i revealedMsgs
            = if decide (i ∈ revealedMsgIndices) then messages !! i else None)
    ∧ (∀ i, map_get i unrevealedMsgs
            = if decide (i ∈ revealedMsgIndices) then None else messages !! i).
Proof.
  destruct (reveal_by_index_spec revealedMsgIndices messages 0 [] [])
    as (r & u & Hloop & Hr & Hu & Hgr & Hgu).
  exists r, u. split_and!; [done|apply Hr; constructor|apply Hu; constructor| |].
  - intros i. rewrite Hgr. replace (i - 0)%nat with i by lia.
    destruct (messages !! i); repeat case_decide; try done; naive_solver lia.
  - intros i. rewrite Hgu. replace (i - 0)%nat with i by lia.
    destruct (messages !! i); repeat case_decide; try done; naive_solver lia.
Qed.

(** ** [CredentialBuilder.serializeForSigning] *)

Section BuilderSerializationFacts.
Context {Signature : Type}.
Variable F : FieldNames.

(** For a builder none of whose top-level fields is named like the version,
    schema, subject or status tag, [serializeForSigning] returns, in this
    order, the version, the schema as JSON text ([undefined] without a
    schema), the subject, the top-level fields in insertion order and, when a
    status was set, the status. *)
Theorem builder_serializeForSigning_layout (b : @CredentialBuilder Signature) :
  let tags := [CRYPTO_VERSION_STR F; SCHEMA_STR F; SUBJECT_STR F; STATUS_STR F] in
  NoDup tags → Forall plain_name tags →
  NoDup (_topLevelFields b).*1 → Forall plain_name (_topLevelFields b).*1 →
  (∀ k, k ∈ (_topLevelFields b).*1 → k ∉ tags) →
  builder_serializeForSigning F b
  = [(CRYPTO_VERSION_STR F, JStr (_version b));
     (SCHEMA_STR F, match _schema b with
                    | Some schema => JStr (toJSON_stringified schema)
                    | None => JUndefined
                    end);
     (SUBJECT_STR F, _subject b)]
    ++ _topLevelFields b
    ++ (if is_undefined (_credStatus b) then [] else [(STATUS_STR F, _credStatus b)]).
Proof.
  intros tags Htags Hplain Hfields Hfplain Hdisj. unfold tags in *.
  apply NoDup_cons in Htags as [Hv Htags]. apply NoDup_cons in Htags as [Hs Htags].
  apply NoDup_cons in Htags as [Hsub _].
  apply Forall_cons in Hplain as [Hpv Hplain]. apply Forall_cons in Hplain as [Hps Hplain].
  apply Forall_cons in Hplain as [Hpsub Hplain]. apply Forall_cons in Hplain as [Hpst _].
  unfold builder_serializeForSigning.
  rewrite (obj_set_append (CRYPTO_VERSION_STR F)); [|apply not_elem_of_nil|apply Hpv].
  rewrite (obj_set_append (SCHEMA_STR F)); [|set_solver|apply Hps].
  rewrite (obj_set_append (SUBJECT_STR F)); [|set_solver|apply Hpsub].
  rewrite foldl_js_assign_append; [|done|done|].
  2:{ intros k Hk Hin. apply (Hdisj k Hk). csimpl in Hin. set_solver. }
  destruct (is_undefined (_credStatus b)).
  - by rewrite app_nil_r.
  - rewrite js_assign_append; [by rewrite <-app_assoc|done|].
    unfold Object_keys. rewrite fmap_app, elem_of_app. csimpl. intros [Hin|Hin].
    + set_solver.
    + apply (Hdisj _ Hin). set_solver.
Qed.

End BuilderSerializationFacts.

Lemma builder_serializeForSigning_layout_witness :
  builder_serializeForSigning upstream_names
    (sample_builder [("issuer", JStr "did:dock:x"); ("expiry", JNum 1700000000)])
  = [("cryptoVersion", JStr "0.0.1"); ("credentialSchema", JStr "{}");
     ("credentialSubject", JObj false [("fname", JStr "John")])]
    ++ [("issuer", JStr "did:dock:x"); ("expiry", JNum 1700000000)]
    ++ [].
Proof.
  apply (builder_serializeForSigning_layout upstream_names
           (sample_builder [("issuer", JStr "did:dock:x"); ("expiry", JNum 1700000000)])).
  - decide_goal.
  - decide_goal.
  - decide_goal.
  - decide_goal.
  - apply Forall_forall. decide_goal.
Defined.
